(** * cdc-sink: the resolved-timestamp resolver, its store and helpers

  A shallow embedding of the Go sources
    - internal/types/types.go        (Mutation, IsDelete)
    - internal/util/msort            (UniqueByKey)
    - internal/source/cdc/resolver.go (Mark, Record, selectTimestamp,
      nextProposedStamp, readInto, Process, process, retireLoop,
      ScanForTargetSchemas)
    - internal/source/logical/serial_events.go (serialEvents)
  together with the properties that the specification states about
  them.  Slices are lists, Go maps are [gmap]s, the SQL meta-table is a
  list of rows, and calls into collaborators (the target [Events], the
  stagers, the connection pool) append to a trace and draw their
  outcome from an explicit environment. *)

From stdpp Require Import gmap strings list fin_maps sorting.
From Stdlib Require Import ZArith Lia.

Local Open Scope Z_scope.

(** ** Go integers *)

(** Two's-complement wrap-around of a 64-bit signed integer. *)
Definition wrap64 (z : Z) : Z := (z + 2 ^ 63) mod 2 ^ 64 - 2 ^ 63.

(** ** Results of fallible and panicking code *)

(** A Go function that either returns a value or panics. *)
Inductive outcome (A : Type) : Type :=
| Ret (a : A)
| Panic (msg : string).
Arguments Ret {A} a.
Arguments Panic {A} msg.

(** Go [error] values that the resolver can return.  [ErrNoWork] is the
  sentinel [errNoWork]; [ErrCanceled] is [context.Canceled]; the others carry the
  message of an error that came from a collaborator. *)
Inductive error : Type :=
| ErrNoWork
| ErrNoTables (schema : string)
| ErrCanceled
| ErrSQL (msg : string)
| ErrCtx (msg : string)
| ErrOther (msg : string).

#[global] Instance error_eq_dec : EqDecision error.
Proof. solve_decision. Defined.

(** ** package hlc *)

Module hlc.

(** Modelled from the spec: package hlc is not under src.  [hlc.Time]
    is a pair of wall nanoseconds and a logical counter; [New] is
    [hlc.New], [Zero] the sentinel (0, 0). *)
Record Time : Type := New { Nanos : Z; Logical : Z }.

#[global] Instance Time_eq_dec : EqDecision Time.
Proof. solve_decision. Defined.

Definition Zero : Time := New 0 0.

(** Modelled from the spec: [hlc.Compare] is not under src; the spec
    gives HLC the lexicographic order on (nanos, logical).  The result
    is negative, zero or positive as in Go's comparison functions. *)
Definition Compare (a b : Time) : Z :=
  if Nanos a <? Nanos b then -1
  else if Nanos b <? Nanos a then 1
  else if Logical a <? Logical b then -1
  else if Logical b <? Logical a then 1
  else 0.

(** Tuple order on (nanos, logical), as SQL's row comparison has it. *)
Definition lt (a b : Time) : Prop :=
  Nanos a < Nanos b ∨ (Nanos a = Nanos b ∧ Logical a < Logical b).
Definition le (a b : Time) : Prop := lt a b ∨ a = b.

Definition ltb (a b : Time) : bool :=
  (Nanos a <? Nanos b) || ((Nanos a =? Nanos b) && (Logical a <? Logical b)).
Definition leb (a b : Time) : bool := ltb a b || bool_decide (a = b).

End hlc.

(** ** package ident *)

(** [ident.Table] and [ident.Schema] are identified by their canonical
  raw name. *)
Abbreviation Table := string.
Abbreviation Schema := string.

(** ** package types *)

Module types.

(** [types.Mutation].  [Data] and [Key] are [json.RawMessage], that is
    byte strings; [Meta] holds the annotations rendered as strings. *)
Record Mutation : Type := {
  Data : string;
  Key : string;
  Time : hlc.Time;
  Meta : gmap string string
}.

Definition nullBytes : string := "null".

(** [Mutation.IsDelete] *)
Definition IsDelete (m : Mutation) : bool :=
  (String.length (Data m) =? 0)%nat || String.eqb (Data m) nullBytes.

(** [types.SelectManyCursor]; [End_] is the field [End]. *)
Record SelectManyCursor : Type := {
  Start : hlc.Time;
  End_ : hlc.Time;
  Targets : list (list Table);
  Limit : Z;
  Backfill : bool;
  OffsetKey : string;
  OffsetTable : Table;
  OffsetTime : hlc.Time
}.

End types.

(** ** package msort *)

Module msort.

Import types.

(** The loop state of [UniqueByKey]: the slice [x], which is updated
    in place, the index map [seenIdx] and the write position [dest]. *)
Record ustate : Type := {
  xs : list Mutation;
  seenIdx : gmap string nat;
  dest : nat
}.

Definition oob : string := "index out of range".
Definition emptyKey : string := "empty mutation key".

(** One iteration of the loop body at index [src].  Reading or writing
    the slice outside its bounds panics, as does an empty key. *)
Definition step (src : nat) (st : ustate) : outcome ustate :=
  match xs st !! src with
  | None => Panic oob
  | Some m =>
    if (String.length (Key m) =? 0)%nat then Panic emptyKey
    else
      match seenIdx st !! Key m with
      | Some curIdx =>
        match xs st !! curIdx with
        | None => Panic oob
        | Some cur =>
          if 0 <? hlc.Compare (Time m) (Time cur)
          then Ret {| xs := <[curIdx := m]> (xs st);
                      seenIdx := seenIdx st;
                      dest := dest st |}
          else Ret st
        end
      | None =>
        match dest st with
        | O => Panic oob
        | S d =>
          if decide (d < length (xs st))%nat
          then Ret {| xs := <[d := m]> (xs st);
                      seenIdx := <[Key m := d]> (seenIdx st);
                      dest := d |}
          else Panic oob
        end
      end
  end.

(** [for src := n-1; src >= 0; src--] *)
Fixpoint loop (n : nat) (st : ustate) : outcome ustate :=
  match n with
  | O => Ret st
  | S src =>
    match step src st with
    | Panic msg => Panic msg
    | Ret st' => loop src st'
    end
  end.

(** [UniqueByKey]; the result is the view [x[dest:]]. *)
Definition UniqueByKey (x : list Mutation) : outcome (list Mutation) :=
  match loop (length x) {| xs := x; seenIdx := ∅; dest := length x |} with
  | Panic msg => Panic msg
  | Ret st => Ret (drop (dest st) (xs st))
  end.

End msort.

(** ** package cdc: the resolved-timestamp store *)

Module cdc.

Import types.

(** A row of the meta-table declared by [schema]. *)
Record row : Type := {
  target_schema : Schema;
  source_nanos : Z;
  source_logical : Z;
  target_applied_at : option Z
}.

Definition rowTime (r : row) : hlc.Time :=
  hlc.New (source_nanos r) (source_logical r).

Definition mkRow (s : Schema) (ts : hlc.Time) (applied : option Z) : row :=
  {| target_schema := s;
     source_nanos := hlc.Nanos ts;
     source_logical := hlc.Logical ts;
     target_applied_at := applied |}.

(** The primary key is (target_schema, source_nanos, source_logical). *)
Definition samePK (s : Schema) (ts : hlc.Time) (r : row) : bool :=
  bool_decide (target_schema r = s) && bool_decide (rowTime r = ts).

(** [ORDER BY source_nanos DESC, source_logical DESC LIMIT 1] *)
Fixpoint greatest (l : list hlc.Time) : option hlc.Time :=
  match l with
  | [] => None
  | t :: l' =>
    match greatest l' with
    | None => Some t
    | Some g => if hlc.ltb g t then Some t else Some g
    end
  end.

(** [ORDER BY source_nanos, source_logical LIMIT 1] *)
Fixpoint least (l : list hlc.Time) : option hlc.Time :=
  match l with
  | [] => None
  | t :: l' =>
    match least l' with
    | None => Some t
    | Some g => if hlc.ltb t g then Some t else Some g
    end
  end.

(** The checkpoints recorded for a schema, in the order of the table. *)
Definition checkpoints (tbl : list row) (s : Schema) : list hlc.Time :=
  rowTime <$> filter (λ r, target_schema r = s) tbl.

(** The CTE [not_before] of [markTemplate]: at most one row. *)
Definition not_before (tbl : list row) (s : Schema) : list hlc.Time :=
  option_list (greatest (checkpoints tbl s)).

(** The CTE [to_insert] of [markTemplate].  The scalar subquery over an
    empty [not_before] is NULL, and a comparison with NULL is not true. *)
Definition to_insert (tbl : list row) (s : Schema) (ts : hlc.Time) : list row :=
  let nb := not_before tbl s in
  if (length nb =? 0)%nat
     || match nb with g :: _ => hlc.ltb g ts | [] => false end
  then [mkRow s ts None]
  else [].

(** What [pool.Exec] and [pool.QueryRow] give back. *)
Inductive execResult : Type :=
| ExecOk (tbl : list row) (rowsAffected : nat)
| ExecErr (e : error).

(** [INSERT INTO t SELECT ...]: a row whose primary key is taken makes
    the statement fail. *)
Fixpoint insertRows (tbl : list row) (rows : list row) (n : nat) : execResult :=
  match rows with
  | [] => ExecOk tbl n
  | r :: rows' =>
    if existsb (samePK (target_schema r) (rowTime r)) tbl
    then ExecErr (ErrSQL "duplicate key value violates unique constraint")
    else insertRows (tbl ++ [r]) rows' (S n)
  end.

(** [markTemplate], run against the table.  [fault] is the error, if
    any, with which the driver fails the statement before it runs. *)
Definition markExec (fault : option string) (tbl : list row)
    (s : Schema) (ts : hlc.Time) : execResult :=
  match fault with
  | Some msg => ExecErr (ErrSQL msg)
  | None => insertRows tbl (to_insert tbl s ts) 0
  end.

(** The part of the resolver that [Mark] touches: the meta-table behind
    [pool] and the value of the [marked] variable, [None] until it is
    first set. *)
Record store : Type := {
  metaTable : list row;
  marked : option hlc.Time
}.

(** [resolver.Mark] *)
Definition Mark (fault : option string) (st : store) (target : Schema)
    (ts : hlc.Time) : store * option error :=
  match markExec fault (metaTable st) target ts with
  | ExecErr e => (st, Some e)
  | ExecOk tbl' O => ({| metaTable := tbl'; marked := marked st |}, None)
  | ExecOk tbl' (S _) => ({| metaTable := tbl'; marked := Some ts |}, None)
  end.

(** [ts] is later, in tuple order, than every checkpoint recorded for
    the schema. *)
Definition newer (tbl : list row) (s : Schema) (ts : hlc.Time) : Prop :=
  Forall (λ t, hlc.lt t ts) (checkpoints tbl s).

#[global] Instance lt_dec (a b : hlc.Time) : Decision (hlc.lt a b).
Proof. unfold hlc.lt. apply _. Defined.

#[global] Instance newer_dec tbl s ts : Decision (newer tbl s ts).
Proof. unfold newer. apply _. Defined.

(** Strictly increasing in tuple order. *)
Definition increasing (l : list hlc.Time) : Prop := StronglySorted hlc.lt l.

(** A call of [Mark]: the driver's failure, if any, the schema of the
    resolver and the timestamp. *)
Definition markCall : Type := option string * Schema * hlc.Time.

Definition emptyStore : store := {| metaTable := []; marked := None |}.

(** A sequence of calls of [Mark], by the resolvers of any schemas. *)
Definition markAll (calls : list markCall) (st : store) : store :=
  foldl (λ st c, fst (Mark c.1.1 st c.1.2 c.2)) st calls.

(** [recordTemplate]: [UPSERT ... VALUES ($1, $2, $3, now())]. *)
Definition recordExec (tbl : list row) (s : Schema) (ts : hlc.Time)
    (now : Z) : list row :=
  if existsb (samePK s ts) tbl
  then (λ r, if samePK s ts r then mkRow s ts (Some now) else r) <$> tbl
  else tbl ++ [mkRow s ts (Some now)].

(** [resolver.Record] *)
Definition Record_ (fault : option string) (tbl : list row) (target : Schema)
    (ts : hlc.Time) (now : Z) : list row * option error :=
  match fault with
  | Some msg => (tbl, Some (ErrSQL msg))
  | None => (recordExec tbl target ts now, None)
  end.

(** The rows that [selectTimestampTemplate] ranges over. *)
Definition unapplied (tbl : list row) (s : Schema) (after : hlc.Time)
  : list hlc.Time :=
  rowTime <$>
    filter (λ r, target_schema r = s ∧ hlc.leb after (rowTime r) = true
                 ∧ target_applied_at r = None) tbl.

(** [resolver.selectTimestamp].  An empty result is [pgx.ErrNoRows],
    which becomes [errNoWork]; any other failure is passed on. *)
Definition selectTimestamp (fault : option string) (tbl : list row)
    (target : Schema) (after : hlc.Time) : hlc.Time * option error :=
  match fault with
  | Some msg => (hlc.Zero, Some (ErrSQL msg))
  | None =>
    match least (unapplied tbl target after) with
    | None => (hlc.Zero, Some ErrNoWork)
    | Some t => (t, None)
    end
  end.

(** ** package cdc: stamps, configuration and collaborators *)

(** Modelled from the spec: the declaration of [resolvedStamp] is not
    under src.  It is the cursor exchanged between reader and
    processor, with the fields that the resolver reads and the spec
    lists. *)
Record resolvedStamp : Type := {
  Backfill : bool;
  CommittedTime : hlc.Time;
  OffsetKey : string;
  OffsetTable : Table;
  OffsetTime : hlc.Time;
  ProposedTime : hlc.Time
}.

#[global] Instance resolvedStamp_eq_dec : EqDecision resolvedStamp.
Proof. solve_decision. Defined.

(** Modelled from the spec: the declaration of [Config] is not under
    src.  These are the fields that the resolver reads; durations are
    nanoseconds, as in [time.Duration]. *)
Record Config : Type := {
  BackupPolling : Z;
  ApplyTimeout : Z;
  SelectBatchSize : Z;
  IdealFlushBatchSize : Z;
  FlushEveryTimestamp : bool;
  RetireOffset : Z
}.

(** Code of the repository that the resolver calls and that is not
    under src: the constructors of [resolvedStamp], [script.SourceName]
    and the annotations that [script.AddMeta] computes.  The resolver
    is modelled for any implementation of them. *)
Record Externals : Type := {
  NewCommitted : resolvedStamp → error + resolvedStamp;
  NewProgress : resolvedStamp → SelectManyCursor → resolvedStamp;
  NewProposed : resolvedStamp → hlc.Time → error + resolvedStamp;
  SourceName : Schema → string;
  annotate : string → Table → Mutation → gmap string string
}.

(** Modelled from the spec: [script.AddMeta] is not under src; it
    attaches annotations to [Meta] and leaves the rest of the mutation
    as it is. *)
Definition AddMeta (ext : Externals) (source : string) (tbl : Table)
    (mut : Mutation) : Mutation :=
  {| Data := Data mut; Key := Key mut; Time := Time mut;
     Meta := annotate ext source tbl mut |}.

(** Modelled from the spec: the stamp transitions of section 3.
    [NewCommitted] makes the proposed time the committed one and clears
    the proposal, [NewProgress] takes the offsets of the cursor,
    [NewProposed] sets the proposed time, refusing to go backwards. *)
Definition specExternals : Externals :=
  {| NewCommitted := λ s,
       inr {| Backfill := false; CommittedTime := ProposedTime s;
              OffsetKey := ""; OffsetTable := ""; OffsetTime := hlc.Zero;
              ProposedTime := hlc.Zero |};
     NewProgress := λ s c,
       {| Backfill := Backfill s; CommittedTime := CommittedTime s;
          OffsetKey := types.OffsetKey c; OffsetTable := types.OffsetTable c;
          OffsetTime := types.OffsetTime c; ProposedTime := ProposedTime s |};
     NewProposed := λ s p,
       if hlc.Compare p (CommittedTime s) <? 0
       then inl (ErrOther "proposed cannot roll back committed time")
       else inr {| Backfill := Backfill s; CommittedTime := CommittedTime s;
                   OffsetKey := OffsetKey s; OffsetTable := OffsetTable s;
                   OffsetTime := OffsetTime s; ProposedTime := p |};
     SourceName := λ s, s;
     annotate := λ source tbl mut, <[source := tbl]> (Meta mut) |}.

(** Calls that leave the resolver: the [Events] and [Batch] contracts
    and the statement behind [Record]. *)
Inductive call : Type :=
| CallOnBegin
| CallOnData (source : string) (table : Table) (muts : list Mutation)
| CallOnCommit
| CallOnRollback
| CallRecord (ts : hlc.Time)
| CallSetConsistentPoint (rs : resolvedStamp).

#[global] Instance Mutation_eq_dec : EqDecision Mutation.
Proof. solve_decision. Defined.

#[global] Instance call_eq_dec : EqDecision call.
Proof. solve_decision. Defined.

(** What a call answers: success, or the error it returns.  For
    [CallOnCommit] the answer is what the [select] obtains: the value
    received from the commit channel, or [ctx.Err()] once the context
    is done. *)
Inductive reply : Type :=
| Ok
| Fail (e : error).

Definition event : Type := call * reply.

(** The collaborators: how they answer a call, given everything that
    was called before, and the staging database's [now()]. *)
Record Env : Type := {
  respond : list event → call → reply;
  now : list event → Z
}.

(** What is outside the processor: the calls made so far, the stamp
    that [Events.SetConsistentPoint] persisted last, and the
    meta-table. *)
Record world : Type := {
  hist : list event;
  consistentPoint : resolvedStamp;
  resolved : list row
}.

Definition invoke (env : Env) (w : world) (c : call) : world * reply :=
  let r := respond env (hist w) c in
  ({| hist := hist w ++ [(c, r)];
      consistentPoint := consistentPoint w;
      resolved := resolved w |}, r).

(** [events.SetConsistentPoint]: a successful call persists the stamp. *)
Definition setConsistentPoint (env : Env) (w : world) (rs : resolvedStamp)
  : world * reply :=
  match invoke env w (CallSetConsistentPoint rs) with
  | (w', Ok) =>
    ({| hist := hist w'; consistentPoint := rs; resolved := resolved w' |}, Ok)
  | (w', Fail e) => (w', Fail e)
  end.

(** [r.Record] as called by the processor. *)
Definition doRecord (env : Env) (w : world) (target : Schema) (ts : hlc.Time)
  : world * reply :=
  match invoke env w (CallRecord ts) with
  | (w', Ok) =>
    ({| hist := hist w'; consistentPoint := consistentPoint w';
        resolved := fst (Record_ None (resolved w') target ts (now env (hist w))) |},
     Ok)
  | (w', Fail e) => (w', Fail e)
  end.

(** [ident.TableMap.GetZero] *)
Definition GetZero (m : gmap Table (list Mutation)) (t : Table) : list Mutation :=
  default [] (m !! t).

(** ** package cdc: the processor *)

(** The inner loop of [flush]: [OnData] for the tables of one FK group. *)
Fixpoint flushTables (env : Env) (source : string)
    (toApply : gmap Table (list Mutation)) (tables : list Table) (w : world)
  : world * reply :=
  match tables with
  | [] => (w, Ok)
  | table :: rest =>
    let muts := GetZero toApply table in
    if (length muts =? 0)%nat then flushTables env source toApply rest w
    else
      match invoke env w (CallOnData source table muts) with
      | (w', Fail e) => (w', Fail e)
      | (w', Ok) => flushTables env source toApply rest w'
      end
  end.

(** The outer loop of [flush], over the FK groups. *)
Fixpoint flushGroups (env : Env) (source : string)
    (toApply : gmap Table (list Mutation)) (targets : list (list Table))
    (w : world) : world * reply :=
  match targets with
  | [] => (w, Ok)
  | tables :: rest =>
    match flushTables env source toApply tables w with
    | (w', Fail e) => (w', Fail e)
    | (w', Ok) => flushGroups env source toApply rest w'
    end
  end.

(** What [process] fixes before it streams: the collaborators, the
    configuration and the table order read from the watcher. *)
Record setup : Type := {
  env : Env;
  cfg : Config;
  ext : Externals;
  target : Schema;
  targets : list (list Table)
}.

(** The flush closure after [OnBegin] has succeeded; the deferred
    [OnRollback] is added by [flush]. *)
Definition flushBatch (su : setup) (cursor : SelectManyCursor)
    (toApply : gmap Table (list Mutation)) (final : bool)
    (rs : resolvedStamp) (w : world) : resolvedStamp * world * reply :=
  match flushGroups (env su) (SourceName (ext su) (target su)) toApply
          (targets su) w with
  | (w1, Fail e) => (rs, w1, Fail e)
  | (w1, Ok) =>
    match invoke (env su) w1 CallOnCommit with
    | (w2, Fail e) => (rs, w2, Fail e)
    | (w2, Ok) =>
      let advanced :=
        if final then
          match NewCommitted (ext su) rs with
          | inl e => (rs, w2, Fail e)
          | inr rs' =>
            match doRecord (env su) w2 (target su) (CommittedTime rs') with
            | (w3, Fail e) => (rs', w3, Fail e)
            | (w3, Ok) => (rs', w3, Ok)
            end
          end
        else (NewProgress (ext su) rs cursor, w2, Ok) in
      match advanced with
      | (rs', w3, Fail e) => (rs', w3, Fail e)
      | (rs', w3, Ok) =>
        match setConsistentPoint (env su) w3 rs' with
        | (w4, Fail e) => (rs', w4, Fail e)
        | (w4, Ok) => (rs', w4, Ok)
        end
      end
    end
  end.

(** The closure [flush] of [process].  The result of the deferred
    [OnRollback] is dropped. *)
Definition flush (su : setup) (cursor : SelectManyCursor)
    (toApply : gmap Table (list Mutation)) (final : bool)
    (rs : resolvedStamp) (w : world) : resolvedStamp * world * reply :=
  match invoke (env su) w CallOnBegin with
  | (w0, Fail e) => (rs, w0, Fail e)
  | (w0, Ok) =>
    let '(rs', w1, r) := flushBatch su cursor toApply final rs w0 in
    (rs', fst (invoke (env su) w1 CallOnRollback), r)
  end.

(** [toApply.Range] with [toApply.Put(tbl, muts[:0])]: every buffer is
    emptied and the keys stay. *)
Definition truncateAll (m : gmap Table (list Mutation))
  : gmap Table (list Mutation) :=
  (λ _, []) <$> m.

(** The variables that the [SelectMany] callback closes over. *)
Record pstate : Type := {
  epoch : hlc.Time;
  flushCounter : Z;
  toApply : gmap Table (list Mutation);
  total : Z;
  rs : resolvedStamp;
  cursor : SelectManyCursor;
  w : world
}.

(** The flush predicate of the callback. *)
Definition needsFlush (c : Config) (s : resolvedStamp) (counter : Z)
    (ep : hlc.Time) (mut : Mutation) : bool :=
  if Backfill s then IdealFlushBatchSize c <=? counter
  else if FlushEveryTimestamp c
  then negb (bool_decide (ep = hlc.Zero)) && (0 <? hlc.Compare (Time mut) ep)
  else (IdealFlushBatchSize c <=? counter) && (0 <? hlc.Compare (Time mut) ep).

(** The [SelectMany] callback of [process]. *)
Definition callback (su : setup) (tbl : Table) (mut : Mutation) (p : pstate)
  : pstate * reply :=
  let flushed :=
    if needsFlush (cfg su) (rs p) (flushCounter p) (epoch p) mut then
      match flush su (cursor p) (toApply p) false (rs p) (w p) with
      | (rs', w', Fail e) =>
        ({| epoch := epoch p; flushCounter := flushCounter p;
            toApply := toApply p; total := total p;
            rs := rs'; cursor := cursor p; w := w' |}, Fail e)
      | (rs', w', Ok) =>
        ({| epoch := epoch p; flushCounter := 0;
            toApply := truncateAll (toApply p);
            total := total p + flushCounter p;
            rs := rs'; cursor := cursor p; w := w' |}, Ok)
      end
    else (p, Ok) in
  match flushed with
  | (p', Fail e) => (p', Fail e)
  | (p', Ok) =>
    let mut' := AddMeta (ext su) "cdc" tbl mut in
    ({| epoch := Time mut'; flushCounter := flushCounter p' + 1;
        toApply := <[tbl := GetZero (toApply p') tbl ++ [mut']]> (toApply p');
        total := total p'; rs := rs p'; cursor := cursor p'; w := w p' |}, Ok)
  end.

(** Modelled from the spec: [Stagers.SelectMany] is an interface in src
    and its implementation is not.  It invokes the callback on the
    staged mutations in order, moves the offsets of the cursor as it
    goes, stops at the first error of the callback and returns it, and
    may fail itself.  A run of it is the sequence of these steps. *)
Inductive feedItem : Type :=
| Deliver (tbl : Table) (mut : Mutation)
| Seek (key : string) (tbl : Table) (time : hlc.Time).

Definition seek (c : SelectManyCursor) (key : string) (tbl : Table)
    (time : hlc.Time) : SelectManyCursor :=
  {| Start := Start c; End_ := End_ c; Targets := Targets c;
     Limit := Limit c; types.Backfill := types.Backfill c;
     types.OffsetKey := key; types.OffsetTable := tbl;
     types.OffsetTime := time |}.

(** A run of [r.stagers.SelectMany] with the callback of [process]. *)
Fixpoint SelectMany (su : setup) (feed : list feedItem) (feedErr : option error)
    (p : pstate) : pstate * reply :=
  match feed with
  | [] => (p, match feedErr with Some e => Fail e | None => Ok end)
  | Deliver tbl mut :: rest =>
    match callback su tbl mut p with
    | (p', Fail e) => (p', Fail e)
    | (p', Ok) => SelectMany su rest feedErr p'
    end
  | Seek key tbl time :: rest =>
    SelectMany su rest feedErr
      {| epoch := epoch p; flushCounter := flushCounter p;
         toApply := toApply p; total := total p; rs := rs p;
         cursor := seek (cursor p) key tbl time; w := w p |}
  end.

(** The state in which [process] starts to stream. *)
Definition initial (su : setup) (rs0 : resolvedStamp) (w0 : world) : pstate :=
  {| epoch := hlc.Zero; flushCounter := 0; toApply := ∅; total := 0;
     rs := rs0;
     cursor := {| Start := CommittedTime rs0; End_ := ProposedTime rs0;
                  Targets := targets su; Limit := SelectBatchSize (cfg su);
                  types.Backfill := Backfill rs0;
                  types.OffsetKey := OffsetKey rs0;
                  types.OffsetTable := OffsetTable rs0;
                  types.OffsetTime := OffsetTime rs0 |};
     w := w0 |}.

(** [resolver.process] *)
Definition process (su : setup) (feed : list feedItem) (feedErr : option error)
    (rs0 : resolvedStamp) (w0 : world) : world * reply :=
  if (length (targets su) =? 0)%nat
  then (w0, Fail (ErrNoTables (target su)))
  else
    match SelectMany su feed feedErr (initial su rs0 w0) with
    | (p, Fail e) => (w p, Fail e)
    | (p, Ok) =>
      match flush su (cursor p) (toApply p) true (rs p) (w p) with
      | (_, w', r) => (w', r)
      end
    end.

(** ** package cdc: the reader *)

(** [resolver.nextProposedStamp] *)
Definition nextProposedStamp (x : Externals) (fault : option string)
    (tbl : list row) (tgt : Schema) (prev : resolvedStamp) (backfill : bool)
  : error + resolvedStamp :=
  match selectTimestamp fault tbl tgt (CommittedTime prev) with
  | (_, Some e) => inl e
  | (nextResolved, None) =>
    match NewProposed x prev nextResolved with
    | inl e => inl e
    | inr ret =>
      inr (if backfill
           then {| Backfill := true; CommittedTime := CommittedTime ret;
                   OffsetKey := OffsetKey ret; OffsetTable := OffsetTable ret;
                   OffsetTime := OffsetTime ret;
                   ProposedTime := ProposedTime ret |}
           else ret)
    end
  end.

(** Which case the [select] around [ch <- toSend] takes. *)
Inductive sendResult : Type :=
| Sent
| SendStopping
| SendDone (e : error).

(** Which case the waiting [select] at the end of an iteration takes;
    [CpUpdated] carries the stamp that [GetConsistentPoint] then
    returns. *)
Inductive wake : Type :=
| CpUpdated (cp : resolvedStamp)
| MarkWakeup
| BackupTimer
| Stopping
| CtxDone (e : error).

(** What surrounds one iteration of the loop of [readInto]: the
    meta-table and the driver as a query of this iteration would find
    them, and the cases its two [select]s take. *)
Record tick : Type := {
  table : list row;
  fault : option string;
  send : sendResult;
  wakeup : wake
}.

(** What the reader does that others can see. *)
Inductive action : Type :=
| RetirementsSet (t : hlc.Time)
| Query (after : hlc.Time)
| Offer (s : resolvedStamp) (r : sendResult).

(** How far a loop got: it returned, or it is still running when the
    script of its surroundings ends. *)
Inductive exit : Type :=
| Returned (r : reply)
| Running.

(** The first half of an iteration: the stamp to send, if any, the new
    value of [resumeFrom], and the error on which [readInto] returns. *)
Definition propose (x : Externals) (tgt : Schema) (backfill : bool) (t : tick)
    (resumeFrom : option resolvedStamp)
  : list action * option resolvedStamp * option resolvedStamp * option error :=
  match resumeFrom with
  | None => ([], None, None, None)
  | Some rf =>
    if decide (ProposedTime rf ≠ hlc.Zero)
    then ([], Some rf, None, None)
    else
      match nextProposedStamp x (fault t) (table t) tgt rf backfill with
      | inr proposed =>
        ([Query (CommittedTime rf)], Some proposed, None, None)
      | inl e =>
        if decide (e = ErrNoWork)
        then ([Query (CommittedTime rf)], None, Some rf, None)
        else ([Query (CommittedTime rf)], None, Some rf, Some e)
      end
  end.

(** The waiting [select]. *)
Definition await (t : tick) (resumeFrom : option resolvedStamp)
  : list action * option resolvedStamp * option reply :=
  match wakeup t with
  | CpUpdated next =>
    if decide (ProposedTime next = hlc.Zero)
    then ([RetirementsSet (CommittedTime next)], Some next, None)
    else ([], resumeFrom, None)
  | MarkWakeup => ([], resumeFrom, None)
  | BackupTimer => ([], resumeFrom, None)
  | Stopping => ([], resumeFrom, Some Ok)
  | CtxDone e => ([], resumeFrom, Some (Fail e))
  end.

(** The [for] loop of [readInto]. *)
Fixpoint readLoop (x : Externals) (tgt : Schema) (backfill : bool)
    (script : list tick) (resumeFrom : option resolvedStamp)
  : list action * exit :=
  match script with
  | [] => ([], Running)
  | t :: rest =>
    match propose x tgt backfill t resumeFrom with
    | (acts, _, _, Some e) => (acts, Returned (Fail e))
    | (acts, toSend, resume1, None) =>
      let sending :=
        match toSend with
        | None => ([], None)
        | Some s =>
          ([Offer s (send t)],
           match send t with
           | Sent => None
           | SendStopping => Some Ok
           | SendDone e => Some (Fail e)
           end)
        end in
      match sending with
      | (offers, Some r) => (acts ++ offers, Returned r)
      | (offers, None) =>
        match await t resume1 with
        | (sets, _, Some r) => (acts ++ offers ++ sets, Returned r)
        | (sets, resume2, None) =>
          let '(more, ex) := readLoop x tgt backfill rest resume2 in
          (acts ++ offers ++ sets ++ more, ex)
        end
      end
    end
  end.

(** [resolver.readInto]; [cp] is the stamp that the first
    [GetConsistentPoint] returns. *)
Definition readInto (x : Externals) (tgt : Schema) (backfill : bool)
    (cp : resolvedStamp) (script : list tick) : list action * exit :=
  let resume :=
    if decide (CommittedTime cp ≠ hlc.Zero)
    then [RetirementsSet (CommittedTime cp)] else [] in
  let '(acts, ex) := readLoop x tgt backfill script (Some cp) in
  (resume ++ acts, ex).

(** The stamps that reached the processor. *)
Definition sent (acts : list action) : list resolvedStamp :=
  omap (λ a, match a with Offer s Sent => Some s | _ => None end) acts.

(** The queries that the reader ran against the meta-table. *)
Definition queries (acts : list action) : list hlc.Time :=
  omap (λ a, match a with Query after => Some after | _ => None end) acts.

(** ** package cdc: the retire loop *)

(** The stagers as the retire loop meets them: whether [stagers.Get]
    and [stager.Retire] fail for a table, and with what. *)
Record Stagers : Type := {
  getStager : Table → option error;
  retire : Table → hlc.Time → option error
}.

(** The bound after [RetireOffset] is taken off it, in [int64]. *)
Definition retain (c : Config) (next : hlc.Time) : hlc.Time :=
  if 0 <? RetireOffset c
  then hlc.New (wrap64 (hlc.Nanos next - RetireOffset c)) (hlc.Logical next)
  else next.

(** The callback handed to [targetTables.Range], run over the known
    tables in the order of [Range].  It assigns to the variable [next]
    of the enclosing loop, so the bound is threaded from table to
    table.  The result lists the calls of [Retire] that were made. *)
Fixpoint retireRange (c : Config) (sg : Stagers) (tables : list Table)
    (next : hlc.Time) : list (Table * hlc.Time) * hlc.Time * option error :=
  match tables with
  | [] => ([], next, None)
  | tbl :: rest =>
    match getStager sg tbl with
    | Some e =>
      if decide (e = ErrCanceled) then ([], next, Some e)
      else retireRange c sg rest next
    | None =>
      let next' := retain c next in
      let stop :=
        match retire sg tbl next' with
        | Some e => if decide (e = ErrCanceled) then Some e else None
        | None => None
        end in
      match stop with
      | Some e => ([(tbl, next')], next', Some e)
      | None =>
        let '(calls, last, r) := retireRange c sg rest next' in
        ((tbl, next') :: calls, last, r)
      end
    end
  end.

(** Which case the [select] of the retire loop takes; [NextUpdated]
    carries the value that [retirements.Get] then returns. *)
Inductive retireWake : Type :=
| NextUpdated (t : hlc.Time)
| RetireStopping
| RetireDone (e : error).

(** One iteration of the retire loop as its surroundings have it: the
    tables known to the watcher and the case that ends the wait. *)
Record retireTick : Type := {
  known : list Table;
  rwake : retireWake
}.

(** The goroutine of [resolver.retireLoop]: the calls of [Retire] of
    each iteration, and how the loop ended. *)
Fixpoint retireLoop (c : Config) (sg : Stagers) (script : list retireTick)
    (next : hlc.Time) : list (list (Table * hlc.Time)) * exit :=
  match script with
  | [] => ([], Running)
  | t :: rest =>
    let '(calls, _, _) := retireRange c sg (known t) next in
    match rwake t with
    | NextUpdated next' =>
      let '(more, ex) := retireLoop c sg rest next' in
      (calls :: more, ex)
    | RetireStopping => ([calls], Returned Ok)
    | RetireDone e => ([calls], Returned (Fail e))
    end
  end.

(** ** package cdc: the message loop *)

(** A message that [Process] receives from the channel:
    [logical.IsRollback] holds of it, or it is a proposed stamp, which
    comes here with the run of [SelectMany] that its processing
    meets.  The reader sends no other message; the type assertion of
    [Process] would panic on one. *)
Inductive message : Type :=
| RollbackMessage
| Proposal (rs : resolvedStamp) (feed : list feedItem) (feedErr : option error).

(** [resolver.Process]; the list holds the messages sent before the
    channel is closed. *)
Fixpoint Process (su : setup) (ch : list message) (w : world) : world * reply :=
  match ch with
  | [] => (w, Ok)
  | RollbackMessage :: rest => Process su rest w
  | Proposal rs feed feedErr :: rest =>
    match process su feed feedErr rs w with
    | (w', Fail e) => (w', Fail e)
    | (w', Ok) => Process su rest w'
    end
  end.

(** ** package cdc: the scan for schemas with work *)




End cdc.

(** ** package logical: serialEvents *)

Module logical.

Import types.

(** A database transaction, as [targetPool.Begin] hands it out. *)
Abbreviation Tx := nat.

Section serialEvents.

(** [stamp.Stamp] is an interface: the events keep and pass on the
    values they are given, of which [nilStamp] is the nil one. *)
Context {Stamp : Type} (nilStamp : Stamp).

(** The errors of [serialEvents]: the three it makes itself, and those
    of its collaborators, which it passes on. *)
Inductive failure : Type :=
| AlreadyBegun (at_ : Stamp)
| NoMatchingBegin
| NotRollback
| Collaborator (e : error).

(** The calls that leave [serialEvents], each with what it returned. *)
Inductive effect : Type :=
| Begin (got : option Tx) (err : option error)
| Commit (t : Tx) (err : option error)
| Rollback (t : Tx)
| GetApplier (target : Table) (err : option error)
| Apply (target : Table) (t : option Tx) (muts : list Mutation)
    (err : option error)
| SetConsistentPoint (s : Stamp) (err : option error).

(** The fields [stamp] and [tx] of [serialEvents]. *)
Record serialEvents : Type := {
  stamp : Stamp;
  tx : option Tx
}.

(** The zero value with which the loop starts. *)
Definition zero : serialEvents := {| stamp := nilStamp; tx := None |}.

(** [serialEvents.OnBegin]; [began] is what [targetPool.Begin]
    returns. *)
Definition OnBegin (point : Stamp) (began : option Tx * option error)
    (e : serialEvents) : serialEvents * list effect * option failure :=
  match tx e with
  | Some _ => (e, [], Some (AlreadyBegun (stamp e)))
  | None =>
    ({| stamp := point; tx := began.1 |},
     [Begin began.1 began.2],
     Collaborator <$> began.2)
  end.

(** [serialEvents.OnCommit]; [committed] is what [tx.Commit] returns
    and [set] what [loop.setConsistentPoint] returns. *)
Definition OnCommit (committed set : option error) (e : serialEvents)
  : serialEvents * list effect * option failure :=
  match tx e with
  | None => (e, [], Some NoMatchingBegin)
  | Some t =>
    let e' := {| stamp := stamp e; tx := None |} in
    match committed with
    | Some err => (e', [Commit t (Some err)], Some (Collaborator err))
    | None =>
      (e', [Commit t None; SetConsistentPoint (stamp e) set],
       Collaborator <$> set)
    end
  end.

(** [serialEvents.OnData]; [got] is what [appliers.Get] returns and
    [applied] what [app.Apply] returns. *)
Definition OnData (target : Table) (muts : list Mutation)
    (got applied : option error) (e : serialEvents)
  : serialEvents * list effect * option failure :=
  match got with
  | Some err => (e, [GetApplier target (Some err)], Some (Collaborator err))
  | None =>
    (e, [GetApplier target None; Apply target (tx e) muts applied],
     Collaborator <$> applied)
  end.

(** [serialEvents.drain] *)
Definition drain (e : serialEvents)
  : serialEvents * list effect * option failure :=
  ({| stamp := nilStamp; tx := None |},
   match tx e with Some t => [Rollback t] | None => [] end,
   None).

(** [serialEvents.OnRollback]; [isRollback] is what [IsRollback] says
    of the message. *)
Definition OnRollback (isRollback : bool) (e : serialEvents)
  : serialEvents * list effect * option failure :=
  if isRollback then drain e else (e, [], Some NotRollback).

End serialEvents.

End logical.

(** * Specification

    The predicates and functions in which the properties below are
    stated, and the concrete inputs of the examples. *)

Import types.
Import msort.
Import cdc.

(** ** UniqueByKey *)

(** What holds of the loop state when the indices from [n] upwards of
    the input [x0] have been processed. *)
Record Inv (x0 : list Mutation) (n : nat) (st : ustate) : Prop := {
  inv_len : length (xs st) = length x0;
  inv_dest : (n ≤ dest st ≤ length x0)%nat;
  inv_prefix : ∀ i, (i < n)%nat → xs st !! i = x0 !! i;
  inv_seen : ∀ k i, seenIdx st !! k = Some i →
    (dest st ≤ i < length x0)%nat ∧ ∃ m, xs st !! i = Some m ∧ Key m = k;
  inv_slot : ∀ i m, (dest st ≤ i)%nat → xs st !! i = Some m →
    seenIdx st !! Key m = Some i ∧ m ∈ drop n x0 ∧
    ∀ m', m' ∈ drop n x0 → Key m' = Key m →
          hlc.Compare (Time m') (Time m) ≤ 0;
  inv_cover : ∀ m, m ∈ drop n x0 → is_Some (seenIdx st !! Key m)
}.

(** The keys from [dest] upwards are the keys of the processed part of
    the input, each once, where it occurs last. *)
Definition KeysOrd (x0 : list Mutation) (n : nat) (st : ustate) : Prop :=
  Key <$> drop (dest st) (xs st) = remove_dups (Key <$> drop n x0).

(** Every kept mutation stands in the input at a position after which
    all mutations with its key are strictly older. *)
Definition LastWins (x0 : list Mutation) (n : nat) (st : ustate) : Prop :=
  ∀ i m, (dest st ≤ i)%nat → xs st !! i = Some m →
    ∃ j, (n ≤ j)%nat ∧ x0 !! j = Some m ∧
         ∀ j' m', (j < j')%nat → x0 !! j' = Some m' → Key m' = Key m →
                  hlc.lt (Time m') (Time m).

(** ** The calls of a flush *)

(** The tables that a flush hands to [OnData]: those of the order whose
    buffer is not empty, FK group after FK group. *)
Definition dueIn (source : string) (tA : gmap Table (list Mutation))
    (tables : list Table) : list call :=
  (λ t, CallOnData source t (GetZero tA t))
    <$> filter (λ t, GetZero tA t ≠ []) tables.

(** The calls of [OnData] that a flush of the buffers [tA] owes. *)
Definition due (su : setup) (tA : gmap Table (list Mutation)) : list call :=
  dueIn (SourceName (ext su) (target su)) tA (concat (targets su)).

(** [c] is a call of [OnData]. *)
Definition isOnData (c : call) : Prop :=
  match c with CallOnData _ _ _ => True | _ => False end.

(** Calls that all succeeded. *)
Definition oks (cs : list call) : list event := (λ c, (c, Ok)) <$> cs.

(** The stamp that is persisted after a run of events. *)
Definition lastPersisted (evs : list event) (init : resolvedStamp)
  : resolvedStamp :=
  foldl (λ cp ev, match ev with
                  | (CallSetConsistentPoint s, Ok) => s
                  | _ => cp
                  end) init evs.

(** The events with which a flush advances the stamp, once the commit
    has succeeded, and its result. *)
Inductive advanceEvents (su : setup) (cur : SelectManyCursor) (rs0 : resolvedStamp)
  : bool → list event → resolvedStamp → reply → Prop :=
| adv_progress rr :
    advanceEvents su cur rs0 false
      [(CallSetConsistentPoint (NewProgress (ext su) rs0 cur), rr)]
      (NewProgress (ext su) rs0 cur) rr
| adv_uncommitted e :
    NewCommitted (ext su) rs0 = inl e →
    advanceEvents su cur rs0 true [] rs0 (Fail e)
| adv_record_failed rs' e :
    NewCommitted (ext su) rs0 = inr rs' →
    advanceEvents su cur rs0 true
      [(CallRecord (CommittedTime rs'), Fail e)] rs' (Fail e)
| adv_committed rs' rr :
    NewCommitted (ext su) rs0 = inr rs' →
    advanceEvents su cur rs0 true
      [(CallRecord (CommittedTime rs'), Ok); (CallSetConsistentPoint rs', rr)]
      rs' rr.

(** The events of a flush between [OnBegin] and [OnRollback]. *)
Inductive batchEvents (su : setup) (cur : SelectManyCursor)
    (tA : gmap Table (list Mutation)) (rs0 : resolvedStamp)
  : bool → list event → resolvedStamp → reply → Prop :=
| be_data_failed final pre c post e :
    due su tA = pre ++ c :: post →
    batchEvents su cur tA rs0 final (oks pre ++ [(c, Fail e)]) rs0 (Fail e)
| be_commit_failed final e :
    batchEvents su cur tA rs0 final
      (oks (due su tA) ++ [(CallOnCommit, Fail e)]) rs0 (Fail e)
| be_committed final adv rs' r :
    advanceEvents su cur rs0 final adv rs' r →
    batchEvents su cur tA rs0 final
      (oks (due su tA) ++ (CallOnCommit, Ok) :: adv) rs' r.

(** The events of a flush. *)
Inductive flushEvents (su : setup) (cur : SelectManyCursor)
    (tA : gmap Table (list Mutation)) (rs0 : resolvedStamp)
  : bool → list event → resolvedStamp → reply → Prop :=
| fe_begin_failed final e :
    flushEvents su cur tA rs0 final [(CallOnBegin, Fail e)] rs0 (Fail e)
| fe_begun final body rs' r rb :
    batchEvents su cur tA rs0 final body rs' r →
    flushEvents su cur tA rs0 final
      ((CallOnBegin, Ok) :: body ++ [(CallOnRollback, rb)]) rs' r.

(** ** Errors and the persisted stamp *)

(** Every call but [OnRollback], whose result is dropped, succeeded. *)
Definition clean (evs : list event) : Prop :=
  Forall (λ ev, ev.1 = CallOnRollback ∨ ev.2 = Ok) evs.

(** No stamp was persisted. *)
Definition unpersisted (evs : list event) : Prop :=
  Forall (λ ev, ∀ s, ev ≠ (CallSetConsistentPoint s, Ok)) evs.

(** The events of a flush that did not succeed, with the result [r] of
    [process]: the flush persisted nothing, and a step of it that
    failed with [e] makes [e] the result; the flush began with
    [OnBegin], every step before the failing one succeeded and only
    [OnRollback] follows it. *)
Definition failedFlush (failing : list event) (r : reply) : Prop :=
  unpersisted failing ∧
  ∀ c e, c ≠ CallOnRollback → (c, Fail e) ∈ failing →
    r = Fail e ∧
    (∃ rb, head failing = Some (CallOnBegin, rb)) ∧
    ∃ pre post, failing = pre ++ (c, Fail e) :: post ∧ clean pre ∧
                Forall (λ ev, ev.1 = CallOnRollback) post.

(** The events [tr] of [process] split into flushes that succeeded and
    at most one that did not; [cp] is what the successful ones
    persisted last. *)
Definition propagates (tr : list event) (cp0 cp : resolvedStamp) (r : reply)
  : Prop :=
  ∃ before failing,
    tr = before ++ failing ∧ clean before ∧
    cp = lastPersisted before cp0 ∧
    failedFlush failing r ∧ (r = Ok → failing = []).

(** ** Interim flushes and epochs *)

(** The mutations that [SelectMany] delivers, in order. *)
Definition delivered (feed : list feedItem) : list Mutation :=
  omap (λ it, match it with Deliver _ mut => Some mut | Seek _ _ _ => None end)
       feed.

(** The time of the mutation delivered last, [hlc.Zero] before the
    first. *)
Definition lastTime (l : list Mutation) : hlc.Time :=
  match last l with Some m => Time m | None => hlc.Zero end.

(** The number of mutations in the buffers. *)
Definition bufferedCount (tA : gmap Table (list Mutation)) : nat :=
  map_fold (λ _ l n, (length l + n)%nat) 0%nat tA.

(** [m] is in one of the buffers. *)
Definition buffered (tA : gmap Table (list Mutation)) (m : Mutation) : Prop :=
  ∃ t, m ∈ GetZero tA t.

(** The callback for [mut] begins a flush before it buffers [mut]. *)
Definition flushes (su : setup) (tbl : Table) (mut : Mutation) (p : pstate)
  : Prop :=
  ∃ rb rest,
    hist (w (callback su tbl mut p).1) = hist (w p) ++ (CallOnBegin, rb) :: rest.

(** The mutations handed to [OnData], each with the number of the
    flush that handed it over: [n] counts the calls of [OnBegin]. *)
Fixpoint tagged (n : nat) (tr : list event) : list (nat * Mutation) :=
  match tr with
  | [] => []
  | (CallOnBegin, _) :: tr' => tagged (S n) tr'
  | (CallOnData _ _ muts, _) :: tr' => ((λ m, (n, m)) <$> muts) ++ tagged n tr'
  | _ :: tr' => tagged n tr'
  end.

(** The number of flushes begun. *)
Definition begins (tr : list event) : nat :=
  length (filter (λ ev, ev.1 = CallOnBegin) tr).

(** Delivery in HLC order, as [SelectMany] has it outside backfill. *)
Definition inOrder (l : list Mutation) : Prop :=
  StronglySorted (λ a b, hlc.le (Time a) (Time b)) l.

(** An event of a flush after its [OnBegin]: it begins no flush, and
    what it hands to [OnData] was buffered. *)
Definition inFlush (tA : gmap Table (list Mutation)) (ev : event) : Prop :=
  ev.1 ≠ CallOnBegin ∧
  ∀ src t muts m, ev.1 = CallOnData src t muts → m ∈ muts → buffered tA m.

(** A time that a buffered or a delivered mutation has. *)
Definition sourced (tA : gmap Table (list Mutation)) (feed : list feedItem)
    (t : hlc.Time) : Prop :=
  ∃ m0, Time m0 = t ∧ (buffered tA m0 ∨ m0 ∈ delivered feed).

(** What holds of the flushes of a run [tr] whose first flush has
    number [S n]: the numbers are those of the flushes begun, the
    times handed over were buffered or delivered, and a later flush
    handles later times only. *)
Definition epochs (n : nat) (tr : list event)
    (tA : gmap Table (list Mutation)) (feed : list feedItem) : Prop :=
  (∀ i m, (i, m) ∈ tagged n tr →
          (n < i ≤ n + begins tr)%nat ∧ sourced tA feed (Time m)) ∧
  (∀ i j m m', (i, m) ∈ tagged n tr → (j, m') ∈ tagged n tr → (i < j)%nat →
               hlc.lt (Time m) (Time m')).

(** What is left in the buffers is later than what was flushed. *)
Definition pending (n : nat) (tr : list event)
    (tA tA' : gmap Table (list Mutation)) (feed : list feedItem) : Prop :=
  (∀ i m b, (i, m) ∈ tagged n tr → buffered tA' b → hlc.lt (Time m) (Time b)) ∧
  (∀ b, buffered tA' b → sourced tA feed (Time b)).

(** ** The reader and the retire loop *)

(** The actions with which [readInto] starts: it resumes retirement
    when the stamp has a committed time. *)
Definition resumed (cp : resolvedStamp) : list action :=
  if decide (CommittedTime cp ≠ hlc.Zero)
  then [RetirementsSet (CommittedTime cp)] else [].

(** Stagers that are always acquired and never fail. *)
Definition healthy : Stagers :=
  {| getStager := λ _, None; retire := λ _ _, None |}.

(** A retention of five nanoseconds. *)
Definition keepFive : Config :=
  {| BackupPolling := 0; ApplyTimeout := 0; SelectBatchSize := 0;
     IdealFlushBatchSize := 0; FlushEveryTimestamp := false;
     RetireOffset := 5 |}.

(** The loop starts before any table is known, is woken by the update
    of [retirements] to 100 ns with the tables [a] and [b] known, and
    is then stopped. *)
Definition twoTables : list retireTick :=
  [ {| known := []; rwake := NextUpdated (hlc.New 100 0) |};
    {| known := ["a"; "b"]; rwake := RetireStopping |} ].

(** The bound that the [k]-th acquired table gets: the offset taken off
    [k] times. *)
Fixpoint retained (c : Config) (k : nat) (next : hlc.Time) : hlc.Time :=
  match k with
  | O => next
  | S k' => retained c k' (retain c next)
  end.

(** ** Concrete inputs *)

(** Collaborators that never fail. *)
Definition allOk : Env :=
  {| respond := λ _ _, Ok; now := λ h, Z.of_nat (length h) |}.

Definition mutAt (k : string) (n : Z) : Mutation :=
  {| Data := "{}"; Key := k; Time := hlc.New n 0; Meta := ∅ |}.

(** A parent and a child table, and a flush threshold of one. *)
Definition demoSetup : setup :=
  {| env := allOk;
     cfg := {| BackupPolling := 0; ApplyTimeout := 0; SelectBatchSize := 100;
               IdealFlushBatchSize := 1; FlushEveryTimestamp := false;
               RetireOffset := 0 |};
     ext := specExternals;
     target := "s";
     targets := [["p"]; ["c"]] |}.

(** A proposal to go from zero to 20 ns. *)
Definition demoStamp : resolvedStamp :=
  {| Backfill := false; CommittedTime := hlc.Zero; OffsetKey := "";
     OffsetTable := ""; OffsetTime := hlc.Zero;
     ProposedTime := hlc.New 20 0 |}.

Definition demoWorld : world :=
  {| hist := [];
     consistentPoint :=
       {| Backfill := false; CommittedTime := hlc.Zero; OffsetKey := "";
          OffsetTable := ""; OffsetTime := hlc.Zero;
          ProposedTime := hlc.Zero |};
     resolved := [] |}.

(** Two mutations at 10 ns and one at 20 ns. *)
Definition demoFeed : list feedItem :=
  [ Deliver "c" (mutAt "[1]" 10); Deliver "p" (mutAt "[2]" 10);
    Seek "[2]" "p" (hlc.New 10 0); Deliver "p" (mutAt "[3]" 20) ].

Definition demoTick : tick :=
  {| table := []; fault := None; send := Sent; wakeup := Stopping |}.

(** A failing [OnCommit] in the first flush of the example: the error
    is the result, the flush is rolled back, and nothing is persisted
    or recorded. *)
Definition commitFails : Env :=
  {| respond := λ _ c, match c with
                       | CallOnCommit => Fail (ErrOther "commit")
                       | _ => Ok
                       end;
     now := λ h, Z.of_nat (length h) |}.

(** ** The meta-table under Mark and Record *)

(** The primary keys of the rows. *)
Definition keys (tbl : list row) : list (Schema * hlc.Time) :=
  (λ r, (target_schema r, rowTime r)) <$> tbl.

(** A statement against the meta-table: [Mark] or [Record], each with
    the failure of the driver, if any. *)
Inductive storeOp : Type :=
| OpMark (fault : option string) (s : Schema) (ts : hlc.Time)
| OpRecord (fault : option string) (s : Schema) (ts : hlc.Time) (now : Z).

Definition applyOp (tbl : list row) (op : storeOp) : list row :=
  match op with
  | OpMark f s ts =>
    metaTable (Mark f {| metaTable := tbl; marked := None |} s ts).1
  | OpRecord f s ts now => (Record_ f tbl s ts now).1
  end.

(** The meta-table after a sequence of statements on an empty table. *)
Definition runOps (ops : list storeOp) : list row := foldl applyOp [] ops.

(** ** What is handed to OnData *)

(** The mutations handed to [OnData] for table [t], in the order of
    the calls. *)
Definition handed (t : Table) (tr : list event) : list Mutation :=
  tr ≫= (λ ev, match ev.1 with
               | CallOnData _ t' muts => if decide (t' = t) then muts else []
               | _ => []
               end).

(** The mutations that [SelectMany] delivers for table [t], in order. *)
Definition deliveredTo (t : Table) (feed : list feedItem) : list Mutation :=
  omap (λ it, match it with
              | Deliver t' mut => if decide (t' = t) then Some mut else None
              | Seek _ _ _ => None
              end) feed.

(** What a flush of the buffers [tA] hands over for table [t]: its
    buffer, if the table is in the order. *)
Definition flushable (su : setup) (tA : gmap Table (list Mutation)) (t : Table)
  : list Mutation :=
  if decide (t ∈ concat (targets su)) then GetZero tA t else [].

(** What [process] owes [OnData] for table [t]: the delivered
    mutations with their annotations, if the table is in the order. *)
Definition owed (su : setup) (t : Table) (feed : list feedItem) : list Mutation :=
  if decide (t ∈ concat (targets su))
  then AddMeta (ext su) "cdc" t <$> deliveredTo t feed
  else [].

(** ** The reader's hold on a consistent point *)

(** Whether a sequence of actions of the reader respects its hold on a
    point to resume from: [armed] says that it holds one.  A query
    needs it, an offer needs it and gives it up, and setting the
    retirements is what the reader does when it takes a new one. *)
Fixpoint gated (armed : bool) (acts : list action) : Prop :=
  match acts with
  | [] => True
  | RetirementsSet _ :: rest => gated true rest
  | Query _ :: rest => armed = true ∧ gated armed rest
  | Offer _ _ :: rest => armed = true ∧ gated false rest
  end.

(** The actions for which the reader needs a point to resume from. *)
Definition needsPoint (a : action) : Prop :=
  match a with
  | RetirementsSet _ => False
  | Query _ | Offer _ _ => True
  end.

(** The stamps that the reader sees in a committed state: the one it
    starts from, and those that an update of the consistent point
    brings. *)
Definition seenCommitted (cp : resolvedStamp) (script : list tick)
    (rf : resolvedStamp) : Prop :=
  ProposedTime rf = hlc.Zero ∧
  (rf = cp ∨ ∃ t, t ∈ script ∧ wakeup t = CpUpdated rf).

(** A meta-table in which 10 ns and 20 ns wait to be applied. *)
Definition twoResolved : list row :=
  [ mkRow "s" (hlc.New 10 0) None; mkRow "s" (hlc.New 20 0) None ].

(** The reader proposes 10 ns, sees it committed, and proposes 20 ns. *)
Definition twoProposals : list tick :=
  [ {| table := twoResolved; fault := None; send := Sent;
       wakeup := CpUpdated {| Backfill := false;
                              CommittedTime := hlc.New 10 0;
                              OffsetKey := ""; OffsetTable := "";
                              OffsetTime := hlc.Zero;
                              ProposedTime := hlc.Zero |} |};
    {| table := [ mkRow "s" (hlc.New 10 0) (Some 1);
                  mkRow "s" (hlc.New 20 0) None ];
       fault := None; send := Sent; wakeup := Stopping |} ].

(** The stamps that the reader offers, sent or not. *)
Definition offers (acts : list action) : list resolvedStamp :=
  omap (λ a, match a with Offer s _ => Some s | _ => None end) acts.

(** Stagers of which the one of table [b] cannot be acquired and the
    one of table [a] fails to retire, neither by a cancellation. *)
Definition flaky : Stagers :=
  {| getStager := λ t, if decide (t = "b") then Some (ErrOther "no stager")
                       else None;
     retire := λ t _, if decide (t = "a") then Some (ErrSQL "retire")
                      else None |}.

(** The example with a flush at every change of the timestamp. *)
Definition everySetup : setup :=
  {| env := allOk;
     cfg := {| BackupPolling := 0; ApplyTimeout := 0; SelectBatchSize := 100;
               IdealFlushBatchSize := 100; FlushEveryTimestamp := true;
               RetireOffset := 0 |};
     ext := specExternals;
     target := "s";
     targets := [["p"]; ["c"]] |}.

(** ** The size of a flush *)

(** The number of mutations handed to [OnData] in a run of events. *)
Definition volume (tr : list event) : nat := length (tagged 0 tr).

(** The number of mutations that the flush with number [i] handed to
    [OnData]. *)
Definition batchSize (i : nat) (tr : list event) : nat :=
  length (filter (λ im : nat * Mutation, im.1 = i) (tagged 0 tr)).

(** The example in backfill mode. *)
Definition backfillStamp : resolvedStamp :=
  {| Backfill := true; CommittedTime := hlc.Zero; OffsetKey := "";
     OffsetTable := ""; OffsetTime := hlc.Zero;
     ProposedTime := hlc.New 20 0 |}.

(** ** serialEvents under any sequence of calls *)

Module serial.

Import logical.

Section calls.

Context {Stamp : Type} (nilStamp : Stamp).

(** A call of one of the methods of [serialEvents], with what its
    collaborators return if they are asked. *)
Inductive op : Type :=
| DoBegin (point : Stamp) (began : option Tx * option error)
| DoCommit (committed set : option error)
| DoData (target : Table) (muts : list Mutation) (got applied : option error)
| DoRollback (isRollback : bool).

Definition step (o : op) (e : serialEvents (Stamp := Stamp))
  : serialEvents * list effect * option failure :=
  match o with
  | DoBegin point began => OnBegin point began e
  | DoCommit committed set => OnCommit committed set e
  | DoData target muts got applied => OnData target muts got applied e
  | DoRollback isRollback => OnRollback nilStamp isRollback e
  end.

(** The calls made one after the other, whatever they return: the
    final fields, and for each call what it did and returned. *)
Fixpoint run (ops : list op) (e : serialEvents (Stamp := Stamp))
  : serialEvents * list (op * list effect * option failure) :=
  match ops with
  | [] => (e, [])
  | o :: ops' =>
    let '(e', effs, res) := step o e in
    let '(e'', log) := run ops' e' in
    (e'', (o, effs, res) :: log)
  end.

(** All that was asked of the collaborators, in order. *)
Definition effects (log : list (op * list (effect (Stamp := Stamp))
                                * option (failure (Stamp := Stamp))))
  : list effect :=
  log ≫= (λ x, x.1.2).

(** Follows the transactions through the calls to the collaborators:
    [open] is the transaction begun and not yet finished.  The result
    is the open transaction at the end, or [None] if a transaction was
    begun while one was open, one was committed or rolled back that
    was not open, or data was applied to another than the open one. *)
Fixpoint track (open : option Tx) (tr : list (effect (Stamp := Stamp)))
  : option (option Tx) :=
  match tr with
  | [] => Some open
  | Begin got _ :: tr' =>
    match open with None => track got tr' | Some _ => None end
  | Commit t _ :: tr' =>
    if decide (open = Some t) then track None tr' else None
  | Rollback t :: tr' =>
    if decide (open = Some t) then track None tr' else None
  | Apply _ t _ _ :: tr' =>
    if decide (t = open) then track open tr' else None
  | GetApplier _ _ :: tr' => track open tr'
  | SetConsistentPoint _ _ :: tr' => track open tr'
  end.

(** The calls to the collaborators set the consistent point only right
    after a successful commit, and to [cur]. *)
Definition setsOnly (cur : option Stamp) (effs : list (effect (Stamp := Stamp)))
  : Prop :=
  ∀ pre s err post,
    effs = pre ++ SetConsistentPoint s err :: post →
    cur = Some s ∧ ∃ t, pre = [Commit t None].

(** Follows the stamps through the calls: [cur] is the point of the
    latest [OnBegin] that was not refused, if there was one since the
    start and since the last rollback. *)
Fixpoint pointed (cur : option Stamp)
    (log : list (op * list (effect (Stamp := Stamp))
                 * option (failure (Stamp := Stamp)))) : Prop :=
  match log with
  | [] => True
  | (o, effs, res) :: log' =>
    setsOnly cur effs ∧
    pointed (match o, res with
             | DoBegin _ _, Some (AlreadyBegun _) => cur
             | DoBegin point _, _ => Some point
             | DoRollback true, _ => None
             | _, _ => cur
             end) log'
  end.

End calls.

End serial.

(** The timestamp [ts] is recorded as applied for the schema [s]. *)
Definition appliedIn (tbl : list row) (s : Schema) (ts : hlc.Time) : Prop :=
  ∃ r, r ∈ tbl ∧ target_schema r = s ∧ rowTime r = ts ∧
       target_applied_at r ≠ None.

(** ** The message loop *)

(** The stamps proposed by the messages, in order. *)
Definition proposals (ch : list message) : list resolvedStamp :=
  omap (λ m, match m with
             | Proposal rs _ _ => Some rs
             | RollbackMessage => None
             end) ch.

(** Two proposals in a row for the example: up to 20 ns, with the
    mutations of the example, and from there up to 30 ns, with none;
    a rollback message lies between them. *)
Definition demoChannel : list message :=
  [ Proposal demoStamp demoFeed None;
    RollbackMessage;
    Proposal {| Backfill := false; CommittedTime := hlc.New 20 0;
                OffsetKey := ""; OffsetTable := ""; OffsetTime := hlc.Zero;
                ProposedTime := hlc.New 30 0 |} [] None ].

(** * Properties *)

(** ** The order on HLC times *)

Ltac cases_ltb :=
  repeat match goal with
         | |- context [?a <? ?b] => destruct (Z.ltb_spec a b)
         end.

Lemma ltb_lt (a b : hlc.Time) : hlc.ltb a b = true ↔ hlc.lt a b.
Proof. unfold hlc.ltb, hlc.lt. destruct a, b; simpl. lia. Qed.

Lemma leb_le (a b : hlc.Time) : hlc.leb a b = true ↔ hlc.le a b.
Proof.
  unfold hlc.leb, hlc.le. rewrite orb_true_iff, ltb_lt, bool_decide_eq_true.
  done.
Qed.

Lemma Compare_pos (a b : hlc.Time) : 0 < hlc.Compare a b ↔ hlc.lt b a.
Proof. unfold hlc.Compare, hlc.lt. destruct a, b; simpl. cases_ltb; lia. Qed.

Lemma Compare_nonpos (a b : hlc.Time) : hlc.Compare a b ≤ 0 ↔ hlc.le a b.
Proof.
  unfold hlc.Compare, hlc.le, hlc.lt. destruct a as [an al], b as [bn bl]; simpl.
  split.
  - intros H. destruct (decide (an = bn)) as [->|].
    + destruct (decide (al = bl)) as [->|]; [by right|].
      left. revert H. cases_ltb; lia.
    + left. revert H. cases_ltb; lia.
  - intros [H|H]; [cases_ltb; lia|]. injection H as -> ->. cases_ltb; lia.
Qed.

Lemma Compare_refl (a : hlc.Time) : hlc.Compare a a = 0.
Proof. unfold hlc.Compare. cases_ltb; lia. Qed.

Lemma lt_trans (a b c : hlc.Time) : hlc.lt a b → hlc.lt b c → hlc.lt a c.
Proof. unfold hlc.lt. lia. Qed.

Lemma lt_irrefl (a : hlc.Time) : ¬ hlc.lt a a.
Proof. unfold hlc.lt. lia. Qed.

Lemma le_lt_trans (a b c : hlc.Time) : hlc.le a b → hlc.lt b c → hlc.lt a c.
Proof. intros [H| ->] ?; [by eapply lt_trans|done]. Qed.

Lemma lt_le_trans (a b c : hlc.Time) : hlc.lt a b → hlc.le b c → hlc.lt a c.
Proof. intros ? [H| <-]; [by eapply lt_trans|done]. Qed.

Lemma le_trans (a b c : hlc.Time) : hlc.le a b → hlc.le b c → hlc.le a c.
Proof. intros [H| ->] ?; [left; by eapply lt_le_trans|done]. Qed.

Lemma lt_total (a b : hlc.Time) : hlc.lt a b ∨ hlc.le b a.
Proof.
  unfold hlc.le, hlc.lt. destruct a as [an al], b as [bn bl]; simpl.
  destruct (decide (an = bn)) as [->|]; [|lia].
  destruct (decide (al = bl)) as [->|]; [right; by right|lia].
Qed.

Lemma not_lt_le (a b : hlc.Time) : ¬ hlc.lt a b ↔ hlc.le b a.
Proof.
  split.
  - intros H. by destruct (lt_total a b).
  - intros H1 H2. eapply lt_irrefl, le_lt_trans; eauto.
Qed.

(** ** Mutation.IsDelete *)

Lemma length_zero_empty (s : string) : String.length s = 0%nat ↔ s = "".
Proof. destruct s; simpl; split; congruence. Qed.

(** C10: a mutation is a deletion exactly when its data is empty or is
    the literal [null]. *)
Theorem IsDelete_iff (m : Mutation) :
  IsDelete m = true ↔ Data m = "" ∨ Data m = "null".
Proof.
  unfold IsDelete, nullBytes.
  rewrite orb_true_iff, Nat.eqb_eq, length_zero_empty, String.eqb_eq.
  done.
Qed.

(** ** msort.UniqueByKey *)

Module UniqueByKeyProof.

Import msort.

Lemma Inv_init (x0 : list Mutation) :
  Inv x0 (length x0) {| xs := x0; seenIdx := ∅; dest := length x0 |}.
Proof.
  split; simpl; try done.
  - intros i m Hi Hm. apply lookup_lt_Some in Hm. lia.
  - intros m. rewrite drop_all. by intros ?%elem_of_nil.
Qed.

Lemma drop_lookup_cons (x0 : list Mutation) (n : nat) (m : Mutation) :
  x0 !! n = Some m → drop n x0 = m :: drop (S n) x0.
Proof. intros H. by rewrite (drop_S _ _ _ H). Qed.

Lemma Compare_le_lt (a b c : hlc.Time) :
  hlc.Compare a b ≤ 0 → 0 < hlc.Compare c b → hlc.Compare a c ≤ 0.
Proof.
  rewrite !Compare_nonpos, Compare_pos. intros H1 H2. left.
  by eapply le_lt_trans.
Qed.

(** An in-place replacement of the value kept for a key. *)
Lemma Inv_replace x0 n st m cur c :
  Inv x0 (S n) st → x0 !! n = Some m →
  seenIdx st !! Key m = Some cur → xs st !! cur = Some c →
  0 < hlc.Compare (Time m) (Time c) →
  Inv x0 n {| xs := <[cur := m]> (xs st); seenIdx := seenIdx st; dest := dest st |}.
Proof.
  intros [Hlen Hdest Hpre Hseen Hslot Hcov] Hm Hcur Hc Hgt.
  destruct (Hseen _ _ Hcur) as [Hrange (c' & Hc' & Hkc)].
  assert (c' = c) as -> by congruence.
  split; simpl; rewrite ?(drop_lookup_cons _ _ _ Hm).
  - by rewrite length_insert.
  - lia.
  - intros i Hi. rewrite list_lookup_insert_ne by lia. apply Hpre. lia.
  - intros k i Hk. destruct (Hseen _ _ Hk) as [Hr (mi & Hmi & Hkey)].
    split; [done|]. destruct (decide (i = cur)) as [->|Hne].
    + exists m. rewrite list_lookup_insert_eq by lia. split; [done|]. congruence.
    + exists mi. by rewrite list_lookup_insert_ne.
  - intros i mi Hi Hmi. destruct (decide (i = cur)) as [->|Hne].
    + rewrite list_lookup_insert_eq in Hmi by lia. injection Hmi as <-.
      split; [done|]. split; [apply elem_of_cons; by left|].
      intros m' [->|Hin]%elem_of_cons Hk; [by rewrite Compare_refl|].
      destruct (Hslot _ _ (proj1 Hrange) Hc) as (_ & _ & Hmax).
      eapply Compare_le_lt; [|exact Hgt]. apply Hmax; [done|congruence].
    + rewrite list_lookup_insert_ne in Hmi by done.
      destruct (Hslot _ _ Hi Hmi) as (Hs & Hin & Hmax).
      split; [done|]. split; [apply elem_of_cons; by right|].
      intros m' [->|Hin']%elem_of_cons Hk; [|by apply Hmax].
      rewrite Hk in Hcur. congruence.
  - intros m' [->|Hin]%elem_of_cons; [by eexists|by apply Hcov].
Qed.

(** The value kept for the key is not older than the one at [n]. *)
Lemma Inv_keep x0 n st m cur c :
  Inv x0 (S n) st → x0 !! n = Some m →
  seenIdx st !! Key m = Some cur → xs st !! cur = Some c →
  hlc.Compare (Time m) (Time c) ≤ 0 →
  Inv x0 n st.
Proof.
  intros [Hlen Hdest Hpre Hseen Hslot Hcov] Hm Hcur Hc Hle.
  split; rewrite ?(drop_lookup_cons _ _ _ Hm).
  - done.
  - lia.
  - intros i Hi. apply Hpre. lia.
  - done.
  - intros i mi Hi Hmi. destruct (Hslot _ _ Hi Hmi) as (Hs & Hin & Hmax).
    split; [done|]. split; [apply elem_of_cons; by right|].
    intros m' [->|Hin']%elem_of_cons Hk; [|by apply Hmax].
    rewrite Hk in Hcur. assert (i = cur) as -> by congruence.
    assert (mi = c) as -> by congruence. done.
  - intros m' [->|Hin]%elem_of_cons; [by eexists|by apply Hcov].
Qed.

(** A key seen for the first time takes the slot below [dest]. *)
Lemma Inv_fresh x0 n st m d :
  Inv x0 (S n) st → x0 !! n = Some m →
  seenIdx st !! Key m = None → dest st = S d →
  Inv x0 n {| xs := <[d := m]> (xs st);
              seenIdx := <[Key m := d]> (seenIdx st); dest := d |}.
Proof.
  intros [Hlen Hdest Hpre Hseen Hslot Hcov] Hm Hnone Hd.
  split; simpl; rewrite ?(drop_lookup_cons _ _ _ Hm).
  - by rewrite length_insert.
  - lia.
  - intros i Hi. rewrite list_lookup_insert_ne by lia. apply Hpre. lia.
  - intros k i Hk. destruct (decide (k = Key m)) as [->|Hne].
    + rewrite lookup_insert_eq in Hk. injection Hk as <-.
      split; [lia|]. exists m. by rewrite list_lookup_insert_eq by lia.
    + rewrite lookup_insert_ne in Hk by done.
      destruct (Hseen _ _ Hk) as [Hr (mi & Hmi & Hkey)].
      split; [lia|]. exists mi. by rewrite list_lookup_insert_ne by lia.
  - intros i mi Hi Hmi. destruct (decide (i = d)) as [->|Hne].
    + rewrite list_lookup_insert_eq in Hmi by lia. injection Hmi as <-.
      split; [by rewrite lookup_insert_eq|].
      split; [apply elem_of_cons; by left|].
      intros m' [->|Hin]%elem_of_cons Hk; [by rewrite Compare_refl|].
      apply Hcov in Hin. rewrite Hk, Hnone in Hin. by destruct Hin.
    + rewrite list_lookup_insert_ne in Hmi by done.
      assert (dest st ≤ i)%nat as Hi' by lia.
      destruct (Hslot _ _ Hi' Hmi) as (Hs & Hin & Hmax).
      assert (Key mi ≠ Key m) as Hk' by (intros E; rewrite E in Hs; congruence).
      split; [by rewrite lookup_insert_ne|].
      split; [apply elem_of_cons; by right|].
      intros m' [->|Hin']%elem_of_cons Hk; [done|by apply Hmax].
  - intros m' [->|Hin]%elem_of_cons.
    + rewrite lookup_insert_eq. by eexists.
    + destruct (decide (Key m' = Key m)) as [->|Hne].
      * rewrite lookup_insert_eq. by eexists.
      * rewrite lookup_insert_ne by done. by apply Hcov.
Qed.

(** One iteration keeps the invariant and does not panic on a key that
    is not empty. *)
Lemma step_Inv x0 n st m :
  Inv x0 (S n) st → x0 !! n = Some m → Key m ≠ "" →
  ∃ st', step n st = Ret st' ∧ Inv x0 n st'.
Proof.
  intros HI Hm Hkey. pose proof HI as [Hlen Hdest Hpre Hseen Hslot Hcov].
  unfold step. rewrite Hpre by lia. rewrite Hm.
  destruct (String.length (Key m) =? 0)%nat eqn:Hz.
  { apply Nat.eqb_eq, length_zero_empty in Hz. done. }
  destruct (seenIdx st !! Key m) as [cur|] eqn:Hcur.
  - destruct (Hseen _ _ Hcur) as [Hrange (c & Hc & Hkc)]. rewrite Hc.
    destruct (0 <? hlc.Compare (Time m) (Time c)) eqn:Hcmp.
    + apply Z.ltb_lt in Hcmp. eexists. split; [done|]. by eapply Inv_replace.
    + apply Z.ltb_ge in Hcmp. eexists. split; [done|]. by eapply Inv_keep.
  - destruct (dest st) as [|d] eqn:Hd; [lia|].
    destruct (decide (d < length (xs st))%nat); [|lia].
    eexists. split; [done|]. by eapply Inv_fresh.
Qed.

(** The loop ends in a state that covers the whole input, unless it
    meets an empty key, on which it panics. *)
Lemma loop_Inv x0 n st :
  (n ≤ length x0)%nat → Inv x0 n st →
  match loop n st with
  | Ret st' => Forall (λ m, Key m ≠ "") (take n x0) ∧ Inv x0 0 st'
  | Panic msg => msg = emptyKey ∧ Exists (λ m, Key m = "") (take n x0)
  end.
Proof.
  revert st. induction n as [|n IH]; intros st Hn HI; simpl.
  - split; [|done]. rewrite take_0. constructor.
  - destruct (lookup_lt_is_Some_2 x0 n) as [m Hm]; [lia|].
    rewrite (take_S_r _ _ _ Hm).
    destruct (decide (Key m = "")) as [He|Hne].
    + unfold step. rewrite (inv_prefix _ _ _ HI) by lia. rewrite Hm, He. simpl.
      split; [done|]. apply Exists_app. right. by constructor.
    + destruct (step_Inv _ _ _ _ HI Hm Hne) as (st' & -> & HI').
      specialize (IH st' ltac:(lia) HI').
      destruct (loop n st') as [st''|msg].
      * destruct IH as [HF HI'']. split; [|done].
        apply Forall_app. split; [done|]. by constructor.
      * destruct IH as [-> HE]. split; [done|]. apply Exists_app. by left.
Qed.

End UniqueByKeyProof.

(** C9: when no key is empty, [UniqueByKey] returns a slice in which
    every key of the input occurs exactly once, and the mutation kept
    for a key is one of the input whose time no other input mutation
    with that key exceeds; when some key is empty, it panics. *)
Theorem UniqueByKey_last_one_wins (x : list Mutation) :
  match msort.UniqueByKey x with
  | Ret r =>
    Forall (λ m, Key m ≠ "") x ∧
    NoDup (Key <$> r) ∧
    (∀ k, k ∈ Key <$> r ↔ k ∈ Key <$> x) ∧
    ∀ m, m ∈ r →
      m ∈ x ∧
      ∀ m', m' ∈ x → Key m' = Key m → hlc.Compare (Time m') (Time m) ≤ 0
  | Panic msg => msg = msort.emptyKey ∧ Exists (λ m, Key m = "") x
  end.
Proof.
  unfold msort.UniqueByKey.
  pose proof (UniqueByKeyProof.loop_Inv x (length x) _ (le_n _)
                (UniqueByKeyProof.Inv_init x)) as H.
  destruct (msort.loop _ _) as [st|msg]; [|by rewrite firstn_all in H].
  rewrite firstn_all in H. destruct H as [HF [Hlen Hdest Hpre Hseen Hslot Hcov]].
  rewrite drop_0 in Hslot, Hcov.
  split; [done|]. split; [|split].
  - apply NoDup_alt. intros i j k Hi Hj.
    rewrite list_lookup_fmap, lookup_drop in Hi, Hj.
    destruct (msort.xs st !! (msort.dest st + i)%nat) as [mi|] eqn:Hmi; [|done].
    destruct (msort.xs st !! (msort.dest st + j)%nat) as [mj|] eqn:Hmj; [|done].
    simpl in Hi, Hj. injection Hi as Hi. injection Hj as Hj.
    destruct (Hslot (msort.dest st + i)%nat mi ltac:(lia) Hmi) as (Hsi & _).
    destruct (Hslot (msort.dest st + j)%nat mj ltac:(lia) Hmj) as (Hsj & _).
    rewrite Hi in Hsi. rewrite Hj in Hsj. rewrite Hsi in Hsj.
    injection Hsj. lia.
  - intros k. rewrite !list_elem_of_fmap. split.
    + intros (m & -> & Hm). exists m. split; [done|].
      apply list_elem_of_lookup in Hm as [i Hi]. rewrite lookup_drop in Hi.
      by destruct (Hslot (msort.dest st + i)%nat m ltac:(lia) Hi) as (_ & ? & _).
    + intros (m & -> & Hm). destruct (Hcov _ Hm) as [i Hi].
      destruct (Hseen _ _ Hi) as [Hr (m2 & Hm2 & Hk)].
      exists m2. split; [done|]. apply list_elem_of_lookup.
      exists (i - msort.dest st)%nat. rewrite lookup_drop.
      by replace (msort.dest st + (i - msort.dest st))%nat with i by lia.
  - intros m Hm. apply list_elem_of_lookup in Hm as [i Hi].
    rewrite lookup_drop in Hi.
    destruct (Hslot (msort.dest st + i)%nat m ltac:(lia) Hi) as (_ & Hin & Hmax).
    by split.
Qed.

(** ** The resolved-timestamp store *)

Lemma greatest_None (l : list hlc.Time) : greatest l = None ↔ l = [].
Proof.
  destruct l as [|t l]; simpl; [done|].
  destruct (greatest l); [destruct (hlc.ltb _ _)|]; done.
Qed.

Lemma greatest_Some (l : list hlc.Time) (g : hlc.Time) :
  greatest l = Some g → g ∈ l ∧ ∀ t, t ∈ l → hlc.le t g.
Proof.
  revert g. induction l as [|t l IH]; intros g; simpl; [done|].
  destruct (greatest l) as [g'|] eqn:Hg.
  - destruct (IH _ eq_refl) as [Hin Hmax].
    destruct (hlc.ltb g' t) eqn:Hlt; intros [= <-].
    + apply ltb_lt in Hlt. split; [apply elem_of_cons; by left|].
      intros t' [->|Ht']%elem_of_cons; [by right|].
      left. eapply le_lt_trans; eauto.
    + split; [apply elem_of_cons; by right|].
      intros t' [->|Ht']%elem_of_cons; [|by apply Hmax].
      apply not_lt_le. by rewrite <- ltb_lt, Hlt.
  - apply greatest_None in Hg as ->. intros [= <-].
    split; [apply elem_of_cons; by left|].
    intros t' [->|Ht']%elem_of_cons; [by right|]. by apply elem_of_nil in Ht'.
Qed.

Lemma least_None (l : list hlc.Time) : least l = None ↔ l = [].
Proof.
  destruct l as [|t l]; simpl; [done|].
  destruct (least l); [destruct (hlc.ltb _ _)|]; done.
Qed.

Lemma least_Some (l : list hlc.Time) (g : hlc.Time) :
  least l = Some g → g ∈ l ∧ ∀ t, t ∈ l → hlc.le g t.
Proof.
  revert g. induction l as [|t l IH]; intros g; simpl; [done|].
  destruct (least l) as [g'|] eqn:Hg.
  - destruct (IH _ eq_refl) as [Hin Hmin].
    destruct (hlc.ltb t g') eqn:Hlt; intros [= <-].
    + apply ltb_lt in Hlt. split; [apply elem_of_cons; by left|].
      intros t' [->|Ht']%elem_of_cons; [by right|].
      left. eapply lt_le_trans; eauto.
    + split; [apply elem_of_cons; by right|].
      intros t' [->|Ht']%elem_of_cons; [|by apply Hmin].
      apply not_lt_le. by rewrite <- ltb_lt, Hlt.
  - apply least_None in Hg as ->. intros [= <-].
    split; [apply elem_of_cons; by left|].
    intros t' [->|Ht']%elem_of_cons; [by right|]. by apply elem_of_nil in Ht'.
Qed.

Lemma checkpoints_app (tbl tbl' : list row) (s : Schema) :
  checkpoints (tbl ++ tbl') s = checkpoints tbl s ++ checkpoints tbl' s.
Proof. unfold checkpoints. by rewrite filter_app, fmap_app. Qed.

Lemma checkpoints_mkRow (s s' : Schema) (ts : hlc.Time) (a : option Z) :
  checkpoints [mkRow s ts a] s' = if decide (s = s') then [ts] else [].
Proof.
  unfold checkpoints. rewrite filter_cons, filter_nil. simpl.
  destruct ts. by repeat case_decide.
Qed.

Lemma elem_of_checkpoints (tbl : list row) (s : Schema) (t : hlc.Time) :
  t ∈ checkpoints tbl s ↔ ∃ r, r ∈ tbl ∧ target_schema r = s ∧ rowTime r = t.
Proof.
  unfold checkpoints. rewrite list_elem_of_fmap. split.
  - intros (r & -> & [? ?]%list_elem_of_filter). eauto.
  - intros (r & ? & ? & <-). exists r. split; [done|].
    by apply list_elem_of_filter.
Qed.

(** The condition of [to_insert] holds exactly for a time later than
    every checkpoint of the schema. *)
Lemma to_insert_newer (tbl : list row) (s : Schema) (ts : hlc.Time) :
  (newer tbl s ts → to_insert tbl s ts = [mkRow s ts None]) ∧
  (¬ newer tbl s ts → to_insert tbl s ts = []).
Proof.
  unfold to_insert, not_before, newer.
  destruct (greatest (checkpoints tbl s)) as [g|] eqn:Hg; simpl.
  - destruct (greatest_Some _ _ Hg) as [Hin Hmax].
    destruct (hlc.ltb g ts) eqn:Hlt.
    + split; [done|]. intros []. apply Forall_forall. intros t Ht.
      apply ltb_lt in Hlt. eapply le_lt_trans; eauto.
    + split; [|done]. intros HF. rewrite Forall_forall in HF.
      apply HF, ltb_lt in Hin. congruence.
  - apply greatest_None in Hg as ->. split; [done|]. intros []. constructor.
Qed.

(** A time later than every checkpoint of the schema is not a key of
    the table. *)
Lemma newer_fresh (tbl : list row) (s : Schema) (ts : hlc.Time) :
  newer tbl s ts → existsb (samePK s ts) tbl = false.
Proof.
  unfold newer. rewrite Forall_forall. intros HF.
  apply not_true_is_false. intros (r & Hr & Hpk)%existsb_exists.
  apply andb_true_iff in Hpk as [Hs Ht].
  apply bool_decide_eq_true in Hs, Ht.
  apply (lt_irrefl ts), HF, elem_of_checkpoints.
  exists r. by rewrite <- list_elem_of_In in Hr.
Qed.

Lemma Mark_newer (st : store) (target : Schema) (ts : hlc.Time) :
  newer (metaTable st) target ts →
  Mark None st target ts =
    ({| metaTable := metaTable st ++ [mkRow target ts None];
        marked := Some ts |}, None).
Proof.
  intros H. unfold Mark, markExec.
  rewrite (proj1 (to_insert_newer _ _ _) H). simpl.
  destruct ts as [n l]. unfold rowTime, mkRow; simpl.
  by rewrite (newer_fresh _ _ _ H).
Qed.

Lemma Mark_older (st : store) (target : Schema) (ts : hlc.Time) :
  ¬ newer (metaTable st) target ts → Mark None st target ts = (st, None).
Proof.
  intros H. unfold Mark, markExec.
  rewrite (proj2 (to_insert_newer _ _ _) H). simpl. by destruct st.
Qed.

Lemma increasing_snoc (l : list hlc.Time) (ts : hlc.Time) :
  increasing l → Forall (λ t, hlc.lt t ts) l → increasing (l ++ [ts]).
Proof.
  unfold increasing. induction 1 as [|t l Hs IH Hall]; intros HF; simpl.
  - repeat constructor.
  - apply Forall_cons in HF as [Ht HF]. constructor; [by apply IH|].
    apply Forall_app. split; [done|]. by constructor.
Qed.

(** One [Mark] keeps the checkpoints of every schema increasing. *)
Lemma Mark_increasing (fault : option string) (st : store)
    (target : Schema) (ts : hlc.Time) (s : Schema) :
  increasing (checkpoints (metaTable st) s) →
  increasing (checkpoints (metaTable (Mark fault st target ts).1) s).
Proof.
  intros Hs. destruct fault as [msg|]; [done|].
  destruct (decide (newer (metaTable st) target ts)) as [Hn|Hn].
  - rewrite (Mark_newer _ _ _ Hn). simpl.
    rewrite checkpoints_app, checkpoints_mkRow.
    case_decide as Heq; [subst s|by rewrite app_nil_r].
    by apply increasing_snoc.
  - by rewrite (Mark_older _ _ _ Hn).
Qed.

(** C1: [Mark] inserts the checkpoint exactly when it is later, in
    tuple order, than every checkpoint recorded for the schema (which
    includes the case that there is none); otherwise it inserts
    nothing, leaves table and [marked] as they are and returns no
    error; and after any sequence of calls of [Mark] on an empty
    table, whatever the driver's failures, the checkpoints of every
    schema are strictly increasing in the order they were stored. *)
Theorem Mark_monotone (st : store) (target : Schema) (ts : hlc.Time)
    (calls : list markCall) (s : Schema) :
  (newer (metaTable st) target ts →
     Mark None st target ts =
       ({| metaTable := metaTable st ++ [mkRow target ts None];
           marked := Some ts |}, None)) ∧
  (¬ newer (metaTable st) target ts → Mark None st target ts = (st, None)) ∧
  increasing (checkpoints (metaTable (markAll calls emptyStore)) s).
Proof.
  split; [apply Mark_newer|]. split; [apply Mark_older|].
  induction calls as [|[[fault tgt] t] calls IH] using rev_ind.
  - constructor.
  - unfold markAll in *. rewrite foldl_app. simpl. by apply Mark_increasing.
Qed.

(** C5: [selectTimestamp] returns the least time that is not before
    [after] among the unapplied rows of the schema; it returns the
    sentinel [errNoWork] exactly when there is no such row; and an
    error of the driver is returned as it is, distinct from the
    sentinel. *)
Theorem selectTimestamp_least (tbl : list row) (target : Schema)
    (after : hlc.Time) :
  match selectTimestamp None tbl target after with
  | (t, None) =>
    (∃ r, r ∈ tbl ∧ target_schema r = target ∧ target_applied_at r = None ∧
          hlc.le after (rowTime r) ∧ rowTime r = t) ∧
    (∀ r, r ∈ tbl → target_schema r = target → target_applied_at r = None →
          hlc.le after (rowTime r) → hlc.le t (rowTime r))
  | (t, Some e) =>
    e = ErrNoWork ∧ t = hlc.Zero ∧
    ∀ r, r ∈ tbl → target_schema r = target → target_applied_at r = None →
         ¬ hlc.le after (rowTime r)
  end ∧
  ∀ msg, selectTimestamp (Some msg) tbl target after
         = (hlc.Zero, Some (ErrSQL msg)) ∧ ErrSQL msg ≠ ErrNoWork.
Proof.
  split; [|done]. unfold selectTimestamp.
  assert (∀ t, t ∈ unapplied tbl target after ↔
               ∃ r, r ∈ tbl ∧ target_schema r = target ∧
                    target_applied_at r = None ∧
                    hlc.le after (rowTime r) ∧ rowTime r = t) as Hin.
  { intros t. unfold unapplied. rewrite list_elem_of_fmap. split.
    - intros (r & -> & [(? & ?%leb_le & ?) ?]%list_elem_of_filter).
      exists r. done.
    - intros (r & ? & ? & ? & ? & <-). exists r. split; [done|].
      apply list_elem_of_filter. by rewrite leb_le. }
  destruct (least (unapplied tbl target after)) as [t|] eqn:Hl.
  - destruct (least_Some _ _ Hl) as [Ht Hmin]. split; [by apply Hin|].
    intros r ? ? ? ?. apply Hmin, Hin. by exists r.
  - apply least_None in Hl. split; [done|]. split; [done|].
    intros r ? ? ? ?. assert (rowTime r ∈ unapplied tbl target after) as Hr.
    { apply Hin. by exists r. }
    rewrite Hl in Hr. by apply elem_of_nil in Hr.
Qed.

(** ** The processor: what a flush calls *)

Lemma lastPersisted_app (evs evs' : list event) (init : resolvedStamp) :
  lastPersisted (evs ++ evs') init = lastPersisted evs' (lastPersisted evs init).
Proof. unfold lastPersisted. by rewrite foldl_app. Qed.

Lemma lastPersisted_data (evs : list event) (init : resolvedStamp) :
  Forall (λ ev, isOnData ev.1) evs → lastPersisted evs init = init.
Proof.
  unfold lastPersisted. induction 1 as [|[c r] evs Hc _ IH]; [done|].
  simpl. by destruct c.
Qed.

Lemma dueIn_isOnData source tA tables : Forall isOnData (dueIn source tA tables).
Proof. unfold dueIn. apply Forall_fmap, Forall_forall. done. Qed.

Lemma oks_isOnData (cs : list call) :
  Forall isOnData cs → Forall (λ ev : event, isOnData ev.1) (oks cs).
Proof. unfold oks. intros H. by apply Forall_fmap. Qed.

Lemma dueIn_cons source tA t tables :
  dueIn source tA (t :: tables) =
  if decide (GetZero tA t ≠ [])
  then CallOnData source t (GetZero tA t) :: dueIn source tA tables
  else dueIn source tA tables.
Proof. unfold dueIn. rewrite filter_cons. by case_decide. Qed.

Lemma oks_cons c cs : oks (c :: cs) = (c, Ok) :: oks cs.
Proof. done. Qed.

Lemma oks_app cs cs' : oks (cs ++ cs') = oks cs ++ oks cs'.
Proof. unfold oks. by rewrite fmap_app. Qed.

Arguments dueIn : simpl never.
Arguments oks : simpl never.

Lemma flushTables_events env source tA tables w :
  consistentPoint (flushTables env source tA tables w).1 = consistentPoint w ∧
  resolved (flushTables env source tA tables w).1 = resolved w ∧
  match (flushTables env source tA tables w).2 with
  | Ok =>
    hist (flushTables env source tA tables w).1
    = hist w ++ oks (dueIn source tA tables)
  | Fail e =>
    ∃ pre c post, dueIn source tA tables = pre ++ c :: post ∧
      hist (flushTables env source tA tables w).1
      = hist w ++ oks pre ++ [(c, Fail e)]
  end.
Proof.
  revert w. induction tables as [|t tables IH]; intros w.
  - simpl. by rewrite app_nil_r.
  - rewrite dueIn_cons. simpl.
    destruct (length (GetZero tA t) =? 0)%nat eqn:Hlen.
    + apply Nat.eqb_eq, length_zero_iff_nil in Hlen.
      assert (¬ GetZero tA t ≠ []) as Hn by (intros H; by apply H).
      rewrite (decide_False _ _ Hn). apply IH.
    + apply Nat.eqb_neq in Hlen.
      assert (GetZero tA t ≠ []) as Hn by (by intros E; rewrite E in Hlen).
      rewrite (decide_True _ _ Hn). clear Hlen Hn.
      unfold invoke.
      destruct (respond env (hist w) (CallOnData source t (GetZero tA t)))
        as [|e] eqn:Hr; simpl.
      * specialize (IH {| hist := hist w ++ [(CallOnData source t (GetZero tA t), Ok)];
                          consistentPoint := consistentPoint w;
                          resolved := resolved w |}).
        destruct IH as (-> & -> & IH). split; [done|]. split; [done|].
        destruct (flushTables _ _ _ _ _).2 as [|e'].
        -- rewrite IH. simpl. by rewrite <- app_assoc.
        -- destruct IH as (pre & c & post & -> & ->).
           exists (CallOnData source t (GetZero tA t) :: pre), c, post.
           split; [done|]. simpl. by rewrite <- app_assoc.
      * split; [done|]. split; [done|].
        by exists [], (CallOnData source t (GetZero tA t)), (dueIn source tA tables).
Qed.

Lemma dueIn_app source tA l l' :
  dueIn source tA (l ++ l') = dueIn source tA l ++ dueIn source tA l'.
Proof.
  induction l as [|t l IH]; [done|]. simpl. rewrite !dueIn_cons, IH.
  by case_decide.
Qed.

Lemma flushGroups_events env source tA groups w :
  consistentPoint (flushGroups env source tA groups w).1 = consistentPoint w ∧
  resolved (flushGroups env source tA groups w).1 = resolved w ∧
  match (flushGroups env source tA groups w).2 with
  | Ok =>
    hist (flushGroups env source tA groups w).1
    = hist w ++ oks (dueIn source tA (concat groups))
  | Fail e =>
    ∃ pre c post, dueIn source tA (concat groups) = pre ++ c :: post ∧
      hist (flushGroups env source tA groups w).1
      = hist w ++ oks pre ++ [(c, Fail e)]
  end.
Proof.
  revert w. induction groups as [|g groups IH]; intros w; simpl.
  - by rewrite app_nil_r.
  - rewrite dueIn_app.
    pose proof (flushTables_events env source tA g w) as (Hcp & Hres & Hg).
    destruct (flushTables env source tA g w) as [w1 [|e]]; simpl in *.
    + specialize (IH w1). destruct IH as (-> & -> & IH).
      split; [done|]. split; [done|].
      destruct (flushGroups _ _ _ _ _).2 as [|e']; simpl in *.
      * rewrite IH, Hg. by rewrite oks_app, app_assoc.
      * destruct IH as (pre & c & post & Hd & ->).
        exists (dueIn source tA g ++ pre), c, post. rewrite Hd, Hg.
        split; [by rewrite app_assoc|].
        by rewrite oks_app, !app_assoc.
    + split; [done|]. split; [done|].
      destruct Hg as (pre & c & post & Hd & ->).
      exists pre, c, (post ++ dueIn source tA (concat groups)).
      rewrite Hd. split; [|done]. by rewrite <- app_assoc.
Qed.

Lemma lastPersisted_due su tA pre post init :
  due su tA = pre ++ post → lastPersisted (oks pre) init = init.
Proof.
  intros H. apply lastPersisted_data, oks_isOnData.
  pose proof (dueIn_isOnData (SourceName (ext su) (target su)) tA
                (concat (targets su))) as HF.
  fold (due su tA) in HF. rewrite H in HF. by apply Forall_app in HF as [? _].
Qed.

Lemma flushBatch_events su cur tA final rs0 w0 rs' w' r :
  flushBatch su cur tA final rs0 w0 = (rs', w', r) →
  ∃ evs,
    batchEvents su cur tA rs0 final evs rs' r ∧
    hist w' = hist w0 ++ evs ∧
    consistentPoint w' = lastPersisted evs (consistentPoint w0).
Proof.
  unfold flushBatch.
  pose proof (flushGroups_events (env su) (SourceName (ext su) (target su))
                tA (targets su) w0) as (Hcp & _ & Hg).
  fold (due su tA) in Hg.
  destruct (flushGroups _ _ _ _ _) as [w1 [|e]]; simpl in Hcp, Hg.
  2:{ intros [= <- <- <-]. destruct Hg as (pre & c & post & Hd & Hh).
      exists (oks pre ++ [(c, Fail e)]).
      split; [by eapply be_data_failed|]. split; [done|].
      rewrite lastPersisted_app, (lastPersisted_due _ _ _ _ _ Hd), Hcp.
      pose proof (dueIn_isOnData (SourceName (ext su) (target su)) tA
                    (concat (targets su))) as HF.
      fold (due su tA) in HF. rewrite Hd in HF.
      apply Forall_app in HF as [_ [Hc _]%Forall_cons]. by destruct c. }
  assert (lastPersisted (oks (due su tA)) (consistentPoint w0)
          = consistentPoint w0) as Hlp.
  { apply (lastPersisted_due su tA _ []). by rewrite app_nil_r. }
  unfold setConsistentPoint, doRecord, invoke.
  destruct (respond (env su) (hist w1) CallOnCommit) as [|e] eqn:Hc.
  2:{ intros [= <- <- <-].
      exists (oks (due su tA) ++ [(CallOnCommit, Fail e)]).
      split; [constructor|]. simpl. rewrite Hg, <- app_assoc. split; [done|].
      by rewrite lastPersisted_app, Hlp, Hcp. }
  destruct final.
  - destruct (NewCommitted (ext su) rs0) as [e|rs1] eqn:Hn.
    { intros [= <- <- <-]. exists (oks (due su tA) ++ [(CallOnCommit, Ok)]).
      split; [by apply be_committed, adv_uncommitted|].
      simpl. rewrite Hg, <- app_assoc. split; [done|].
      by rewrite lastPersisted_app, Hlp, Hcp. }
    simpl. destruct (respond (env su) _ (CallRecord _)) as [|e] eqn:Hr.
    2:{ intros [= <- <- <-].
        exists (oks (due su tA) ++ [(CallOnCommit, Ok);
                                     (CallRecord (CommittedTime rs1), Fail e)]).
        split; [by apply be_committed, adv_record_failed|].
        simpl. rewrite Hg, <- !app_assoc. split; [done|].
        by rewrite lastPersisted_app, Hlp, Hcp. }
    simpl. destruct (respond (env su) _ (CallSetConsistentPoint _)) as [|e] eqn:Hs;
      intros [= <- <- <-].
    + exists (oks (due su tA) ++ [(CallOnCommit, Ok);
                                   (CallRecord (CommittedTime rs1), Ok);
                                   (CallSetConsistentPoint rs1, Ok)]).
      split; [by apply be_committed, adv_committed|].
      simpl. rewrite Hg, <- !app_assoc. split; [done|].
      by rewrite lastPersisted_app, Hlp.
    + exists (oks (due su tA) ++ [(CallOnCommit, Ok);
                                   (CallRecord (CommittedTime rs1), Ok);
                                   (CallSetConsistentPoint rs1, Fail e)]).
      split; [by apply be_committed, adv_committed|].
      simpl. rewrite Hg, <- !app_assoc. split; [done|].
      by rewrite lastPersisted_app, Hlp, Hcp.
  - simpl. destruct (respond (env su) _ (CallSetConsistentPoint _)) as [|e] eqn:Hs;
      intros [= <- <- <-].
    + exists (oks (due su tA) ++
              [(CallOnCommit, Ok);
               (CallSetConsistentPoint (NewProgress (ext su) rs0 cur), Ok)]).
      split; [apply be_committed, adv_progress|].
      simpl. rewrite Hg, <- !app_assoc. split; [done|].
      by rewrite lastPersisted_app, Hlp.
    + exists (oks (due su tA) ++
              [(CallOnCommit, Ok);
               (CallSetConsistentPoint (NewProgress (ext su) rs0 cur), Fail e)]).
      split; [apply be_committed, adv_progress|].
      simpl. rewrite Hg, <- !app_assoc. split; [done|].
      by rewrite lastPersisted_app, Hlp, Hcp.
Qed.

Lemma flush_events su cur tA final rs0 w0 rs' w' r :
  flush su cur tA final rs0 w0 = (rs', w', r) →
  ∃ evs,
    flushEvents su cur tA rs0 final evs rs' r ∧
    hist w' = hist w0 ++ evs ∧
    consistentPoint w' = lastPersisted evs (consistentPoint w0).
Proof.
  unfold flush, invoke.
  destruct (respond (env su) (hist w0) CallOnBegin) as [|e] eqn:Hb.
  2:{ intros [= <- <- <-]. exists [(CallOnBegin, Fail e)].
      split; [constructor|]. done. }
  destruct (flushBatch _ _ _ _ _ _) as [[rs1 w1] r1] eqn:HB.
  apply flushBatch_events in HB as (body & Hb' & Hh & Hcp). simpl in *.
  intros [= <- <- <-].
  exists ((CallOnBegin, Ok) :: body ++
          [(CallOnRollback, respond (env su) (hist w1) CallOnRollback)]).
  split; [by constructor|]. simpl. rewrite Hh, Hcp, <- !app_assoc.
  split; [done|]. unfold lastPersisted. simpl. by rewrite foldl_app.
Qed.

Lemma fst_oks (cs : list call) : (oks cs).*1 = cs.
Proof.
  induction cs as [|c cs IH]; [done|]. by rewrite oks_cons, fmap_cons, IH.
Qed.

Lemma oks_not_elem (cs : list call) (c : call) (e : error) :
  (c, Fail e) ∉ oks cs.
Proof.
  unfold oks. rewrite list_elem_of_fmap. by intros (c' & [=] & _).
Qed.

Lemma oks_due_not_set su tA (s : resolvedStamp) (r : reply) (pre post : list call) :
  due su tA = pre ++ post → (CallSetConsistentPoint s, r) ∉ oks pre.
Proof.
  intros Hd Hin.
  pose proof (dueIn_isOnData (SourceName (ext su) (target su)) tA
                (concat (targets su))) as HF.
  fold (due su tA) in HF. rewrite Hd in HF. apply Forall_app in HF as [HF _].
  apply oks_isOnData in HF. rewrite Forall_forall in HF.
  by apply HF in Hin.
Qed.

(** C8: with an empty table order, [process] returns the error that
    names the schema and leaves everything outside as it was: the list
    of calls has not grown, so no [OnBegin], [OnData], [Record] or
    [SetConsistentPoint] was made. *)
Theorem process_no_tables (e : Env) (c : Config) (x : Externals)
    (tgt : Schema) (feed : list feedItem) (feedErr : option error)
    (rs0 : resolvedStamp) (w0 : world) :
  process {| env := e; cfg := c; ext := x; target := tgt; targets := [] |}
    feed feedErr rs0 w0
  = (w0, Fail (ErrNoTables tgt)).
Proof. done. Qed.

Lemma due_isOnData su tA pre c post :
  due su tA = pre ++ c :: post → isOnData c.
Proof.
  intros Hd.
  pose proof (dueIn_isOnData (SourceName (ext su) (target su)) tA
                (concat (targets su))) as HF.
  fold (due su tA) in HF. rewrite Hd in HF.
  by apply Forall_app in HF as [_ [? _]%Forall_cons].
Qed.

Lemma advanceEvents_not_data su cur rs0 final adv rs' r :
  advanceEvents su cur rs0 final adv rs' r →
  Forall (λ ev : event, ¬ isOnData ev.1) adv.
Proof. destruct 1; repeat constructor; simpl; tauto. Qed.

(** C6: the calls of a flush are [OnBegin], then a run [D] of [OnData]
    calls, then the rest [tail].  [D] follows the list [due]: one call
    for each table of the order whose buffer is not empty, FK group
    after FK group, with that buffer; it stops short of [due] only
    when [OnBegin] failed or at a call of [OnData] that failed, and is
    all of [due] when the flush succeeds.  No [OnData] is made outside
    [D], and [SetConsistentPoint] is called only after every due
    [OnData] succeeded and [OnCommit] reported success. *)
Theorem flush_order (su : setup) (cur : SelectManyCursor)
    (tA : gmap Table (list Mutation)) (final : bool) (rs0 : resolvedStamp)
    (w0 : world) :
  match flush su cur tA final rs0 w0 with
  | (rs', w', r) =>
    ∃ rb D tail,
      hist w' = hist w0 ++ (CallOnBegin, rb) :: D ++ tail ∧
      D.*1 `prefix_of` due su tA ∧
      (D.*1 = due su tA ∨ rb ≠ Ok ∨ ∃ c e, last D = Some (c, Fail e)) ∧
      Forall (λ ev, ¬ isOnData ev.1) tail ∧
      (r = Ok → D = oks (due su tA)) ∧
      (∀ s rr, (CallSetConsistentPoint s, rr) ∈ D ++ tail →
         D = oks (due su tA) ∧
         ∃ tail', tail = (CallOnCommit, Ok) :: tail' ∧
                  (CallSetConsistentPoint s, rr) ∈ tail')
  end.
Proof.
  destruct (flush su cur tA final rs0 w0) as [[rs' w'] r] eqn:Hf.
  apply flush_events in Hf as (evs & Hev & -> & _).
  destruct Hev as [final e|final body rs' r rb Hb].
  { exists (Fail e), [], []. split; [done|]. split; [apply prefix_nil|].
    split; [right; by left|]. split; [constructor|]. split; [done|].
    by intros s rr ?%elem_of_nil. }
  destruct Hb as [final pre c post e Hd|final e|final adv rs' r Hadv].
  - exists Ok, (oks pre ++ [(c, Fail e)]), [(CallOnRollback, rb)].
    split; [done|].
    split. { rewrite fmap_app, fst_oks, Hd. simpl. by exists post;
             rewrite <- app_assoc. }
    split. { right; right. exists c, e. by rewrite last_snoc. }
    split; [repeat constructor; simpl; tauto|]. split; [done|].
    intros s rr. rewrite !elem_of_app, !list_elem_of_singleton.
    intros [[Hin|[= <- _]]|[=]].
    + by eapply oks_due_not_set in Hin.
    + by apply due_isOnData in Hd.
  - exists Ok, (oks (due su tA)), [(CallOnCommit, Fail e); (CallOnRollback, rb)].
    split; [by rewrite <- app_assoc|].
    split; [by rewrite fst_oks|]. split; [left; by rewrite fst_oks|].
    split; [repeat constructor; simpl; tauto|]. split; [done|].
    intros s rr. rewrite elem_of_app. intros [Hin|Hin].
    + eapply oks_due_not_set in Hin; [done|by rewrite app_nil_r].
    + by apply elem_of_cons in Hin as [[=]|[=]%list_elem_of_singleton].
  - exists Ok, (oks (due su tA)), ((CallOnCommit, Ok) :: adv ++ [(CallOnRollback, rb)]).
    split; [by rewrite <- app_assoc|].
    split; [by rewrite fst_oks|]. split; [left; by rewrite fst_oks|].
    split. { constructor; [simpl; tauto|]. apply Forall_app. split.
             - by eapply advanceEvents_not_data.
             - repeat constructor; simpl; tauto. }
    split; [done|].
    intros s rr. rewrite elem_of_app. intros [Hin|Hin].
    + eapply oks_due_not_set in Hin; [done|by rewrite app_nil_r].
    + split; [done|]. eexists. split; [done|].
      by apply elem_of_cons in Hin as [[=]|?].
Qed.

(** ** The processor: errors and the persisted stamp *)

Lemma clean_oks (cs : list call) : clean (oks cs).
Proof. unfold clean, oks. apply Forall_fmap, Forall_forall. by right. Qed.

Lemma clean_no_failure (evs : list event) (c : call) (e : error) :
  clean evs → c ≠ CallOnRollback → (c, Fail e) ∉ evs.
Proof.
  unfold clean. rewrite Forall_forall. intros H Hc Hin.
  by destruct (H _ Hin) as [?|?].
Qed.

Lemma failure_unique (A P : list event) (c0 c : call) (e0 e : error) :
  clean A → Forall (λ ev, ev.1 = CallOnRollback) P → c ≠ CallOnRollback →
  (c, Fail e) ∈ A ++ (c0, Fail e0) :: P → (c, Fail e) = (c0, Fail e0).
Proof.
  intros HA HP Hc [Hin|[Hin|Hin]%elem_of_cons]%elem_of_app.
  - by apply clean_no_failure in Hin.
  - done.
  - rewrite Forall_forall in HP. by apply HP in Hin.
Qed.

Lemma unpersisted_lastPersisted (evs : list event) (init : resolvedStamp) :
  unpersisted evs → lastPersisted evs init = init.
Proof.
  unfold lastPersisted. induction 1 as [|[c r] evs Hc _ IH]; [done|].
  simpl. destruct c as [| | | | |s]; try done.
  destruct r; [|done]. by destruct (Hc s).
Qed.

Lemma unpersisted_oks_due su tA pre post :
  due su tA = pre ++ post → unpersisted (oks pre).
Proof.
  intros Hd. apply Forall_forall. intros ev Hin s ->.
  by eapply oks_due_not_set in Hin.
Qed.

Ltac list_props :=
  repeat first
    [ apply Forall_nil_2
    | apply Forall_cons_2
    | apply Forall_app_2
    | apply clean_oks
    | (eapply unpersisted_oks_due; eassumption)
    | (eapply unpersisted_oks_due; by rewrite app_nil_r) ];
  simpl; try done; try (by left); try (by right).

(** A flush that succeeded made no failing call. *)
Lemma flushEvents_Ok su cur tA rs0 final evs rs' :
  flushEvents su cur tA rs0 final evs rs' Ok → clean evs.
Proof.
  inversion 1 as [|? body ? ? rb Hb]; subst.
  inversion Hb as [| |? adv ? ? Hadv]; subst.
  unfold clean. inversion Hadv; subst; list_props.
Qed.

(** A flush that failed persisted nothing, began with [OnBegin], and
    either made no failing call or ends at the failing call, but for
    [OnRollback]. *)
Lemma flushEvents_Fail su cur tA rs0 final evs rs' e :
  flushEvents su cur tA rs0 final evs rs' (Fail e) →
  unpersisted evs ∧ (∃ rb, head evs = Some (CallOnBegin, rb)) ∧
  (clean evs ∨
   ∃ A c0 P, evs = A ++ (c0, Fail e) :: P ∧ clean A ∧ c0 ≠ CallOnRollback ∧
             Forall (λ ev, ev.1 = CallOnRollback) P).
Proof.
  inversion 1 as [|? body ? ? rb Hb]; subst.
  { split; [unfold unpersisted; list_props|]. split; [by eexists|].
    right. exists [], CallOnBegin, []. unfold clean. repeat split; list_props. }
  split.
  { unfold unpersisted. inversion Hb as [| |? adv ? ? Hadv]; subst;
      [| |inversion Hadv; subst]; list_props. }
  split; [by eexists|].
  inversion Hb as [? pre c post ? Hd| |? adv ? ? Hadv]; subst.
  - right. exists ((CallOnBegin, Ok) :: oks pre), c, [(CallOnRollback, rb)].
    split; [by rewrite <- app_assoc|]. unfold clean.
    split; [list_props|]. split; [|list_props].
    apply due_isOnData in Hd. by intros ->.
  - right. exists ((CallOnBegin, Ok) :: oks (due su tA)), CallOnCommit,
               [(CallOnRollback, rb)].
    split; [by rewrite <- app_assoc|]. unfold clean. repeat split; list_props.
  - inversion Hadv; subst.
    + right. exists ((CallOnBegin, Ok) :: oks (due su tA) ++ [(CallOnCommit, Ok)]),
                 (CallSetConsistentPoint (NewProgress (ext su) rs0 cur)),
                 [(CallOnRollback, rb)].
      split; [simpl; by rewrite <- !app_assoc|]. unfold clean. repeat split; list_props.
    + left. unfold clean. list_props.
    + right. exists ((CallOnBegin, Ok) :: oks (due su tA) ++ [(CallOnCommit, Ok)]),
                 (CallRecord (CommittedTime rs')), [(CallOnRollback, rb)].
      split; [simpl; by rewrite <- !app_assoc|]. unfold clean. repeat split; list_props.
    + right. exists ((CallOnBegin, Ok) :: oks (due su tA) ++
                     [(CallOnCommit, Ok); (CallRecord (CommittedTime rs'), Ok)]),
                 (CallSetConsistentPoint rs'), [(CallOnRollback, rb)].
      split; [simpl; by rewrite <- !app_assoc|]. unfold clean. repeat split; list_props.
Qed.

Lemma flushEvents_failedFlush su cur tA rs0 final evs rs' e :
  flushEvents su cur tA rs0 final evs rs' (Fail e) → failedFlush evs (Fail e).
Proof.
  intros (Hu & Hh & Hs)%flushEvents_Fail. split; [done|].
  intros c e' Hc Hin. destruct Hs as [Hcl|(A & c0 & P & -> & HA & Hc0 & HP)].
  - by apply clean_no_failure in Hin.
  - pose proof (failure_unique _ _ _ _ _ _ HA HP Hc Hin) as [= -> ->].
    split; [done|]. split; [done|]. by exists A, P.
Qed.

Lemma failedFlush_nil (r : reply) : failedFlush [] r.
Proof. split; [constructor|]. by intros c e _ ?%elem_of_nil. Qed.

Lemma propagates_nil (cp : resolvedStamp) (r : reply) : propagates [] cp cp r.
Proof.
  exists [], []. split; [done|]. split; [constructor|]. split; [done|].
  split; [apply failedFlush_nil|done].
Qed.

Lemma propagates_app tr1 tr2 cp0 cp r :
  clean tr1 → propagates tr2 (lastPersisted tr1 cp0) cp r →
  propagates (tr1 ++ tr2) cp0 cp r.
Proof.
  intros H1 (before & failing & -> & Hb & -> & Hf & Hok).
  exists (tr1 ++ before), failing. split; [by rewrite app_assoc|].
  split; [by apply Forall_app|]. by rewrite lastPersisted_app.
Qed.

(** What a flush adds to the calls made and to the persisted stamp. *)
Lemma flush_propagates su cur tA final rs0 w0 rs' w' r :
  flush su cur tA final rs0 w0 = (rs', w', r) →
  ∃ tr, hist w' = hist w0 ++ tr ∧
        propagates tr (consistentPoint w0) (consistentPoint w') r ∧
        (r = Ok → clean tr ∧
                  consistentPoint w' = lastPersisted tr (consistentPoint w0)).
Proof.
  intros (evs & Hev & Hh & Hcp)%flush_events. exists evs. split; [done|].
  destruct r as [|e].
  - pose proof (flushEvents_Ok _ _ _ _ _ _ _ Hev) as Hcl. split; [|done].
    exists evs, []. rewrite app_nil_r. split; [done|]. split; [done|].
    split; [done|]. split; [apply failedFlush_nil|done].
  - split; [|done]. exists [], evs. split; [done|]. split; [constructor|].
    pose proof (flushEvents_failedFlush _ _ _ _ _ _ _ _ Hev) as Hf.
    split; [|done]. rewrite Hcp. by apply unpersisted_lastPersisted, Hf.
Qed.

Lemma propagates_Ok tr cp0 cp :
  propagates tr cp0 cp Ok → clean tr ∧ cp = lastPersisted tr cp0.
Proof.
  intros (before & failing & -> & Hb & -> & _ & Hok).
  rewrite (Hok eq_refl), app_nil_r. done.
Qed.

Lemma callback_propagates su tbl mut p p' r :
  callback su tbl mut p = (p', r) →
  ∃ tr, hist (w p') = hist (w p) ++ tr ∧
        propagates tr (consistentPoint (w p)) (consistentPoint (w p')) r.
Proof.
  unfold callback. destruct (needsFlush _ _ _ _ _).
  - destruct (flush _ _ _ _ _ _) as [[rs1 w1] r1] eqn:Hf.
    apply flush_propagates in Hf as (tr & Hh & Hp & _).
    destruct r1; intros [= <- <-]; by exists tr.
  - intros [= <- <-]. exists []. rewrite app_nil_r. split; [done|].
    apply propagates_nil.
Qed.

Lemma SelectMany_propagates su feed feedErr p p' r :
  SelectMany su feed feedErr p = (p', r) →
  ∃ tr, hist (w p') = hist (w p) ++ tr ∧
        propagates tr (consistentPoint (w p)) (consistentPoint (w p')) r.
Proof.
  revert p. induction feed as [|[tbl mut|key tbl time] feed IH]; intros p; simpl.
  - intros [= <- <-]. exists []. rewrite app_nil_r. split; [done|].
    apply propagates_nil.
  - destruct (callback su tbl mut p) as [p1 r1] eqn:Hc.
    apply callback_propagates in Hc as (tr1 & Hh1 & Hp1).
    destruct r1 as [|e].
    + intros (tr2 & Hh2 & Hp2)%IH. exists (tr1 ++ tr2).
      rewrite Hh2, Hh1, app_assoc. split; [done|].
      apply propagates_Ok in Hp1 as [Hcl Hcp]. apply propagates_app; [done|].
      by rewrite <- Hcp.
    + intros [= <- <-]. by exists tr1.
  - intros (tr & Hh & Hp)%IH. by exists tr.
Qed.

(** C3: the calls of [process] split into flushes that succeeded
    ([before]) and at most one that did not ([failing]).  What is
    persisted at the end is what the last successful
    [SetConsistentPoint] of the run wrote (or what was there when no
    call succeeded), and the flush that did not succeed persisted
    nothing.  If any step other than the dropped [OnRollback] failed
    with [e], then [process] returns [e], the step belongs to the
    failing flush, every step before it succeeded, and nothing but
    [OnRollback] is called after it. *)
Theorem process_propagates (su : setup) (feed : list feedItem)
    (feedErr : option error) (rs0 : resolvedStamp) (w0 : world) :
  match process su feed feedErr rs0 w0 with
  | (w', r) =>
    ∃ before failing,
      hist w' = hist w0 ++ before ++ failing ∧
      clean before ∧
      unpersisted failing ∧
      consistentPoint w'
      = lastPersisted (before ++ failing) (consistentPoint w0) ∧
      ∀ c e, c ≠ CallOnRollback → (c, Fail e) ∈ before ++ failing →
        r = Fail e ∧
        (∃ rb, head failing = Some (CallOnBegin, rb)) ∧
        ∃ pre post, failing = pre ++ (c, Fail e) :: post ∧ clean pre ∧
                    Forall (λ ev, ev.1 = CallOnRollback) post
  end.
Proof.
  assert (∀ w' r tr,
    hist w' = hist w0 ++ tr →
    propagates tr (consistentPoint w0) (consistentPoint w') r →
    ∃ before failing,
      hist w' = hist w0 ++ before ++ failing ∧
      clean before ∧ unpersisted failing ∧
      consistentPoint w'
      = lastPersisted (before ++ failing) (consistentPoint w0) ∧
      ∀ c e, c ≠ CallOnRollback → (c, Fail e) ∈ before ++ failing →
        r = Fail e ∧
        (∃ rb, head failing = Some (CallOnBegin, rb)) ∧
        ∃ pre post, failing = pre ++ (c, Fail e) :: post ∧ clean pre ∧
                    Forall (λ ev, ev.1 = CallOnRollback) post) as Hfin.
  { intros w' r tr Hh (before & failing & -> & Hb & Hcp & [Hu Hf] & _).
    exists before, failing. split; [done|]. split; [done|]. split; [done|].
    split.
    - by rewrite lastPersisted_app, <- Hcp, unpersisted_lastPersisted.
    - intros c e Hc [Hin|Hin]%elem_of_app; [|by apply Hf].
      by apply clean_no_failure in Hin. }
  unfold process. destruct (length (targets su) =? 0)%nat.
  { apply (Hfin _ _ []); [by rewrite app_nil_r|apply propagates_nil]. }
  destruct (SelectMany su feed feedErr (initial su rs0 w0)) as [p r1] eqn:Hs.
  apply SelectMany_propagates in Hs as (tr1 & Hh1 & Hp1). simpl in Hh1, Hp1.
  destruct r1 as [|e]; [|by apply (Hfin _ _ tr1)].
  destruct (flush su (cursor p) (toApply p) true (rs p) (w p))
    as [[rs' w'] r] eqn:Hf.
  apply flush_propagates in Hf as (tr2 & Hh2 & Hp2 & _).
  apply (Hfin _ _ (tr1 ++ tr2)); [by rewrite Hh2, Hh1, app_assoc|].
  apply propagates_Ok in Hp1 as [Hcl Hcp]. apply propagates_app; [done|].
  by rewrite <- Hcp.
Qed.

(** ** The processor: when an interim flush happens *)

Lemma bufferedCount_comm (j1 j2 : Table) (z1 z2 : list Mutation) (y : nat) :
  (length z1 + (length z2 + y) = length z2 + (length z1 + y))%nat.
Proof. lia. Qed.

Lemma bufferedCount_fresh (tA : gmap Table (list Mutation)) t l :
  tA !! t = None →
  bufferedCount (<[t := l]> tA) = (length l + bufferedCount tA)%nat.
Proof.
  intros H. unfold bufferedCount.
  rewrite map_fold_insert_L; [done| |done].
  intros. apply bufferedCount_comm; done.
Qed.

Lemma bufferedCount_append (tA : gmap Table (list Mutation)) t m :
  bufferedCount (<[t := GetZero tA t ++ [m]]> tA) = S (bufferedCount tA).
Proof.
  unfold GetZero. destruct (tA !! t) as [l|] eqn:Hl; simpl.
  - rewrite <- (insert_delete_eq tA).
    rewrite bufferedCount_fresh by apply lookup_delete_eq.
    rewrite <- (insert_id tA t l Hl) at 2. rewrite <- (insert_delete_eq tA).
    rewrite bufferedCount_fresh by apply lookup_delete_eq.
    rewrite length_app. simpl. lia.
  - by rewrite bufferedCount_fresh.
Qed.

Lemma bufferedCount_reset (tA : gmap Table (list Mutation)) :
  bufferedCount (truncateAll tA) = 0%nat.
Proof.
  unfold truncateAll. induction tA as [|t l tA Hl IH] using map_ind.
  - by rewrite fmap_empty.
  - rewrite fmap_insert, bufferedCount_fresh; [done|].
    by rewrite lookup_fmap, Hl.
Qed.

Lemma GetZero_reset (tA : gmap Table (list Mutation)) t :
  GetZero (truncateAll tA) t = [].
Proof.
  unfold GetZero, truncateAll. rewrite lookup_fmap. by destruct (tA !! t).
Qed.

Lemma buffered_reset (tA : gmap Table (list Mutation)) m :
  ¬ buffered (truncateAll tA) m.
Proof. intros [t Ht]. rewrite GetZero_reset in Ht. by apply elem_of_nil in Ht. Qed.

Lemma buffered_append (tA : gmap Table (list Mutation)) t m b :
  buffered (<[t := GetZero tA t ++ [m]]> tA) b ↔ buffered tA b ∨ b = m.
Proof.
  unfold buffered. split.
  - intros [t' Ht']. unfold GetZero in Ht' at 1.
    destruct (decide (t = t')) as [<-|Hne].
    + rewrite lookup_insert_eq in Ht'. simpl in Ht'.
      apply elem_of_app in Ht' as [?|?%list_elem_of_singleton]; eauto.
    + rewrite lookup_insert_ne in Ht' by done. left. by exists t'.
  - intros [[t' Ht']| ->].
    + destruct (decide (t = t')) as [<-|Hne].
      * exists t. unfold GetZero at 1. rewrite lookup_insert_eq. simpl.
        apply elem_of_app. by left.
      * exists t'. unfold GetZero at 1. by rewrite lookup_insert_ne.
    + exists t. unfold GetZero at 1. rewrite lookup_insert_eq. simpl.
      apply elem_of_app. right. by apply list_elem_of_singleton.
Qed.

(** The flush predicate outside backfill and [FlushEveryTimestamp]. *)
Lemma needsFlush_default (c : Config) (s : resolvedStamp) (counter : Z)
    (ep : hlc.Time) (mut : Mutation) :
  Backfill s = false → FlushEveryTimestamp c = false →
  needsFlush c s counter ep mut = true
  ↔ IdealFlushBatchSize c ≤ counter ∧ hlc.lt ep (Time mut).
Proof.
  intros Hb Hf. unfold needsFlush. rewrite Hb, Hf.
  by rewrite andb_true_iff, Z.leb_le, Z.ltb_lt, Compare_pos.
Qed.

Lemma flushEvents_begins su cur tA rs0 final evs rs' r :
  flushEvents su cur tA rs0 final evs rs' r →
  ∃ rb rest, evs = (CallOnBegin, rb) :: rest.
Proof. destruct 1; by eexists _, _. Qed.

Lemma flushEvents_interim su cur tA rs0 evs rs' :
  flushEvents su cur tA rs0 false evs rs' Ok →
  rs' = NewProgress (ext su) rs0 cur.
Proof.
  inversion 1 as [|? body ? ? rb Hb]; subst.
  inversion Hb as [| |? adv ? ? Hadv]; subst. by inversion Hadv.
Qed.

(** The callback flushes exactly when the flush predicate holds. *)
Lemma flushes_needsFlush su tbl mut p :
  flushes su tbl mut p
  ↔ needsFlush (cfg su) (rs p) (flushCounter p) (epoch p) mut = true.
Proof.
  unfold flushes, callback. destruct (needsFlush _ _ _ _ _).
  - split; [done|]. intros _.
    destruct (flush _ _ _ _ _ _) as [[rs1 w1] r1] eqn:Hf.
    apply flush_events in Hf as (evs & Hev & Hh & _).
    apply flushEvents_begins in Hev as (rb & rest & ->).
    exists rb, rest. by destruct r1.
  - split; [|done]. simpl. intros (rb & rest & H).
    apply (f_equal length) in H. rewrite length_app in H. simpl in H. lia.
Qed.

(** What the callback leaves in the variables it closes over, outside
    backfill. *)
Lemma callback_counts su tbl mut p p' :
  (∀ s c, Backfill (NewProgress (ext su) s c) = Backfill s) →
  Backfill (rs p) = false →
  flushCounter p = Z.of_nat (bufferedCount (toApply p)) →
  callback su tbl mut p = (p', Ok) →
  Backfill (rs p') = false ∧
  flushCounter p' = Z.of_nat (bufferedCount (toApply p')) ∧
  epoch p' = Time mut.
Proof.
  intros Hext Hb Hc. unfold callback. destruct (needsFlush _ _ _ _ _).
  - destruct (flush _ _ _ _ _ _) as [[rs1 w1] r1] eqn:Hf.
    apply flush_events in Hf as (evs & Hev & _).
    destruct r1; [|done]. apply flushEvents_interim in Hev as ->.
    intros [= <-]. simpl. rewrite Hext. split; [done|]. split; [|done].
    rewrite bufferedCount_append, bufferedCount_reset. lia.
  - intros [= <-]. simpl. split; [done|]. split; [|done].
    rewrite bufferedCount_append, Hc. lia.
Qed.

Lemma lastTime_snoc (l : list Mutation) (m : Mutation) :
  lastTime (l ++ [m]) = Time m.
Proof. unfold lastTime. by rewrite last_snoc. Qed.

Lemma delivered_app (l l' : list feedItem) :
  delivered (l ++ l') = delivered l ++ delivered l'.
Proof. unfold delivered. by rewrite omap_app. Qed.

(** The variables of the callback when [SelectMany] has delivered
    [feed] without an error. *)
Lemma SelectMany_counts su feed p p' d :
  (∀ s c, Backfill (NewProgress (ext su) s c) = Backfill s) →
  Backfill (rs p) = false →
  flushCounter p = Z.of_nat (bufferedCount (toApply p)) →
  epoch p = lastTime d →
  SelectMany su feed None p = (p', Ok) →
  Backfill (rs p') = false ∧
  flushCounter p' = Z.of_nat (bufferedCount (toApply p')) ∧
  epoch p' = lastTime (d ++ delivered feed).
Proof.
  intros Hext. revert p d.
  induction feed as [|[tbl mut|key tbl time] feed IH]; intros p d Hb Hc He; simpl.
  - intros [= <-]. by rewrite app_nil_r.
  - destruct (callback su tbl mut p) as [p1 r1] eqn:Hcb.
    destruct r1; [|done].
    apply callback_counts in Hcb as (Hb1 & Hc1 & He1); [|done..].
    intros H. apply (IH p1 (d ++ [mut])) in H; [|done|done|].
    + by rewrite <- app_assoc in H.
    + by rewrite lastTime_snoc.
  - intros H. by apply (IH _ d) in H.
Qed.

(** ** The processor: epochs are not split across flushes *)

Lemma begins_app (a b : list event) : begins (a ++ b) = (begins a + begins b)%nat.
Proof. unfold begins. by rewrite filter_app, length_app. Qed.

Lemma begins_cons_begin (r : reply) (tr : list event) :
  begins ((CallOnBegin, r) :: tr) = S (begins tr).
Proof. unfold begins. by rewrite filter_cons_True. Qed.

Lemma begins_cons_other (c : call) (r : reply) (tr : list event) :
  c ≠ CallOnBegin → begins ((c, r) :: tr) = begins tr.
Proof. intros H. unfold begins. by rewrite filter_cons_False. Qed.

Lemma tagged_app (n : nat) (a b : list event) :
  tagged n (a ++ b) = tagged n a ++ tagged (n + begins a) b.
Proof.
  revert n. induction a as [|[c r] a IH]; intros n; simpl.
  - by rewrite Nat.add_0_r.
  - destruct c; rewrite ?begins_cons_begin, ?begins_cons_other by done;
      rewrite IH; try done.
    + by rewrite Nat.add_succ_comm.
    + by rewrite <- app_assoc.
Qed.

Lemma tagged_inFlush tA (n : nat) (evs : list event) (i : nat) (m : Mutation) :
  Forall (inFlush tA) evs → (i, m) ∈ tagged n evs → i = n ∧ buffered tA m.
Proof.
  induction 1 as [|[c r] evs [Hc Hm] _ IH]; simpl; [by intros ?%elem_of_nil|].
  destruct c; try done.
  intros [Hin|Hin]%elem_of_app; [|by apply IH].
  apply list_elem_of_fmap in Hin as (m' & [= -> ->] & Hin).
  split; [done|]. by eapply Hm.
Qed.

Lemma begins_inFlush tA (evs : list event) :
  Forall (inFlush tA) evs → begins evs = 0%nat.
Proof.
  induction 1 as [|[c r] evs [Hc Hm] _ IH]; [done|].
  by rewrite begins_cons_other.
Qed.

Lemma due_inFlush su tA (r : reply) :
  Forall (λ c, inFlush tA (c, r)) (due su tA).
Proof.
  unfold due, dueIn. apply Forall_fmap, Forall_forall.
  intros t _. split; simpl; [done|].
  intros src t' muts m [= _ <- <-] Hm. by exists t.
Qed.

Lemma inFlush_oks su tA pre post :
  due su tA = pre ++ post → Forall (inFlush tA) (oks pre).
Proof.
  intros Hd. pose proof (due_inFlush su tA Ok) as HF. rewrite Hd in HF.
  apply Forall_app in HF as [HF _]. unfold oks. by apply Forall_fmap.
Qed.

Lemma inFlush_other tA (c : call) (r : reply) :
  c ≠ CallOnBegin → ¬ isOnData c → inFlush tA (c, r).
Proof. intros Hc Hd. split; [done|]. simpl. intros ? ? ? ? ->. by destruct Hd. Qed.

Lemma batchEvents_inFlush su cur tA rs0 final body rs' r :
  batchEvents su cur tA rs0 final body rs' r → Forall (inFlush tA) body.
Proof.
  destruct 1 as [final pre c post e Hd|final e|final adv rs' r Hadv].
  - apply Forall_app. split; [by eapply inFlush_oks|].
    constructor; [|constructor].
    pose proof (due_inFlush su tA (Fail e)) as HF. rewrite Hd in HF.
    by apply Forall_app in HF as [_ [? _]%Forall_cons].
  - apply Forall_app. split; [eapply inFlush_oks; by rewrite app_nil_r|].
    constructor; [|constructor]. apply inFlush_other; [done|simpl; tauto].
  - apply Forall_app. split; [eapply inFlush_oks; by rewrite app_nil_r|].
    constructor; [apply inFlush_other; [done|simpl; tauto]|].
    destruct Hadv;
      repeat (apply Forall_cons_2; [apply inFlush_other; [done|simpl; tauto]|]);
      apply Forall_nil_2.
Qed.

(** The mutations that a flush hands to [OnData] were buffered, and
    they carry the number of this flush. *)
Lemma flushEvents_tagged su cur tA rs0 final evs rs' r (n : nat) :
  flushEvents su cur tA rs0 final evs rs' r →
  begins evs = 1%nat ∧
  ∀ i m, (i, m) ∈ tagged n evs → i = S n ∧ buffered tA m.
Proof.
  destruct 1 as [final e|final body rs' r rb Hb]; [split; [done|]|].
  { simpl. by intros i m ?%elem_of_nil. }
  apply batchEvents_inFlush in Hb.
  assert (Forall (inFlush tA) (body ++ [(CallOnRollback, rb)])) as HF.
  { apply Forall_app. split; [done|]. constructor; [|constructor].
    apply inFlush_other; [done|simpl; tauto]. }
  split.
  - by rewrite begins_cons_begin, (begins_inFlush _ _ HF).
  - simpl. intros i m. by apply tagged_inFlush.
Qed.

Lemma inOrder_cons (m : Mutation) (l : list Mutation) :
  inOrder (m :: l) →
  inOrder l ∧ ∀ m', m' ∈ l → hlc.le (Time m) (Time m').
Proof.
  intros H. apply StronglySorted_inv in H as [Hs Hall].
  split; [done|]. by rewrite Forall_forall in Hall.
Qed.

Lemma epochs_nil n tA feed : epochs n [] tA feed.
Proof. split; simpl; intros *; by intros ?%elem_of_nil. Qed.

Lemma epochs_mono n tr tA1 feed1 tA2 feed2 :
  (∀ t, sourced tA1 feed1 t → sourced tA2 feed2 t) →
  epochs n tr tA1 feed1 → epochs n tr tA2 feed2.
Proof.
  intros Hs [Ha Ho]. split; [|done]. intros i m Hin.
  destruct (Ha _ _ Hin). split; [done|]. by apply Hs.
Qed.

Lemma pending_mono n tr tA1 feed1 tA2 feed2 tA' :
  (∀ t, sourced tA1 feed1 t → sourced tA2 feed2 t) →
  pending n tr tA1 tA' feed1 → pending n tr tA2 tA' feed2.
Proof. intros Hs [Hc Hd]. split; [done|]. intros b Hb. by apply Hs, Hd. Qed.

(** The buffers after a mutation was appended without a flush. *)
Lemma sourced_keep x tA tbl mut feed t :
  sourced (<[tbl := GetZero tA tbl ++ [AddMeta x "cdc" tbl mut]]> tA) feed t →
  sourced tA (Deliver tbl mut :: feed) t.
Proof.
  intros (m0 & <- & [[Hb| ->]%buffered_append|Hd]).
  - exists m0. split; [done|]. by left.
  - exists mut. split; [done|]. right. apply elem_of_cons. by left.
  - exists m0. split; [done|]. right. apply elem_of_cons. by right.
Qed.

(** The buffers after a flush emptied them and a mutation was
    appended. *)
Lemma sourced_flushed x tA tbl mut feed t :
  sourced (<[tbl := GetZero (truncateAll tA) tbl ++ [AddMeta x "cdc" tbl mut]]>
             (truncateAll tA)) feed t →
  ∃ m0, Time m0 = t ∧ (m0 = mut ∨ m0 ∈ delivered feed).
Proof.
  intros (m0 & <- & [[Hb| ->]%buffered_append|Hd]).
  - by apply buffered_reset in Hb.
  - exists mut. split; [done|]. by left.
  - exists m0. split; [done|]. by right.
Qed.

(** Outside backfill the callback flushes only when it meets a later
    time; with mutations delivered in HLC order, a later flush then
    handles later times only. *)
Lemma SelectMany_epochs_when su feedErr :
  (∀ s counter ep mut,
     Backfill s = false → needsFlush (cfg su) s counter ep mut = true →
     hlc.lt ep (Time mut)) →
  (∀ s c, Backfill (NewProgress (ext su) s c) = Backfill s) →
  ∀ feed p p' r n,
    Backfill (rs p) = false →
    inOrder (delivered feed) →
    (∀ b, buffered (toApply p) b → hlc.le (Time b) (epoch p)) →
    (∀ b m, buffered (toApply p) b → m ∈ delivered feed →
            hlc.le (Time b) (Time m)) →
    SelectMany su feed feedErr p = (p', r) →
    ∃ tr, hist (w p') = hist (w p) ++ tr ∧
          epochs n tr (toApply p) feed ∧
          (r = Ok → Backfill (rs p') = false ∧
                    pending n tr (toApply p) (toApply p') feed).
Proof.
  intros Hfe Hext.
  induction feed as [|[tbl mut|key tbl time] feed IH];
    intros p p' r n Hb Hord H1 H2; simpl.
  - intros [= <- <-]. exists []. rewrite app_nil_r. split; [done|].
    split; [apply epochs_nil|]. intros _. split; [done|]. split.
    + simpl. by intros i m b ?%elem_of_nil.
    + intros b Hbuf. exists b. split; [done|]. by left.
  - change (delivered (Deliver tbl mut :: feed)) with (mut :: delivered feed)
      in Hord, H2.
    apply inOrder_cons in Hord as [Hord Hmut].
    unfold callback. destruct (needsFlush _ _ _ _ _) eqn:Hnf.
    + apply Hfe in Hnf as Hlt; [|done].
      assert (∀ m, buffered (toApply p) m → hlc.lt (Time m) (Time mut)) as Hold.
      { intros m Hm. eapply le_lt_trans; [by apply H1|done]. }
      destruct (flush _ _ _ _ _ _) as [[rs1 w1] r1] eqn:Hf.
      apply flush_events in Hf as (evs & Hev & Hh & _).
      pose proof (flushEvents_tagged _ _ _ _ _ _ _ _ n Hev) as [Hbeg Htag].
      destruct r1 as [|e].
      2:{ intros [= <- <-]. exists evs. split; [done|]. split; [|done]. split.
          - intros i m Hin. destruct (Htag _ _ Hin) as [-> Hm].
            split; [lia|]. exists m. split; [done|]. by left.
          - intros i j m m' Hi Hj. destruct (Htag _ _ Hi) as [-> _].
            destruct (Htag _ _ Hj) as [-> _]. lia. }
      apply flushEvents_interim in Hev as ->.
      intros HS. apply (IH _ _ _ (S n)) in HS as (tr2 & Hh2 & [Ha2 Ho2] & Hok2);
        simpl.
      2:{ by rewrite Hext. }
      2:{ done. }
      2:{ intros b [Hb'| ->]%buffered_append; [by apply buffered_reset in Hb'|].
          by right. }
      2:{ intros b m [Hb'| ->]%buffered_append Hm;
            [by apply buffered_reset in Hb'|]. by apply Hmut. }
      simpl in Hh2, Ha2, Ho2, Hok2.
      assert (∀ t, sourced
                (<[tbl := GetZero (truncateAll (toApply p)) tbl ++
                          [AddMeta (ext su) "cdc" tbl mut]]>
                   (truncateAll (toApply p))) feed t →
              hlc.le (Time mut) t ∧ sourced (toApply p) (Deliver tbl mut :: feed) t)
        as Hsrc.
      { intros t (m0 & <- & [->|Hd])%sourced_flushed.
        - split; [by right|]. exists mut. split; [done|].
          right. apply elem_of_cons. by left.
        - split; [by apply Hmut|]. exists m0. split; [done|].
          right. apply elem_of_cons. by right. }
      exists (evs ++ tr2). rewrite Hh2, Hh, app_assoc. split; [done|].
      unfold epochs, pending.
      rewrite tagged_app, begins_app, Hbeg, Nat.add_1_r.
      split; [split|].
      * intros i m [Hin|Hin]%elem_of_app.
        -- destruct (Htag _ _ Hin) as [-> Hm]. split; [lia|].
           exists m. split; [done|]. by left.
        -- destruct (Ha2 _ _ Hin) as [Hr Hs]. split; [lia|]. by apply Hsrc.
      * intros i j m m' [Hi|Hi]%elem_of_app [Hj|Hj]%elem_of_app Hij.
        -- destruct (Htag _ _ Hi) as [-> _]. destruct (Htag _ _ Hj) as [-> _]. lia.
        -- destruct (Htag _ _ Hi) as [-> Hm]. destruct (Ha2 _ _ Hj) as [_ Hs].
           eapply lt_le_trans; [by apply Hold|]. by apply Hsrc.
        -- destruct (Htag _ _ Hj) as [-> _]. destruct (Ha2 _ _ Hi) as [Hr _]. lia.
        -- by eapply Ho2.
      * intros Hr. destruct (Hok2 Hr) as [Hb2 [Hc2 Hd2]]. split; [done|]. split.
        -- intros i m b [Hin|Hin]%elem_of_app Hbuf.
           ++ destruct (Htag _ _ Hin) as [-> Hm].
              eapply lt_le_trans; [by apply Hold|]. by apply Hsrc, Hd2.
           ++ by eapply Hc2.
        -- intros b Hbuf. by apply Hsrc, Hd2.
    + intros HS. apply (IH _ _ _ n) in HS as (tr2 & Hh2 & He2 & Hok2); simpl.
      2:{ done. }
      2:{ done. }
      2:{ intros b [Hb'| ->]%buffered_append; [|by right].
          apply H2; [done|]. apply elem_of_cons. by left. }
      2:{ intros b m [Hb'| ->]%buffered_append Hm; [|by apply Hmut].
          apply H2; [done|]. apply elem_of_cons. by right. }
      simpl in Hh2, He2, Hok2. exists tr2. split; [done|]. split.
      * eapply epochs_mono; [|exact He2]. intros t. apply sourced_keep.
      * intros Hr. destruct (Hok2 Hr) as [Hb2 Hp2]. split; [done|].
        eapply pending_mono; [|exact Hp2]. intros t. apply sourced_keep.
  - intros HS. by apply (IH _ _ _ n) in HS.
Qed.

(** Outside backfill and [FlushEveryTimestamp], with mutations
    delivered in HLC order, a later flush handles later times only. *)
Lemma SelectMany_epochs su feedErr :
  FlushEveryTimestamp (cfg su) = false →
  (∀ s c, Backfill (NewProgress (ext su) s c) = Backfill s) →
  ∀ feed p p' r n,
    Backfill (rs p) = false →
    inOrder (delivered feed) →
    (∀ b, buffered (toApply p) b → hlc.le (Time b) (epoch p)) →
    (∀ b m, buffered (toApply p) b → m ∈ delivered feed →
            hlc.le (Time b) (Time m)) →
    SelectMany su feed feedErr p = (p', r) →
    ∃ tr, hist (w p') = hist (w p) ++ tr ∧
          epochs n tr (toApply p) feed ∧
          (r = Ok → Backfill (rs p') = false ∧
                    pending n tr (toApply p) (toApply p') feed).
Proof.
  intros Hfe. apply SelectMany_epochs_when.
  intros s counter ep mut Hb Hnf.
  by apply needsFlush_default in Hnf as [_ Hlt].
Qed.

(** [SelectMany] reaches the delivery of a mutation through the state
    that the deliveries before it leave. *)
Lemma SelectMany_app su pre post feedErr p :
  SelectMany su (pre ++ post) feedErr p =
  match SelectMany su pre None p with
  | (p1, Ok) => SelectMany su post feedErr p1
  | (p1, Fail e) => (p1, Fail e)
  end.
Proof.
  revert p. induction pre as [|[tbl mut|key tbl time] pre IH]; intros p; simpl.
  - done.
  - destruct (callback su tbl mut p) as [p1 [|e]]; [apply IH|done].
  - apply IH.
Qed.

Lemma buffered_empty (m : Mutation) : ¬ buffered ∅ m.
Proof. intros [t Ht]. unfold GetZero in Ht. by apply elem_of_nil in Ht. Qed.

Lemma ordered_no_split (l : list (nat * Mutation)) :
  (∀ i j m m', (i, m) ∈ l → (j, m') ∈ l → (i < j)%nat →
               hlc.lt (Time m) (Time m')) →
  ∀ i j m m', (i, m) ∈ l → (j, m') ∈ l → Time m = Time m' → i = j.
Proof.
  intros Ho i j m m' Hi Hj Ht.
  destruct (lt_eq_lt_dec i j) as [[Hlt|Heq]|Hgt]; [|done|].
  - pose proof (Ho _ _ _ _ Hi Hj Hlt) as H. rewrite Ht in H.
    by apply lt_irrefl in H.
  - pose proof (Ho _ _ _ _ Hj Hi Hgt) as H. rewrite Ht in H.
    by apply lt_irrefl in H.
Qed.

(** C4: outside backfill and [FlushEveryTimestamp], when the callback
    is invoked for a delivered mutation, [flushCounter] is the number
    of mutations in the buffers, that is, of those buffered since the
    last flush, [epoch] is the time of the mutation delivered last
    ([hlc.Zero] before the first), and the callback begins an interim
    flush before it buffers the mutation exactly when [flushCounter]
    has reached [IdealFlushBatchSize] and the time of the mutation is
    later than [epoch].  Hence, for mutations delivered in HLC order,
    two mutations with the same time that are handed to [OnData] are
    handed over by the same flush. *)
Theorem interim_flush_epochs (su : setup) (feed : list feedItem)
    (feedErr : option error) (rs0 : resolvedStamp) (w0 : world) :
  Backfill rs0 = false →
  FlushEveryTimestamp (cfg su) = false →
  (∀ s c, Backfill (NewProgress (ext su) s c) = Backfill s) →
  (∀ pre tbl mut post p,
     feed = pre ++ Deliver tbl mut :: post →
     SelectMany su pre None (initial su rs0 w0) = (p, Ok) →
     flushCounter p = Z.of_nat (bufferedCount (toApply p)) ∧
     epoch p = lastTime (delivered pre) ∧
     (flushes su tbl mut p
      ↔ IdealFlushBatchSize (cfg su) ≤ flushCounter p
        ∧ hlc.lt (epoch p) (Time mut))) ∧
  (inOrder (delivered feed) →
   ∀ tr i j m m',
     hist (process su feed feedErr rs0 w0).1 = hist w0 ++ tr →
     (i, m) ∈ tagged 0 tr → (j, m') ∈ tagged 0 tr →
     Time m = Time m' → i = j).
Proof.
  intros Hb Hfe Hext. split.
  - intros pre tbl mut post p _ HS.
    apply (SelectMany_counts _ _ _ _ []) in HS as (Hbp & Hc & He); try done.
    split; [done|]. split; [done|].
    rewrite flushes_needsFlush. by apply needsFlush_default.
  - intros Hord tr i j m m' Hh. revert i j m m'. apply ordered_no_split.
    unfold process in Hh. destruct (length (targets su) =? 0)%nat.
    { simpl in Hh. rewrite <- (app_nil_r (hist w0)) in Hh at 1.
      apply app_inv_head in Hh as <-. simpl. by intros i j m m' ?%elem_of_nil. }
    destruct (SelectMany su feed feedErr (initial su rs0 w0)) as [p r1] eqn:HS.
    apply (SelectMany_epochs su feedErr Hfe Hext _ _ _ _ 0%nat) in HS
      as (tr1 & Hh1 & [Ha1 Ho1] & Hok1); try done.
    2:{ simpl. intros b Hbuf. by apply buffered_empty in Hbuf. }
    2:{ simpl. intros b m0 Hbuf. by apply buffered_empty in Hbuf. }
    simpl in Hh1. destruct r1 as [|e].
    2:{ simpl in Hh. rewrite Hh1 in Hh. by apply app_inv_head in Hh as <-. }
    destruct (Hok1 eq_refl) as [_ [Hc1 _]].
    destruct (flush su (cursor p) (toApply p) true (rs p) (w p))
      as [[rs' w'] r] eqn:Hf.
    apply flush_events in Hf as (evs & Hev & Hh2 & _).
    pose proof (flushEvents_tagged _ _ _ _ _ _ _ _ (begins tr1) Hev) as [_ Htag].
    simpl in Hh. rewrite Hh2, Hh1, <- app_assoc in Hh.
    apply app_inv_head in Hh as <-. rewrite tagged_app. simpl.
    intros i j m m' [Hi|Hi]%elem_of_app [Hj|Hj]%elem_of_app Hij.
    + by eapply Ho1.
    + destruct (Htag _ _ Hj) as [-> Hm']. by eapply Hc1.
    + destruct (Htag _ _ Hi) as [-> _]. destruct (Ha1 _ _ Hj) as [Hr _]. lia.
    + destruct (Htag _ _ Hi) as [-> _]. destruct (Htag _ _ Hj) as [-> _]. lia.
Qed.

(** ** The reader *)

(** C7: when the stamp that [GetConsistentPoint] returns has a proposed
    time, the first thing the reader does after resuming retirement is
    to offer that very stamp to the processor; it runs no query
    against the meta-table before, and if the send is the case that
    the [select] takes, the stamp is the first that the processor
    receives. *)
Theorem readInto_resumes (x : Externals) (tgt : Schema) (backfill : bool)
    (cp : resolvedStamp) (t : tick) (script : list tick) :
  ProposedTime cp ≠ hlc.Zero →
  ∃ more,
    (readInto x tgt backfill cp (t :: script)).1
    = resumed cp ++ Offer cp (send t) :: more ∧
    (send t = Sent →
     ∃ rest, sent (readInto x tgt backfill cp (t :: script)).1 = cp :: rest).
Proof.
  intros Hp. unfold readInto. fold (resumed cp). simpl.
  rewrite decide_True by done.
  assert (sent (resumed cp) = []) as Hres.
  { unfold resumed. by case_decide. }
  destruct (send t) eqn:Hsend; simpl.
  - destruct (await t None) as [[sets resume2] [r|]]; simpl.
    + exists sets. split; [done|]. intros _. unfold sent.
      rewrite omap_app. fold (sent (resumed cp)). rewrite Hres. simpl.
      by eexists.
    + destruct (readLoop x tgt backfill script resume2) as [more ex]. simpl.
      exists (sets ++ more). split; [done|]. intros _. unfold sent.
      rewrite omap_app. fold (sent (resumed cp)). rewrite Hres. simpl.
      by eexists.
  - exists []. done.
  - exists []. done.
Qed.

(** ** The retire loop *)

(** C2, as the code has it: after the update to 100 ns with an offset
    of 5 ns, [Retire] is called with 95 ns for the first table and
    with 90 ns for the second, because the callback takes the offset
    off the loop's own variable [next] once per table; the bound of
    the second table is not the committed time minus the offset. *)
Theorem retireLoop_offset_accumulates :
  retireLoop keepFive healthy twoTables hlc.Zero
  = ([[]; [("a", hlc.New 95 0); ("b", hlc.New 90 0)]], Returned Ok) ∧
  hlc.New 90 0 ≠ retain keepFive (hlc.New 100 0).
Proof. split; [by vm_compute|]. by vm_compute. Qed.

(** With stagers that never fail, the table at position [k] is retired
    up to the bound with the offset taken off [k + 1] times. *)
Lemma retireRange_bounds (c : Config) (tables : list Table) (next : hlc.Time) :
  (retireRange c healthy tables next).1.1
  = imap (λ k tbl, (tbl, retained c (S k) next)) tables.
Proof.
  revert next. induction tables as [|tbl tables IH]; intros next; [done|].
  simpl. specialize (IH (retain c next)).
  destruct (retireRange c healthy tables (retain c next)) as [[calls last] r].
  simpl in *. rewrite IH. f_equal.
Qed.

(** ** Runs on concrete inputs *)

(** The run of the processor on the example: the two mutations of the
    epoch at 10 ns go out in the first flush, parent table first, and
    the one at 20 ns in the final flush, which commits 20 ns. *)
Example demo_process :
  (λ im : nat * Mutation, (im.1, Key im.2, Time im.2))
    <$> tagged 0 (hist (process demoSetup demoFeed None demoStamp demoWorld).1)
  = [(1%nat, "[2]", hlc.New 10 0); (1%nat, "[1]", hlc.New 10 0);
     (2%nat, "[3]", hlc.New 20 0)] ∧
  (process demoSetup demoFeed None demoStamp demoWorld).2 = Ok ∧
  CommittedTime
    (consistentPoint (process demoSetup demoFeed None demoStamp demoWorld).1)
  = hlc.New 20 0.
Proof. by vm_compute. Qed.

Lemma demoFeed_inOrder : inOrder (delivered demoFeed).
Proof.
  unfold inOrder. simpl.
  repeat first [ apply SSorted_nil | apply SSorted_cons
               | apply Forall_nil_2 | apply Forall_cons_2 ];
    apply leb_le; reflexivity.
Defined.

Lemma interim_flush_epochs_witness :
  inOrder (delivered demoFeed) ∧
  (∀ pre tbl mut post p,
     demoFeed = pre ++ Deliver tbl mut :: post →
     SelectMany demoSetup pre None (initial demoSetup demoStamp demoWorld)
     = (p, Ok) →
     flushCounter p = Z.of_nat (bufferedCount (toApply p)) ∧
     epoch p = lastTime (delivered pre) ∧
     (flushes demoSetup tbl mut p
      ↔ IdealFlushBatchSize (cfg demoSetup) ≤ flushCounter p
        ∧ hlc.lt (epoch p) (Time mut))) ∧
  (∀ tr i j m m',
     hist (process demoSetup demoFeed None demoStamp demoWorld).1
     = hist demoWorld ++ tr →
     (i, m) ∈ tagged 0 tr → (j, m') ∈ tagged 0 tr →
     Time m = Time m' → i = j).
Proof.
  split; [exact demoFeed_inOrder|].
  destruct (interim_flush_epochs demoSetup demoFeed None demoStamp demoWorld)
    as [HA HB]; [reflexivity|reflexivity|intros; reflexivity|].
  split; [exact HA|exact (HB demoFeed_inOrder)].
Defined.

Lemma readInto_resumes_witness :
  ProposedTime demoStamp ≠ hlc.Zero ∧
  ∃ more,
    (readInto specExternals "s" false demoStamp [demoTick]).1
    = resumed demoStamp ++ Offer demoStamp (send demoTick) :: more ∧
    (send demoTick = Sent →
     ∃ rest,
       sent (readInto specExternals "s" false demoStamp [demoTick]).1
       = demoStamp :: rest).
Proof.
  assert (ProposedTime demoStamp ≠ hlc.Zero) as H by (intros E; discriminate E).
  split; [exact H|]. exact (readInto_resumes _ _ _ _ _ _ H).
Defined.

(** Seed scenario S2: a checkpoint at 100 is marked, one at 50 is then
    ignored, and the next timestamp to apply is 100. *)
Example demo_Mark :
  markAll [(None, "s", hlc.New 100 0); (None, "s", hlc.New 50 0)] emptyStore
  = {| metaTable := [mkRow "s" (hlc.New 100 0) None];
       marked := Some (hlc.New 100 0) |} ∧
  selectTimestamp None [mkRow "s" (hlc.New 100 0) None] "s" hlc.Zero
  = (hlc.New 100 0, None) ∧
  selectTimestamp None [mkRow "s" (hlc.New 100 0) (Some 7)] "s" hlc.Zero
  = (hlc.Zero, Some ErrNoWork).
Proof. by vm_compute. Qed.

(** The last mutation of a key wins, and an empty key panics. *)
Example demo_UniqueByKey :
  msort.UniqueByKey [mutAt "a" 1; mutAt "b" 5; mutAt "a" 3; mutAt "a" 2]
  = Ret [mutAt "b" 5; mutAt "a" 3] ∧
  msort.UniqueByKey [mutAt "a" 1; mutAt "" 5]
  = Panic "empty mutation key".
Proof. by vm_compute. Qed.

Example demo_commit_fails :
  let su := {| env := commitFails; cfg := cfg demoSetup; ext := specExternals;
               target := "s"; targets := [["p"]; ["c"]] |} in
  (process su demoFeed None demoStamp demoWorld).2 = Fail (ErrOther "commit") ∧
  consistentPoint (process su demoFeed None demoStamp demoWorld).1
  = consistentPoint demoWorld ∧
  resolved (process su demoFeed None demoStamp demoWorld).1 = [] ∧
  (λ ev : event, ev.2) <$> hist (process su demoFeed None demoStamp demoWorld).1
  = [Ok; Ok; Ok; Fail (ErrOther "commit"); Ok].
Proof. by vm_compute. Qed.

(** * Further properties *)

(** ** msort.UniqueByKey: the order of the result *)

Ltac case_remove_dups :=
  match goal with
  | |- context [decide_rel ?R ?a ?b] => destruct (decide_rel R a b)
  end.

Module UniqueByKeyOrder.

Import msort.

Lemma seen_in_rest x0 n st k i :
  Inv x0 n st → seenIdx st !! k = Some i → k ∈ Key <$> drop n x0.
Proof.
  intros HI Hk. destruct (inv_seen _ _ _ HI _ _ Hk) as [Hr (m & Hm & <-)].
  destruct (inv_slot _ _ _ HI i m (proj1 Hr) Hm) as (_ & Hin & _).
  apply list_elem_of_fmap. by exists m.
Qed.

Lemma unseen_not_in_rest x0 n st k :
  Inv x0 n st → seenIdx st !! k = None → k ∉ Key <$> drop n x0.
Proof.
  intros HI Hk (m & -> & Hm)%list_elem_of_fmap.
  apply (inv_cover _ _ _ HI) in Hm. rewrite Hk in Hm. by destruct Hm.
Qed.

Lemma step_KeysOrd x0 n st st' m :
  Inv x0 (S n) st → KeysOrd x0 (S n) st → x0 !! n = Some m →
  step n st = Ret st' → KeysOrd x0 n st'.
Proof.
  intros HI HK Hm. unfold KeysOrd in *.
  rewrite (UniqueByKeyProof.drop_lookup_cons _ _ _ Hm), fmap_cons. simpl.
  unfold step. rewrite (inv_prefix _ _ _ HI) by lia. rewrite Hm.
  destruct (String.length (Key m) =? 0)%nat; [done|].
  destruct (seenIdx st !! Key m) as [cur|] eqn:Hcur.
  - pose proof (seen_in_rest _ _ _ _ _ HI Hcur) as Hin.
    case_remove_dups; [|done].
    destruct (inv_seen _ _ _ HI _ _ Hcur) as [Hr (c & Hc & Hkc)]. rewrite Hc.
    destruct (0 <? hlc.Compare (Time m) (Time c)); intros [= <-]; [|done].
    simpl. rewrite <- HK, !fmap_drop, list_fmap_insert.
    f_equal. apply list_insert_id. rewrite list_lookup_fmap, Hc. simpl.
    by rewrite Hkc.
  - pose proof (unseen_not_in_rest _ _ _ _ HI Hcur) as Hnin.
    case_remove_dups; [done|].
    destruct (dest st) as [|d] eqn:Hd; [done|].
    destruct (decide (d < length (xs st))%nat) as [Hlt|]; [|done].
    intros [= <-]. simpl.
    rewrite (drop_S (<[d := m]> (xs st)) m d)
      by (by apply list_lookup_insert_eq).
    rewrite fmap_cons, drop_insert_lt by lia. by rewrite HK.
Qed.

Lemma loop_KeysOrd x0 n st st' :
  (n ≤ length x0)%nat → Inv x0 n st → KeysOrd x0 n st →
  loop n st = Ret st' → KeysOrd x0 0 st'.
Proof.
  revert st. induction n as [|n IH]; intros st Hn HI HK; simpl.
  - by intros [= <-].
  - destruct (lookup_lt_is_Some_2 x0 n) as [m Hm]; [lia|].
    destruct (step n st) as [st1|msg] eqn:Hs; [|done].
    pose proof (step_KeysOrd _ _ _ _ _ HI HK Hm Hs) as HK1.
    assert (Key m ≠ "") as Hne.
    { intros He. unfold step in Hs. rewrite (inv_prefix _ _ _ HI) in Hs by lia.
      by rewrite Hm, He in Hs. }
    destruct (UniqueByKeyProof.step_Inv _ _ _ _ HI Hm Hne) as (st2 & Hs2 & HI2).
    rewrite Hs in Hs2. injection Hs2 as <-.
    apply IH; [lia|done|done].
Qed.

End UniqueByKeyOrder.

(** What the loop of [UniqueByKey] leaves at its end: it panics only
    on an empty key, and otherwise its invariant holds of the whole
    input. *)
Lemma UniqueByKey_loop_end (x : list Mutation) :
  match msort.loop (length x) {| xs := x; seenIdx := ∅; dest := length x |} with
  | Ret st => Forall (λ m, Key m ≠ "") x ∧ Inv x 0 st
  | Panic msg => Exists (λ m, Key m = "") x
  end.
Proof.
  pose proof (UniqueByKeyProof.loop_Inv x (length x) _ (le_n _)
                (UniqueByKeyProof.Inv_init x)) as H.
  destruct (msort.loop _ _) as [st|msg]; rewrite firstn_all in H; [done|].
  by destruct H.
Qed.

(** The keys that the loop leaves in the view [x[dest:]]. *)
Lemma UniqueByKey_loop_keys (x : list Mutation) (st : ustate) :
  msort.loop (length x) {| xs := x; seenIdx := ∅; dest := length x |} = Ret st →
  Key <$> drop (dest st) (xs st) = remove_dups (Key <$> x).
Proof.
  intros Hl. eapply (UniqueByKeyOrder.loop_KeysOrd x) in Hl.
  - unfold KeysOrd in Hl. by rewrite drop_0 in Hl.
  - done.
  - apply UniqueByKeyProof.Inv_init.
  - unfold KeysOrd. simpl. by rewrite !drop_all.
Qed.

(** X1: the keys of the result of [UniqueByKey] are the keys of the
    input with duplicates removed, each standing where the key occurs
    last in the input. *)
Theorem UniqueByKey_order (x : list Mutation) :
  match msort.UniqueByKey x with
  | Ret r => Key <$> r = remove_dups (Key <$> x)
  | Panic _ => Exists (λ m, Key m = "") x
  end.
Proof.
  pose proof (UniqueByKey_loop_end x) as HE.
  unfold msort.UniqueByKey.
  destruct (msort.loop _ _) as [st|msg] eqn:Hl; [|done].
  by apply UniqueByKey_loop_keys.
Qed.

Lemma remove_dups_NoDup {A} `{EqDecision A} (l : list A) :
  NoDup l → remove_dups l = l.
Proof.
  induction 1 as [|a l Ha _ IH]; [done|]. simpl.
  case_remove_dups; [done|]. by rewrite IH.
Qed.

Lemma same_keys_same_list (x r : list Mutation) :
  NoDup (Key <$> x) → Key <$> r = Key <$> x → (∀ m, m ∈ r → m ∈ x) → r = x.
Proof.
  intros Hnd Hk Hin. apply list_eq. intros i.
  destruct (r !! i) as [m|] eqn:Hr.
  - assert (m ∈ x) as [j Hj]%list_elem_of_lookup.
    { apply Hin. by eapply list_elem_of_lookup_2. }
    assert ((Key <$> x) !! i = Some (Key m)) as Hi.
    { by rewrite <- Hk, list_lookup_fmap, Hr. }
    assert ((Key <$> x) !! j = Some (Key m)) as Hj'.
    { by rewrite list_lookup_fmap, Hj. }
    rewrite NoDup_alt in Hnd. by rewrite (Hnd _ _ _ Hi Hj').
  - symmetry. apply lookup_ge_None. apply lookup_ge_None in Hr.
    apply (f_equal length) in Hk. rewrite !length_fmap in Hk. lia.
Qed.

(** X2: a slice in which no key is empty and no key occurs twice comes
    back from [UniqueByKey] as it went in. *)
Theorem UniqueByKey_distinct (x : list Mutation) :
  Forall (λ m, Key m ≠ "") x → NoDup (Key <$> x) → msort.UniqueByKey x = Ret x.
Proof.
  intros Hne Hnd. pose proof (UniqueByKey_loop_end x) as HE.
  unfold msort.UniqueByKey.
  destruct (msort.loop _ _) as [st|msg] eqn:Hl.
  - f_equal. apply same_keys_same_list; [done| |].
    + by rewrite (UniqueByKey_loop_keys x st Hl), remove_dups_NoDup.
    + destruct HE as [_ HI]. intros m [i Hi]%list_elem_of_lookup.
      rewrite lookup_drop in Hi.
      destruct (inv_slot _ _ _ HI (dest st + i)%nat m ltac:(lia) Hi)
        as (_ & Hin & _).
      by rewrite drop_0 in Hin.
  - apply Exists_exists in HE as (m & Hm & He).
    rewrite Forall_forall in Hne. by apply Hne in Hm.
Qed.

Lemma UniqueByKey_distinct_witness :
  msort.UniqueByKey [mutAt "a" 1; mutAt "b" 5] = Ret [mutAt "a" 1; mutAt "b" 5].
Proof.
  apply UniqueByKey_distinct.
  - repeat constructor; discriminate.
  - apply (bool_decide_unpack _). vm_compute. exact I.
Defined.

(** ** msort.UniqueByKey: which of several latest mutations is kept *)

Module UniqueByKeyTies.

Import msort.

Lemma later_in_rest (x0 : list Mutation) (n j' : nat) (m' : Mutation) :
  (n < j')%nat → x0 !! j' = Some m' → m' ∈ drop (S n) x0.
Proof.
  intros Hlt Hm'. apply list_elem_of_lookup. exists (j' - S n)%nat.
  rewrite lookup_drop. by replace (S n + (j' - S n))%nat with j' by lia.
Qed.

Lemma step_LastWins x0 n st st' m :
  Inv x0 (S n) st → LastWins x0 (S n) st → x0 !! n = Some m →
  step n st = Ret st' → LastWins x0 n st'.
Proof.
  intros HI HL Hm. unfold step. rewrite (inv_prefix _ _ _ HI) by lia.
  rewrite Hm. destruct (String.length (Key m) =? 0)%nat; [done|].
  assert (∀ i mi, (dest st ≤ i)%nat → xs st !! i = Some mi →
            ∃ j, (n ≤ j)%nat ∧ x0 !! j = Some mi ∧
              ∀ j' m', (j < j')%nat → x0 !! j' = Some m' → Key m' = Key mi →
                       hlc.lt (Time m') (Time mi)) as Hold.
  { intros i mi Hi Hmi. destruct (HL _ _ Hi Hmi) as (j & Hj & Hx & Hl).
    exists j. split; [lia|done]. }
  destruct (seenIdx st !! Key m) as [cur|] eqn:Hcur.
  - destruct (inv_seen _ _ _ HI _ _ Hcur) as [Hr (c & Hc & Hkc)]. rewrite Hc.
    destruct (0 <? hlc.Compare (Time m) (Time c)) eqn:Hcmp;
      intros [= <-]; [|done].
    apply Z.ltb_lt, Compare_pos in Hcmp.
    intros i mi Hi Hmi. simpl in Hi, Hmi.
    destruct (decide (i = cur)) as [->|Hne].
    + rewrite list_lookup_insert_eq in Hmi
        by (rewrite (inv_len _ _ _ HI); lia).
      injection Hmi as <-. exists n. split; [lia|]. split; [done|].
      intros j' m' Hj' Hm' Hk.
      destruct (inv_slot _ _ _ HI cur c (proj1 Hr) Hc) as (_ & _ & Hmax).
      eapply le_lt_trans; [|exact Hcmp]. apply Compare_nonpos, Hmax.
      * by eapply later_in_rest.
      * congruence.
    + rewrite list_lookup_insert_ne in Hmi by done. by apply (Hold i).
  - destruct (dest st) as [|d] eqn:Hd; [done|].
    destruct (decide (d < length (xs st))%nat) as [Hlt|]; [|done].
    intros [= <-]. intros i mi Hi Hmi. simpl in Hi, Hmi.
    destruct (decide (i = d)) as [->|Hne].
    + rewrite list_lookup_insert_eq in Hmi by done.
      injection Hmi as <-. exists n. split; [lia|]. split; [done|].
      intros j' m' Hj' Hm' Hk. exfalso.
      apply (later_in_rest _ _ _ _ Hj'), (inv_cover _ _ _ HI) in Hm'.
      rewrite Hk, Hcur in Hm'. by destruct Hm'.
    + rewrite list_lookup_insert_ne in Hmi by done. apply (Hold i); [lia|done].
Qed.

Lemma loop_LastWins x0 n st st' :
  (n ≤ length x0)%nat → Inv x0 n st → LastWins x0 n st →
  loop n st = Ret st' → LastWins x0 0 st'.
Proof.
  revert st. induction n as [|n IH]; intros st Hn HI HL; simpl.
  - by intros [= <-].
  - destruct (lookup_lt_is_Some_2 x0 n) as [m Hm]; [lia|].
    destruct (step n st) as [st1|msg] eqn:Hs; [|done].
    pose proof (step_LastWins _ _ _ _ _ HI HL Hm Hs) as HL1.
    assert (Key m ≠ "") as Hne.
    { intros He. unfold step in Hs. rewrite (inv_prefix _ _ _ HI) in Hs by lia.
      by rewrite Hm, He in Hs. }
    destruct (UniqueByKeyProof.step_Inv _ _ _ _ HI Hm Hne) as (st2 & Hs2 & HI2).
    rewrite Hs in Hs2. injection Hs2 as <-.
    apply IH; [lia|done|done].
Qed.

End UniqueByKeyTies.

(** X3: the mutation that [UniqueByKey] keeps for a key stands in the
    input at a position after which every mutation with that key is
    strictly older; so of several mutations with the latest time, the
    one latest in the slice is kept. *)
Theorem UniqueByKey_ties (x : list Mutation) :
  match msort.UniqueByKey x with
  | Ret r =>
    ∀ m, m ∈ r →
      ∃ j, x !! j = Some m ∧
           ∀ j' m', (j < j')%nat → x !! j' = Some m' → Key m' = Key m →
                    hlc.lt (Time m') (Time m)
  | Panic _ => Exists (λ m, Key m = "") x
  end.
Proof.
  pose proof (UniqueByKey_loop_end x) as HE.
  unfold msort.UniqueByKey.
  destruct (msort.loop _ _) as [st|msg] eqn:Hl; [|done].
  eapply (UniqueByKeyTies.loop_LastWins x) in Hl.
  - intros m [i Hi]%list_elem_of_lookup. rewrite lookup_drop in Hi.
    destruct (Hl (msort.dest st + i)%nat m ltac:(lia) Hi) as (j & _ & Hj & Hlt).
    by exists j.
  - done.
  - apply UniqueByKeyProof.Inv_init.
  - intros i m Hi Hm. simpl in *. apply lookup_lt_Some in Hm. lia.
Qed.

(** ** The meta-table under Mark and Record *)

Lemma samePK_key (s : Schema) (ts : hlc.Time) (r : row) :
  samePK s ts r = true ↔ (target_schema r, rowTime r) = (s, ts).
Proof.
  unfold samePK. rewrite andb_true_iff, !bool_decide_eq_true.
  split; [by intros [-> ->]|by intros [= -> ->]].
Qed.

Lemma existsb_samePK (tbl : list row) (s : Schema) (ts : hlc.Time) :
  existsb (samePK s ts) tbl = false ↔ (s, ts) ∉ keys tbl.
Proof.
  unfold keys. rewrite <- not_true_iff_false, existsb_exists.
  rewrite list_elem_of_fmap. split.
  - intros H (r & Hk & Hr). apply H. exists r.
    rewrite <- list_elem_of_In. split; [done|]. by apply samePK_key.
  - intros H (r & Hr & Hk). apply H. exists r.
    rewrite <- list_elem_of_In in Hr. split; [|done].
    symmetry. by apply samePK_key.
Qed.

Lemma rowTime_mkRow (s : Schema) (ts : hlc.Time) (a : option Z) :
  rowTime (mkRow s ts a) = ts.
Proof. by destruct ts. Qed.

Lemma keys_snoc (tbl : list row) (s : Schema) (ts : hlc.Time) (a : option Z) :
  keys (tbl ++ [mkRow s ts a]) = keys tbl ++ [(s, ts)].
Proof. unfold keys. rewrite fmap_app. simpl. by rewrite rowTime_mkRow. Qed.

Lemma keys_update (tbl : list row) (s : Schema) (ts : hlc.Time) (a : option Z) :
  keys ((λ r, if samePK s ts r then mkRow s ts a else r) <$> tbl) = keys tbl.
Proof.
  unfold keys. rewrite <- list_fmap_compose. apply list_fmap_ext.
  intros _ r _. simpl. destruct (samePK s ts r) eqn:Hpk; [|done].
  apply samePK_key in Hpk. by rewrite rowTime_mkRow.
Qed.

Lemma NoDup_snoc_fresh {A} (l : list A) (a : A) :
  NoDup l → a ∉ l → NoDup (l ++ [a]).
Proof.
  intros Hl Ha. apply NoDup_app. split; [done|]. split.
  - intros b Hb ->%list_elem_of_singleton. done.
  - apply NoDup_singleton.
Qed.

Lemma Mark_keys (fault : option string) (st : store) (s : Schema) (ts : hlc.Time) :
  NoDup (keys (metaTable st)) → NoDup (keys (metaTable (Mark fault st s ts).1)).
Proof.
  intros Hnd. destruct fault as [msg|]; [done|].
  destruct (decide (newer (metaTable st) s ts)) as [Hn|Hn].
  - rewrite (Mark_newer _ _ _ Hn). simpl. rewrite keys_snoc.
    apply NoDup_snoc_fresh; [done|]. by apply existsb_samePK, newer_fresh.
  - by rewrite (Mark_older _ _ _ Hn).
Qed.

Lemma Record_keys (fault : option string) (tbl : list row) (s : Schema)
    (ts : hlc.Time) (now : Z) :
  NoDup (keys tbl) → NoDup (keys (Record_ fault tbl s ts now).1).
Proof.
  intros Hnd. destruct fault as [msg|]; [done|]. simpl. unfold recordExec.
  destruct (existsb (samePK s ts) tbl) eqn:Hex.
  - by rewrite keys_update.
  - rewrite keys_snoc. apply NoDup_snoc_fresh; [done|]. by apply existsb_samePK.
Qed.

(** X4: whatever sequence of [Mark] and [Record] is run against an
    empty meta-table, and whichever of them the driver fails, no two
    rows of the table have the same primary key; so the INSERT of
    [Mark] and the UPSERT of [Record] never leave a duplicate. *)
Theorem store_keys_unique (ops : list storeOp) : NoDup (keys (runOps ops)).
Proof.
  unfold runOps. induction ops as [|op ops IH] using rev_ind.
  - constructor.
  - rewrite foldl_app. simpl. destruct op as [f s ts|f s ts now]; simpl.
    + by apply (Mark_keys f {| metaTable := foldl applyOp [] ops;
                               marked := None |}).
    + by apply Record_keys.
Qed.

Lemma unapplied_cons (r : row) (tbl : list row) (s : Schema) (after : hlc.Time) :
  unapplied (r :: tbl) s after =
  if decide (target_schema r = s ∧ hlc.leb after (rowTime r) = true
             ∧ target_applied_at r = None)
  then rowTime r :: unapplied tbl s after
  else unapplied tbl s after.
Proof. unfold unapplied. rewrite filter_cons. by case_decide. Qed.

Lemma unapplied_app (tbl tbl' : list row) (s : Schema) (after : hlc.Time) :
  unapplied (tbl ++ tbl') s after = unapplied tbl s after ++ unapplied tbl' s after.
Proof. unfold unapplied. by rewrite filter_app, fmap_app. Qed.

Lemma elem_of_unapplied (tbl : list row) (s : Schema) (after t : hlc.Time) :
  t ∈ unapplied tbl s after ↔
  ∃ r, r ∈ tbl ∧ target_schema r = s ∧ hlc.le after (rowTime r) ∧
       target_applied_at r = None ∧ rowTime r = t.
Proof.
  unfold unapplied. rewrite list_elem_of_fmap. split.
  - intros (r & -> & [(? & ?%leb_le & ?) ?]%list_elem_of_filter). by exists r.
  - intros (r & ? & ? & ? & ? & <-). exists r. split; [done|].
    apply list_elem_of_filter. by rewrite leb_le.
Qed.

Lemma unapplied_update (tbl : list row) (s s' : Schema) (ts after : hlc.Time)
    (now : Z) :
  unapplied ((λ r, if samePK s ts r then mkRow s ts (Some now) else r) <$> tbl)
            s' after
  = filter (λ t, ¬ (s' = s ∧ t = ts)) (unapplied tbl s' after).
Proof.
  induction tbl as [|r tbl IH]; [done|].
  rewrite fmap_cons, !unapplied_cons, IH.
  destruct (samePK s ts r) eqn:Hpk.
  - apply samePK_key in Hpk as [= Hs Ht].
    rewrite decide_False by (simpl; by intros (_ & _ & ?)).
    destruct (decide (target_schema r = s' ∧ hlc.leb after (rowTime r) = true
                      ∧ target_applied_at r = None)) as [Hc|Hc]; [|done].
    destruct Hc as (Hs' & _ & _).
    rewrite filter_cons, decide_False; [done|].
    intros H. apply H. split; congruence.
  - destruct (decide (target_schema r = s' ∧ hlc.leb after (rowTime r) = true
                      ∧ target_applied_at r = None)) as [Hc|Hc]; [|done].
    destruct Hc as (Hs' & _ & _).
    rewrite filter_cons, decide_True; [done|].
    intros [-> Ht]. apply not_true_iff_false in Hpk. apply Hpk.
    apply samePK_key. by rewrite Hs', Ht.
Qed.

Lemma filter_all {A} (P : A → Prop) `{∀ a, Decision (P a)} (l : list A) :
  Forall P l → filter P l = l.
Proof.
  induction 1 as [|a l Ha _ IH]; [done|].
  by rewrite filter_cons, decide_True, IH.
Qed.

(** X5: [Record] takes the recorded checkpoint, and nothing else, out
    of what [selectTimestamp] ranges over: for every schema and lower
    bound the unapplied times after a successful [Record] of [ts] for
    [s] are the unapplied times before it without [ts] for [s], in the
    same order; so [selectTimestamp] does not return [ts] for [s]
    again. *)
Theorem Record_applies (tbl : list row) (s s' : Schema) (ts after : hlc.Time)
    (now : Z) :
  unapplied (Record_ None tbl s ts now).1 s' after
  = filter (λ t, ¬ (s' = s ∧ t = ts)) (unapplied tbl s' after) ∧
  match selectTimestamp None (Record_ None tbl s ts now).1 s after with
  | (t, None) => t ≠ ts
  | (_, Some e) => e = ErrNoWork
  end.
Proof.
  assert (∀ s' after, unapplied (recordExec tbl s ts now) s' after
          = filter (λ t, ¬ (s' = s ∧ t = ts)) (unapplied tbl s' after)) as Hu.
  { clear s' after. intros s' after.
    unfold recordExec. destruct (existsb (samePK s ts) tbl) eqn:Hex.
    - apply unapplied_update.
    - rewrite unapplied_app, unapplied_cons.
      rewrite decide_False by (simpl; by intros (_ & _ & ?)).
      rewrite app_nil_r. symmetry. apply filter_all, Forall_forall.
      intros t (r & Hr & Hs & _ & _ & Ht)%elem_of_unapplied [-> ->].
      apply existsb_samePK in Hex. apply Hex. unfold keys.
      apply list_elem_of_fmap. exists r. by rewrite Hs, Ht. }
  split; [apply Hu|]. simpl. unfold selectTimestamp.
  destruct (least _) as [t|] eqn:Hl; [|done].
  apply least_Some in Hl as [Hin _]. rewrite Hu in Hin.
  apply list_elem_of_filter in Hin as [Hne _]. intros ->. by apply Hne.
Qed.

(** X6: a checkpoint that [Mark] has stored is found: after a [Mark]
    of a time later than every checkpoint of the schema,
    [selectTimestamp] from any lower bound up to that time returns
    work, a time between the bound and the marked time, not
    [errNoWork]. *)
Theorem Mark_then_select (st : store) (s : Schema) (ts after : hlc.Time) :
  newer (metaTable st) s ts → hlc.le after ts →
  ∃ t, selectTimestamp None (metaTable (Mark None st s ts).1) s after
       = (t, None) ∧ hlc.le after t ∧ hlc.le t ts.
Proof.
  intros Hn Hle. rewrite (Mark_newer _ _ _ Hn). simpl. unfold selectTimestamp.
  assert (ts ∈ unapplied (metaTable st ++ [mkRow s ts None]) s after) as Hin.
  { apply elem_of_unapplied. exists (mkRow s ts None). rewrite rowTime_mkRow.
    split; [|done]. apply elem_of_app. right. by apply list_elem_of_singleton. }
  destruct (least _) as [t|] eqn:Hl.
  - apply least_Some in Hl as [Ht Hmin]. exists t. split; [done|].
    split; [|by apply Hmin].
    by apply elem_of_unapplied in Ht as (r & _ & _ & ? & _ & <-).
  - apply least_None in Hl. rewrite Hl in Hin. by apply elem_of_nil in Hin.
Qed.

Lemma Mark_then_select_witness :
  ∃ t, selectTimestamp None
         (metaTable (Mark None emptyStore "s" (hlc.New 100 0)).1) "s" hlc.Zero
       = (t, None) ∧ hlc.le hlc.Zero t ∧ hlc.le t (hlc.New 100 0).
Proof.
  apply Mark_then_select.
  - constructor.
  - left. left. simpl. lia.
Defined.

(** ** The processor: what a run leaves behind *)

(** The persisted stamp after a flush: the stamp that the flush
    advanced to when it succeeded, the one before when it failed. *)
Lemma flush_point su cur tA final rs0 w0 rs' w' r :
  flush su cur tA final rs0 w0 = (rs', w', r) →
  match r with
  | Ok => consistentPoint w' = rs'
  | Fail _ => consistentPoint w' = consistentPoint w0
  end.
Proof.
  intros (evs & Hev & _ & ->)%flush_events. destruct r as [|e].
  - inversion Hev as [|? body ? ? rb Hb]; subst.
    inversion Hb as [| |? adv ? ? Hadv]; subst.
    assert (lastPersisted (oks (due su tA)) (consistentPoint w0)
            = consistentPoint w0) as Hlp.
    { apply (lastPersisted_due su tA _ []). by rewrite app_nil_r. }
    change ((CallOnBegin, Ok) :: (oks (due su tA) ++ (CallOnCommit, Ok) :: adv)
            ++ [(CallOnRollback, rb)])
      with ([(CallOnBegin, Ok)] ++ (oks (due su tA) ++ (CallOnCommit, Ok) :: adv)
            ++ [(CallOnRollback, rb)]).
    rewrite !lastPersisted_app. simpl. rewrite Hlp.
    by inversion Hadv; subst.
  - apply unpersisted_lastPersisted.
    by apply flushEvents_failedFlush in Hev as [? _].
Qed.

(** A final flush that succeeded: the stamp is the committed one that
    [NewCommitted] made, and its committed time was recorded. *)
Lemma flush_final_Ok su cur tA rs0 w0 rs' w' :
  flush su cur tA true rs0 w0 = (rs', w', Ok) →
  NewCommitted (ext su) rs0 = inr rs' ∧
  ∃ nw, resolved w' = recordExec (resolved w0) (target su) (CommittedTime rs') nw.
Proof.
  unfold flush, invoke.
  destruct (respond (env su) (hist w0) CallOnBegin); [|done].
  unfold flushBatch.
  match goal with
  | |- context [flushGroups ?e ?s ?t ?g ?w] =>
    pose proof (flushGroups_events e s t g w) as (_ & Hres & _);
    destruct (flushGroups e s t g w) as [w1 [|e1]]
  end; [|done].
  simpl in Hres. unfold setConsistentPoint, doRecord, invoke.
  destruct (respond (env su) (hist w1) CallOnCommit); [|done].
  destruct (NewCommitted (ext su) rs0) as [e|rs1]; [done|]. simpl.
  destruct (respond (env su) _ (CallRecord _)); [|done]. simpl.
  destruct (respond (env su) _ (CallSetConsistentPoint _)); [|done].
  intros [= <- <-]. split; [done|]. simpl. rewrite Hres. by eexists.
Qed.

Lemma recordExec_applied (tbl : list row) (s : Schema) (ts : hlc.Time) (nw : Z) :
  ∃ r, r ∈ recordExec tbl s ts nw ∧ target_schema r = s ∧ rowTime r = ts ∧
       target_applied_at r = Some nw.
Proof.
  exists (mkRow s ts (Some nw)). rewrite rowTime_mkRow.
  split; [|done]. unfold recordExec.
  destruct (existsb (samePK s ts) tbl) eqn:Hex.
  - apply existsb_exists in Hex as (r0 & Hr0 & Hpk).
    apply list_elem_of_fmap. exists r0. rewrite Hpk.
    split; [done|]. by apply list_elem_of_In.
  - apply elem_of_app. right. by apply list_elem_of_singleton.
Qed.

(** What the callback and [SelectMany] keep of the stamp and of the
    persisted stamp, for a property [P] that [NewProgress] keeps. *)
Lemma callback_stamp su (P : resolvedStamp → Prop) tbl mut p p' r cp0 :
  (∀ s c, P s → P (NewProgress (ext su) s c)) →
  P (rs p) → (consistentPoint (w p) = cp0 ∨ P (consistentPoint (w p))) →
  callback su tbl mut p = (p', r) →
  (consistentPoint (w p') = cp0 ∨ P (consistentPoint (w p'))) ∧
  (r = Ok → P (rs p')).
Proof.
  intros HP Hrs Hcp. unfold callback. destruct (needsFlush _ _ _ _ _).
  - destruct (flush _ _ _ _ _ _) as [[rs1 w1] r1] eqn:Hf.
    pose proof (flush_point _ _ _ _ _ _ _ _ _ Hf) as Hpt.
    apply flush_events in Hf as (evs & Hev & _).
    destruct r1 as [|e]; intros [= <- <-]; simpl.
    + apply flushEvents_interim in Hev as ->. rewrite Hpt.
      split; [right|intros _]; by apply HP.
    + rewrite Hpt. done.
  - intros [= <- <-]. done.
Qed.

Lemma SelectMany_stamp su (P : resolvedStamp → Prop) feed feedErr p p' r cp0 :
  (∀ s c, P s → P (NewProgress (ext su) s c)) →
  P (rs p) → (consistentPoint (w p) = cp0 ∨ P (consistentPoint (w p))) →
  SelectMany su feed feedErr p = (p', r) →
  (consistentPoint (w p') = cp0 ∨ P (consistentPoint (w p'))) ∧
  (r = Ok → P (rs p')).
Proof.
  intros HP. revert p.
  induction feed as [|[tbl mut|key tbl time] feed IH]; intros p Hrs Hcp; simpl.
  - by intros [= <- <-].
  - destruct (callback su tbl mut p) as [p1 r1] eqn:Hc.
    apply (callback_stamp su P _ _ _ _ _ cp0 HP Hrs Hcp) in Hc as [Hcp1 Hrs1].
    destruct r1 as [|e].
    + apply IH; [by apply Hrs1|done].
    + by intros [= <- <-].
  - apply IH; done.
Qed.

(** X7: for stamp constructors under which [NewProgress] keeps the
    committed and the proposed time and [NewCommitted] makes the
    proposed time the committed one: when [process] succeeds, the
    persisted stamp has the proposed time of the proposal as its
    committed time and that time is recorded as applied in the
    meta-table; when it fails, the persisted stamp is the one from
    before the call or still has the committed and proposed times of
    the proposal, so the committed time has not advanced. *)
Theorem process_commits (su : setup) (feed : list feedItem)
    (feedErr : option error) (rs0 : resolvedStamp) (w0 : world) :
  (∀ s c, CommittedTime (NewProgress (ext su) s c) = CommittedTime s ∧
          ProposedTime (NewProgress (ext su) s c) = ProposedTime s) →
  (∀ s s', NewCommitted (ext su) s = inr s' →
           CommittedTime s' = ProposedTime s) →
  match process su feed feedErr rs0 w0 with
  | (w', Ok) =>
    CommittedTime (consistentPoint w') = ProposedTime rs0 ∧
    ∃ r, r ∈ resolved w' ∧ target_schema r = target su ∧
         rowTime r = ProposedTime rs0 ∧ target_applied_at r ≠ None
  | (w', Fail _) =>
    consistentPoint w' = consistentPoint w0 ∨
    (CommittedTime (consistentPoint w') = CommittedTime rs0 ∧
     ProposedTime (consistentPoint w') = ProposedTime rs0)
  end.
Proof.
  intros Hprog Hcomm. unfold process.
  destruct (length (targets su) =? 0)%nat; [by left|].
  destruct (SelectMany su feed feedErr (initial su rs0 w0)) as [p r1] eqn:HS.
  apply (SelectMany_stamp su
           (λ s, CommittedTime s = CommittedTime rs0 ∧
                 ProposedTime s = ProposedTime rs0) _ _ _ _ _
           (consistentPoint w0)) in HS as [Hcp Hrs]; simpl; [| |done|by left].
  2:{ intros s c [Hc Hp]. destruct (Hprog s c) as [-> ->]. done. }
  destruct r1 as [|e]; [|done].
  destruct (Hrs eq_refl) as [_ Hp].
  destruct (flush su (cursor p) (toApply p) true (rs p) (w p))
    as [[rs' w'] r] eqn:Hf.
  pose proof (flush_point _ _ _ _ _ _ _ _ _ Hf) as Hpt.
  destruct r as [|e].
  - apply flush_final_Ok in Hf as [Hn [nw Hres]].
    apply Hcomm in Hn. rewrite Hpt, Hn, Hp. split; [done|].
    destruct (recordExec_applied (resolved (w p)) (target su)
                (CommittedTime rs') nw) as (r & Hr & Hs & Ht & Ha).
    exists r. rewrite Hres. split; [done|]. split; [done|].
    split; [congruence|]. by rewrite Ha.
  - by rewrite Hpt.
Qed.

Lemma process_commits_witness :
  CommittedTime
    (consistentPoint (process demoSetup demoFeed None demoStamp demoWorld).1)
  = ProposedTime demoStamp ∧
  ∃ r, r ∈ resolved (process demoSetup demoFeed None demoStamp demoWorld).1 ∧
       target_schema r = target demoSetup ∧
       rowTime r = ProposedTime demoStamp ∧ target_applied_at r ≠ None.
Proof.
  pose proof (process_commits demoSetup demoFeed None demoStamp demoWorld) as H.
  assert ((process demoSetup demoFeed None demoStamp demoWorld).2 = Ok) as Hok
    by (vm_compute; reflexivity).
  destruct (process demoSetup demoFeed None demoStamp demoWorld) as [w' r].
  simpl in Hok. subst r. apply H.
  - intros s c. split; reflexivity.
  - intros s s' [= <-]. reflexivity.
Defined.

(** ** The processor: every delivered mutation is handed over once *)

Lemma handed_app t (a b : list event) : handed t (a ++ b) = handed t a ++ handed t b.
Proof. unfold handed. apply bind_app. Qed.

Lemma handed_cons_data t src t' muts r (tr : list event) :
  handed t ((CallOnData src t' muts, r) :: tr)
  = (if decide (t' = t) then muts else []) ++ handed t tr.
Proof. done. Qed.

Lemma handed_cons_other t c r (tr : list event) :
  ¬ isOnData c → handed t ((c, r) :: tr) = handed t tr.
Proof. intros H. destruct c; try done. Qed.

Lemma handed_not_data t (tr : list event) :
  Forall (λ ev : event, ¬ isOnData ev.1) tr → handed t tr = [].
Proof.
  induction 1 as [|[c r] tr Hc _ IH]; [done|]. by rewrite handed_cons_other.
Qed.

(** The reply of a call does not change what was handed to it. *)
Lemma handed_reply t (cs : list call) (c : call) (e : error) :
  handed t (oks cs ++ [(c, Fail e)]) = handed t (oks (cs ++ [c])).
Proof. rewrite oks_app, !handed_app. f_equal. Qed.

Lemma handed_dueIn src tA t (tables : list Table) :
  NoDup tables →
  handed t (oks (dueIn src tA tables))
  = if decide (t ∈ tables) then GetZero tA t else [].
Proof.
  induction 1 as [|t0 tables Ht0 _ IH].
  - rewrite decide_False; [done|]. apply not_elem_of_nil.
  - rewrite dueIn_cons.
    destruct (decide (GetZero tA t0 ≠ [])) as [Hne|He].
    + rewrite oks_cons, handed_cons_data, IH.
      destruct (decide (t0 = t)) as [->|Hn].
      * rewrite decide_False by done. rewrite app_nil_r.
        rewrite decide_True; [done|]. apply elem_of_cons. by left.
      * destruct (decide (t ∈ tables)) as [Hin|Hnin].
        -- rewrite decide_True; [done|]. apply elem_of_cons. by right.
        -- rewrite decide_False; [done|].
           intros [->|?]%elem_of_cons; done.
    + rewrite IH. apply dec_stable in He.
      destruct (decide (t0 = t)) as [->|Hn].
      * rewrite decide_False by done.
        rewrite decide_True; [done|]. apply elem_of_cons. by left.
      * destruct (decide (t ∈ tables)) as [Hin|Hnin].
        -- rewrite decide_True; [done|]. apply elem_of_cons. by right.
        -- rewrite decide_False; [done|].
           intros [->|?]%elem_of_cons; done.
Qed.

Lemma handed_due su tA t :
  NoDup (concat (targets su)) → handed t (oks (due su tA)) = flushable su tA t.
Proof. intros H. unfold due, flushable. by apply handed_dueIn. Qed.

(** What a flush hands over for a table: its buffer when the flush
    succeeds, a part of it from the start in any case. *)
Lemma flushEvents_handed su cur tA rs0 final evs rs' r t :
  NoDup (concat (targets su)) →
  flushEvents su cur tA rs0 final evs rs' r →
  handed t evs `prefix_of` flushable su tA t ∧
  (r = Ok → handed t evs = flushable su tA t).
Proof.
  intros Hnd. destruct 1 as [final e|final body rs' r rb Hb].
  { split; [apply prefix_nil|done]. }
  rewrite handed_cons_other by (simpl; tauto).
  rewrite handed_app, (handed_cons_other _ CallOnRollback) by (simpl; tauto).
  change (handed t []) with (@nil Mutation). rewrite app_nil_r.
  destruct Hb as [final pre c post e Hd|final e|final adv rs' r Hadv].
  - split; [|done]. rewrite handed_reply, <- (handed_due su tA t Hnd), Hd.
    replace (pre ++ c :: post) with ((pre ++ [c]) ++ post)
      by (by rewrite <- app_assoc).
    rewrite (oks_app (pre ++ [c])), handed_app. by eexists.
  - split; [|done]. rewrite handed_app, handed_due by done.
    rewrite handed_cons_other by (simpl; tauto). simpl. by rewrite app_nil_r.
  - assert (handed t (oks (due su tA) ++ (CallOnCommit, Ok) :: adv)
            = flushable su tA t) as ->; [|done].
    rewrite handed_app, handed_due by done.
    rewrite handed_cons_other by (simpl; tauto).
    rewrite (handed_not_data t adv), app_nil_r; [done|].
    by eapply advanceEvents_not_data.
Qed.

Lemma GetZero_insert (tA : gmap Table (list Mutation)) tbl l t :
  GetZero (<[tbl := l]> tA) t = if decide (tbl = t) then l else GetZero tA t.
Proof.
  unfold GetZero. destruct (decide (tbl = t)) as [->|Hne].
  - by rewrite lookup_insert_eq.
  - by rewrite lookup_insert_ne.
Qed.

Lemma flushable_append su tA tbl mut t :
  flushable su (<[tbl := GetZero tA tbl ++ [mut]]> tA) t
  = flushable su tA t ++
    (if decide (t ∈ concat (targets su))
     then if decide (tbl = t) then [mut] else [] else []).
Proof.
  unfold flushable. case_decide; [|done]. rewrite GetZero_insert.
  destruct (decide (tbl = t)) as [->|]; [done|by rewrite app_nil_r].
Qed.

Lemma flushable_reset su tA t : flushable su (truncateAll tA) t = [].
Proof. unfold flushable. case_decide; [apply GetZero_reset|done]. Qed.

Lemma owed_cons su t tbl mut feed :
  owed su t (Deliver tbl mut :: feed)
  = (if decide (t ∈ concat (targets su))
     then if decide (tbl = t) then [AddMeta (ext su) "cdc" tbl mut] else []
     else []) ++ owed su t feed.
Proof.
  unfold owed. case_decide; [|done]. simpl.
  destruct (decide (tbl = t)) as [->|]; done.
Qed.

(** What [SelectMany] with the callback of [process] hands over for a
    table, counting what is in its buffer at the start and at the end. *)
Lemma SelectMany_handed su feedErr t :
  NoDup (concat (targets su)) →
  ∀ feed p p' r,
    SelectMany su feed feedErr p = (p', r) →
    ∃ tr, hist (w p') = hist (w p) ++ tr ∧
          handed t tr `prefix_of` flushable su (toApply p) t ++ owed su t feed ∧
          (r = Ok → handed t tr ++ flushable su (toApply p') t
                    = flushable su (toApply p) t ++ owed su t feed).
Proof.
  intros Hnd. induction feed as [|[tbl mut|key tbl time] feed IH];
    intros p p' r; simpl.
  - intros [= <- <-]. exists []. rewrite app_nil_r. split; [done|].
    split; [apply prefix_nil|]. intros _. unfold owed.
    case_decide; simpl; by rewrite app_nil_r.
  - rewrite owed_cons. unfold callback. destruct (needsFlush _ _ _ _ _).
    + destruct (flush _ _ _ _ _ _) as [[rs1 w1] r1] eqn:Hf.
      apply flush_events in Hf as (evs & Hev & Hh & _).
      pose proof (flushEvents_handed _ _ _ _ _ _ _ _ t Hnd Hev) as [Hpre Heq].
      destruct r1 as [|e].
      2:{ intros [= <- <-]. exists evs. split; [done|]. split; [|done].
          by apply prefix_app_r. }
      intros (tr2 & Hh2 & Hp2 & He2)%IH. simpl in Hh2, Hp2, He2.
      rewrite flushable_append, flushable_reset in Hp2, He2. simpl in Hp2, He2.
      exists (evs ++ tr2). rewrite Hh2, Hh, app_assoc. split; [done|].
      rewrite handed_app, (Heq eq_refl). split.
      * by apply prefix_app.
      * intros Hr. by rewrite <- app_assoc, (He2 Hr).
    + intros (tr2 & Hh2 & Hp2 & He2)%IH. simpl in Hh2, Hp2, He2.
      rewrite flushable_append, <- app_assoc in Hp2, He2.
      exists tr2. done.
  - intros (tr & Hh & Hp & He)%IH. by exists tr.
Qed.

(** X8: when no table occurs twice in the table order, the mutations
    that one run of [process] hands to [OnData] for a table are, in
    order, mutations that [SelectMany] delivered for that table, with
    their annotations: a part from the start if the run fails, all of
    them if it succeeds, none twice.  Mutations delivered for a table
    outside the order are never handed over. *)
Theorem process_hands_over (su : setup) (feed : list feedItem)
    (feedErr : option error) (rs0 : resolvedStamp) (w0 : world) (t : Table) :
  NoDup (concat (targets su)) →
  match process su feed feedErr rs0 w0 with
  | (w', r) =>
    ∃ tr, hist w' = hist w0 ++ tr ∧
          handed t tr `prefix_of` owed su t feed ∧
          (r = Ok → handed t tr = owed su t feed)
  end.
Proof.
  intros Hnd. unfold process. destruct (length (targets su) =? 0)%nat.
  { exists []. rewrite app_nil_r. split; [done|]. split; [apply prefix_nil|done]. }
  destruct (SelectMany su feed feedErr (initial su rs0 w0)) as [p r1] eqn:HS.
  apply (SelectMany_handed su feedErr t Hnd) in HS as (tr1 & Hh1 & Hp1 & He1).
  simpl in Hh1, Hp1, He1.
  assert (flushable su ∅ t = []) as Hemp.
  { unfold flushable. by case_decide. }
  rewrite Hemp in Hp1, He1. simpl in Hp1, He1.
  destruct r1 as [|e]; [|by exists tr1].
  destruct (flush su (cursor p) (toApply p) true (rs p) (w p))
    as [[rs' w'] r] eqn:Hf.
  apply flush_events in Hf as (evs & Hev & Hh & _).
  pose proof (flushEvents_handed _ _ _ _ _ _ _ _ t Hnd Hev) as [Hpre Heq].
  exists (tr1 ++ evs). rewrite Hh, Hh1, app_assoc. split; [done|].
  rewrite handed_app, <- (He1 eq_refl). split.
  - by apply prefix_app.
  - intros Hr. by rewrite (Heq Hr).
Qed.

Lemma process_hands_over_witness :
  ∃ tr, hist (process demoSetup demoFeed None demoStamp demoWorld).1
        = hist demoWorld ++ tr ∧
        handed "p" tr `prefix_of` owed demoSetup "p" demoFeed ∧
        ((process demoSetup demoFeed None demoStamp demoWorld).2 = Ok →
         handed "p" tr = owed demoSetup "p" demoFeed).
Proof.
  pose proof (process_hands_over demoSetup demoFeed None demoStamp demoWorld "p")
    as H.
  destruct (process demoSetup demoFeed None demoStamp demoWorld) as [w' r].
  apply H. apply (bool_decide_unpack _). vm_compute. exact I.
Defined.

(** ** The reader: one proposal at a time *)

Lemma gated_offer_then (armed : bool) (a : list action) s r
    (b : list action) (x : action) (c : list action) :
  gated armed (a ++ Offer s r :: b ++ x :: c) →
  needsPoint x → ∃ t, RetirementsSet t ∈ b.
Proof.
  intros Hg Hx. revert armed Hg.
  induction a as [|[t|after|s' r'] a IH]; intros armed; simpl.
  - intros [_ Hg]. clear armed. induction b as [|[t|after|s' r'] b IHb].
    + simpl in Hg. by destruct x; [destruct Hx|destruct Hg..].
    + exists t. apply elem_of_cons. by left.
    + simpl in Hg. by destruct Hg.
    + simpl in Hg. by destruct Hg.
  - apply IH.
  - intros [_ Hg]. by eapply IH.
  - intros [_ Hg]. by eapply IH.
Qed.

Lemma gated_weaken (acts : list action) : gated false acts → gated true acts.
Proof. destruct acts as [|[t|after|s r] acts]; simpl; [done|done|by intros []..]. Qed.

(** The loop queries and offers only while it holds a point to resume
    from. *)
Lemma readLoop_gated x tgt backfill script :
  ∀ resumeFrom,
    gated (bool_decide (is_Some resumeFrom))
          (readLoop x tgt backfill script resumeFrom).1.
Proof.
  induction script as [|t script IH]; intros resumeFrom; [done|].
  simpl. unfold propose, await.
  destruct resumeFrom as [rf|].
  - destruct (decide (ProposedTime rf ≠ hlc.Zero)) as [Hp|Hp].
    + destruct (send t); simpl; [|done..].
      destruct (wakeup t) as [next| | | |e]; simpl; [|specialize (IH None)..|done|done].
      * destruct (decide (ProposedTime next = hlc.Zero)).
        -- specialize (IH (Some next)).
           destruct (readLoop x tgt backfill script (Some next)). simpl in *.
           done.
        -- specialize (IH None).
           destruct (readLoop x tgt backfill script None). simpl in *. done.
      * destruct (readLoop x tgt backfill script None). simpl in *. done.
      * destruct (readLoop x tgt backfill script None). simpl in *. done.
    + destruct (nextProposedStamp x (fault t) (table t) tgt rf backfill)
        as [e|proposed].
      * destruct (decide (e = ErrNoWork)); [|done].
        destruct (wakeup t) as [next| | | |e']; simpl;
          [|specialize (IH (Some rf))..|done|done].
        -- destruct (decide (ProposedTime next = hlc.Zero)).
           ++ specialize (IH (Some next)).
              destruct (readLoop x tgt backfill script (Some next)).
              simpl in *. done.
           ++ specialize (IH (Some rf)).
              destruct (readLoop x tgt backfill script (Some rf)).
              simpl in *. done.
        -- destruct (readLoop x tgt backfill script (Some rf)). simpl in *. done.
        -- destruct (readLoop x tgt backfill script (Some rf)). simpl in *. done.
      * destruct (send t); simpl; [|done..].
        destruct (wakeup t) as [next| | | |e']; simpl;
          [|specialize (IH None)..|done|done].
        -- destruct (decide (ProposedTime next = hlc.Zero)).
           ++ specialize (IH (Some next)).
              destruct (readLoop x tgt backfill script (Some next)).
              simpl in *. done.
           ++ specialize (IH None).
              destruct (readLoop x tgt backfill script None). simpl in *. done.
        -- destruct (readLoop x tgt backfill script None). simpl in *. done.
        -- destruct (readLoop x tgt backfill script None). simpl in *. done.
  - simpl. destruct (wakeup t) as [next| | | |e']; simpl;
      [|specialize (IH None)..|done|done].
    + destruct (decide (ProposedTime next = hlc.Zero)).
      * specialize (IH (Some next)).
        destruct (readLoop x tgt backfill script (Some next)). simpl in *. done.
      * specialize (IH None).
        destruct (readLoop x tgt backfill script None). simpl in *. done.
    + destruct (readLoop x tgt backfill script None). simpl in *. done.
    + destruct (readLoop x tgt backfill script None). simpl in *. done.
Qed.

Lemma readInto_gated x tgt backfill cp script :
  gated true (readInto x tgt backfill cp script).1.
Proof.
  unfold readInto.
  pose proof (readLoop_gated x tgt backfill script (Some cp)) as H.
  destruct (readLoop x tgt backfill script (Some cp)) as [acts ex].
  simpl in *. by destruct (decide (CommittedTime cp ≠ hlc.Zero)).
Qed.

(** X9: once the reader has offered a stamp, it neither queries the
    meta-table nor offers another stamp before it has seen the
    consistent point in a committed state, which is when it sets the
    retirements: at most one proposal is outstanding. *)
Theorem readInto_one_outstanding (x : Externals) (tgt : Schema)
    (backfill : bool) (cp : resolvedStamp) (script : list tick)
    (a : list action) (s : resolvedStamp) (r : sendResult)
    (b : list action) (y : action) (c : list action) :
  (readInto x tgt backfill cp script).1 = a ++ Offer s r :: b ++ y :: c →
  needsPoint y →
  ∃ t, RetirementsSet t ∈ b.
Proof.
  intros Hacts Hy. pose proof (readInto_gated x tgt backfill cp script) as Hg.
  rewrite Hacts in Hg. by eapply gated_offer_then.
Qed.

Lemma readInto_one_outstanding_witness :
  ∃ t, RetirementsSet t ∈ [RetirementsSet (hlc.New 10 0)].
Proof.
  eapply (readInto_one_outstanding specExternals "s" false
            (consistentPoint demoWorld) twoProposals
            [Query hlc.Zero] _ Sent [RetirementsSet (hlc.New 10 0)]
            (Query (hlc.New 10 0))).
  - vm_compute. reflexivity.
  - exact I.
Defined.

(** ** The reader: where its proposals come from *)

Ltac split_in H :=
  lazymatch type of H with
  | _ ∈ _ :: _ =>
    apply elem_of_cons in H as [H|H]; [try discriminate H | split_in H]
  | _ ∈ [] => by apply elem_of_nil in H
  | _ => idtac
  end.

(** An offer of the loop is the stamp it resumes from, when that one
    has a proposed time, or a proposal made from a stamp without one:
    the one it resumes from, or one that an update of the consistent
    point brought. *)
Lemma readLoop_offers x tgt backfill script :
  ∀ resumeFrom s r,
    Offer s r ∈ (readLoop x tgt backfill script resumeFrom).1 →
    (resumeFrom = Some s ∧ ProposedTime s ≠ hlc.Zero) ∨
    ∃ t rf, t ∈ script ∧ ProposedTime rf = hlc.Zero ∧
            (resumeFrom = Some rf ∨
             ∃ t', t' ∈ script ∧ wakeup t' = CpUpdated rf) ∧
            nextProposedStamp x (fault t) (table t) tgt rf backfill = inr s.
Proof.
  induction script as [|t script IH]; intros resumeFrom s r.
  { by intros ?%elem_of_nil. }
  assert (∀ resume2,
            (∀ rf2, resume2 = Some rf2 →
                    ProposedTime rf2 = hlc.Zero ∧
                    (resumeFrom = Some rf2 ∨ wakeup t = CpUpdated rf2)) →
            Offer s r ∈ (readLoop x tgt backfill script resume2).1 →
            (resumeFrom = Some s ∧ ProposedTime s ≠ hlc.Zero) ∨
            ∃ t0 rf, t0 ∈ t :: script ∧ ProposedTime rf = hlc.Zero ∧
                     (resumeFrom = Some rf ∨
                      ∃ t', t' ∈ t :: script ∧ wakeup t' = CpUpdated rf) ∧
                     nextProposedStamp x (fault t0) (table t0) tgt rf backfill
                     = inr s) as Htail.
  { intros resume2 H2 [[-> Hp]|(t0 & rf & Ht0 & Hz & Hsrc & Hn)]%IH.
    - by destruct (H2 s eq_refl).
    - right. exists t0, rf. split; [apply elem_of_cons; by right|].
      split; [done|]. split; [|done].
      destruct Hsrc as [->|(t' & Ht' & Hw)].
      + destruct (H2 rf eq_refl) as [_ [?|?]]; [by left|].
        right. exists t. split; [apply elem_of_cons; by left|done].
      + right. exists t'. split; [apply elem_of_cons; by right|done]. }
  simpl. unfold propose, await.
  destruct resumeFrom as [rf|].
  - destruct (decide (ProposedTime rf ≠ hlc.Zero)) as [Hp|Hp%dec_stable].
    + destruct (send t); simpl.
      2,3: by intros [[= -> ->]|?%elem_of_nil]%elem_of_cons; left.
      destruct (wakeup t) as [next| | | |e] eqn:Hw; simpl.
      1: destruct (decide (ProposedTime next = hlc.Zero)).
      1: destruct (readLoop x tgt backfill script (Some next)) as [more ex] eqn:Hm.
      2-4: destruct (readLoop x tgt backfill script None) as [more ex] eqn:Hm.
      all: simpl; intros Hin; split_in Hin.
      all: try (injection Hin as -> ->; by left).
      * apply (Htail (Some next)); [|by rewrite Hm]. intros ? [= <-]. by split; [|right].
      * apply (Htail None); [|by rewrite Hm]. by intros ? [=].
      * apply (Htail None); [|by rewrite Hm]. by intros ? [=].
      * apply (Htail None); [|by rewrite Hm]. by intros ? [=].
    + destruct (nextProposedStamp x (fault t) (table t) tgt rf backfill)
        as [e|proposed] eqn:Hn.
      * destruct (decide (e = ErrNoWork)); simpl.
        2:{ intros Hin. split_in Hin. }
        destruct (wakeup t) as [next| | | |e'] eqn:Hw; simpl.
        1: destruct (decide (ProposedTime next = hlc.Zero)).
        1: destruct (readLoop x tgt backfill script (Some next)) as [more ex] eqn:Hm.
        2-4: destruct (readLoop x tgt backfill script (Some rf)) as [more ex] eqn:Hm.
        all: simpl; intros Hin; split_in Hin.
        -- apply (Htail (Some next)); [|by rewrite Hm]. intros ? [= <-]. by split; [|right].
        -- apply (Htail (Some rf)); [|by rewrite Hm]. intros ? [= <-]. by split; [|left].
        -- apply (Htail (Some rf)); [|by rewrite Hm]. intros ? [= <-]. by split; [|left].
        -- apply (Htail (Some rf)); [|by rewrite Hm]. intros ? [= <-]. by split; [|left].
      * assert (∀ r', Offer s r = Offer proposed r' →
                  (Some rf = Some s ∧ ProposedTime s ≠ hlc.Zero) ∨
                  ∃ t0 rf0, t0 ∈ t :: script ∧ ProposedTime rf0 = hlc.Zero ∧
                     (Some rf = Some rf0 ∨
                      ∃ t', t' ∈ t :: script ∧ wakeup t' = CpUpdated rf0) ∧
                     nextProposedStamp x (fault t0) (table t0) tgt rf0 backfill
                     = inr s) as Hhead.
        { intros r' [= -> ->]. right. exists t, rf.
          split; [apply elem_of_cons; by left|]. split; [done|].
          split; [by left|done]. }
        destruct (send t); simpl.
        2,3: intros Hin; split_in Hin; by eapply Hhead.
        destruct (wakeup t) as [next| | | |e'] eqn:Hw; simpl.
        1: destruct (decide (ProposedTime next = hlc.Zero)).
        1: destruct (readLoop x tgt backfill script (Some next)) as [more ex] eqn:Hm.
        2-4: destruct (readLoop x tgt backfill script None) as [more ex] eqn:Hm.
        all: simpl; intros Hin; split_in Hin.
        all: try by eapply Hhead.
        -- apply (Htail (Some next)); [|by rewrite Hm]. intros ? [= <-]. by split; [|right].
        -- apply (Htail None); [|by rewrite Hm]. by intros ? [=].
        -- apply (Htail None); [|by rewrite Hm]. by intros ? [=].
        -- apply (Htail None); [|by rewrite Hm]. by intros ? [=].
  - simpl. destruct (wakeup t) as [next| | | |e'] eqn:Hw; simpl.
    1: destruct (decide (ProposedTime next = hlc.Zero)).
    1: destruct (readLoop x tgt backfill script (Some next)) as [more ex] eqn:Hm.
    2-4: destruct (readLoop x tgt backfill script None) as [more ex] eqn:Hm.
    all: simpl; intros Hin; split_in Hin.
    + apply (Htail (Some next)); [|by rewrite Hm]. intros ? [= <-]. by split; [|right].
    + apply (Htail None); [|by rewrite Hm]. by intros ? [=].
    + apply (Htail None); [|by rewrite Hm]. by intros ? [=].
    + apply (Htail None); [|by rewrite Hm]. by intros ? [=].
Qed.

Lemma nextProposedStamp_backfill x fault tbl tgt prev s :
  nextProposedStamp x fault tbl tgt prev true = inr s → Backfill s = true.
Proof.
  unfold nextProposedStamp.
  destruct (selectTimestamp fault tbl tgt (CommittedTime prev)) as [ts [e|]];
    [done|].
  destruct (NewProposed x prev ts); [done|]. by intros [= <-].
Qed.

(** X10: every stamp that the reader offers is either the stamp it
    started from, when that one has a proposed time, or the result of
    [nextProposedStamp] on a stamp without a proposed time that it
    started from or that an update of the consistent point brought;
    in backfill mode such a proposal has the backfill flag set. *)
Theorem readInto_offers (x : Externals) (tgt : Schema) (backfill : bool)
    (cp : resolvedStamp) (script : list tick) :
  Forall (λ s,
            (s = cp ∧ ProposedTime cp ≠ hlc.Zero) ∨
            ∃ t rf, t ∈ script ∧ seenCommitted cp script rf ∧
                    nextProposedStamp x (fault t) (table t) tgt rf backfill
                    = inr s ∧
                    (backfill = true → Backfill s = true))
         (offers (readInto x tgt backfill cp script).1).
Proof.
  apply Forall_forall. intros s Hs. unfold offers in Hs.
  apply list_elem_of_omap in Hs as (a & Ha & Hs).
  destruct a as [| |s' r]; [done..|]. injection Hs as ->.
  unfold readInto in Ha.
  destruct (readLoop x tgt backfill script (Some cp)) as [acts ex] eqn:Hl.
  simpl in Ha. apply elem_of_app in Ha as [Ha|Ha].
  { destruct (decide (CommittedTime cp ≠ hlc.Zero)); split_in Ha. }
  pose proof (readLoop_offers x tgt backfill script (Some cp) s r) as H.
  rewrite Hl in H.
  destruct (H Ha) as [[[= ->] Hp]|(t & rf & Ht & Hz & Hsrc & Hn)]; [by left|].
  right. exists t, rf. split; [done|]. split.
  - split; [done|]. destruct Hsrc as [[= ->]|?]; [by left|by right].
  - split; [done|]. intros ->. by eapply nextProposedStamp_backfill.
Qed.

(** ** The retire loop: which tables are retired, and how far *)

Lemma wrap64_id (z : Z) : - 2 ^ 63 ≤ z < 2 ^ 63 → wrap64 z = z.
Proof. intros H. unfold wrap64. rewrite Z.mod_small; lia. Qed.

(** X11: when neither [stagers.Get] nor [Retire] reports a
    cancellation, one pass over the tables calls [Retire] for every
    table whose stager could be acquired, in the order of the tables,
    and ends without an error: no other error stops the pass. *)
Theorem retireRange_covers (c : Config) (sg : Stagers) (tables : list Table)
    (next : hlc.Time) :
  (∀ t, getStager sg t ≠ Some ErrCanceled) →
  (∀ t b, retire sg t b ≠ Some ErrCanceled) →
  (retireRange c sg tables next).1.1.*1
  = filter (λ t, getStager sg t = None) tables ∧
  (retireRange c sg tables next).2 = None.
Proof.
  intros Hget Hret. revert next.
  induction tables as [|tbl tables IH]; intros next; [done|]. simpl.
  destruct (getStager sg tbl) as [e|] eqn:Hg.
  - destruct (decide (e = ErrCanceled)) as [->|_]; [by destruct (Hget tbl)|].
    rewrite filter_cons_False by (by rewrite Hg). apply IH.
  - rewrite filter_cons_True by done.
    assert (match retire sg tbl (retain c next) with
            | Some e => if decide (e = ErrCanceled) then Some e else None
            | None => None
            end = None) as ->.
    { destruct (retire sg tbl (retain c next)) as [e|] eqn:Hr; [|done].
      destruct (decide (e = ErrCanceled)) as [->|_]; [|done].
      by destruct (Hret tbl (retain c next)). }
    destruct (IH (retain c next)) as [IH1 IH2].
    destruct (retireRange c sg tables (retain c next)) as [[calls last] r].
    simpl in *. split; [|done]. f_equal. exact IH1.
Qed.

Lemma retireRange_covers_witness :
  (retireRange keepFive flaky ["a"; "b"; "c"] (hlc.New 100 0)).1.1.*1
  = filter (λ t, getStager flaky t = None) ["a"; "b"; "c"] ∧
  (retireRange keepFive flaky ["a"; "b"; "c"] (hlc.New 100 0)).2 = None.
Proof.
  apply retireRange_covers.
  - intros t. simpl. by destruct (decide (t = "b")).
  - intros t b. simpl. by destruct (decide (t = "a")).
Defined.

(** The bounds stay in [int64] when the offset is taken off once per
    table. *)
Lemma retain_bounds (c : Config) (next : hlc.Time) :
  - 2 ^ 63 ≤ hlc.Nanos next - Z.max 0 (RetireOffset c) →
  hlc.Nanos next < 2 ^ 63 →
  hlc.Nanos (retain c next) = hlc.Nanos next - Z.max 0 (RetireOffset c) ∧
  hlc.Logical (retain c next) = hlc.Logical next.
Proof.
  intros Hlo Hhi. unfold retain.
  destruct (Z.ltb_spec 0 (RetireOffset c)); simpl.
  - rewrite wrap64_id by lia. lia.
  - lia.
Qed.

(** X12: as long as taking the offset off once per table does not
    leave [int64], every bound that a pass hands to [Retire] has the
    logical part of the committed time [next] and lies at least one
    [RetireOffset] before it: staged data is kept for at least the
    offset. *)
Theorem retireRange_retains (c : Config) (sg : Stagers) (tables : list Table)
    (next : hlc.Time) :
  - 2 ^ 63 ≤ hlc.Nanos next - Z.of_nat (length tables) * Z.max 0 (RetireOffset c) →
  hlc.Nanos next < 2 ^ 63 →
  Forall (λ call : Table * hlc.Time,
            hlc.Logical call.2 = hlc.Logical next ∧
            hlc.Nanos next - Z.of_nat (length tables) * Z.max 0 (RetireOffset c)
            ≤ hlc.Nanos call.2
            ≤ hlc.Nanos next - Z.max 0 (RetireOffset c))
         (retireRange c sg tables next).1.1.
Proof.
  revert next. induction tables as [|tbl tables IH]; intros next Hlo Hhi.
  { constructor. }
  simpl length in *. simpl retireRange.
  assert (0 ≤ Z.max 0 (RetireOffset c)) as Hoff by lia.
  destruct (getStager sg tbl) as [e|].
  - destruct (decide (e = ErrCanceled)); [constructor|].
    eapply Forall_impl; [apply IH; [nia|done]|].
    simpl. intros call [Hl Hn]. split; [done|]. nia.
  - destruct (retain_bounds c next) as [Hn Hl]; [nia|done|].
    assert (Forall (λ call : Table * hlc.Time,
              hlc.Logical call.2 = hlc.Logical next ∧
              hlc.Nanos next
              - Z.of_nat (S (length tables)) * Z.max 0 (RetireOffset c)
              ≤ hlc.Nanos call.2
              ≤ hlc.Nanos next - Z.max 0 (RetireOffset c))
             (retireRange c sg tables (retain c next)).1.1) as Hrest.
    { eapply Forall_impl; [apply IH; [rewrite Hn; nia|rewrite Hn; lia]|].
      simpl. intros call [Hl' Hn']. rewrite Hl', Hl. split; [done|].
      rewrite Hn in Hn'. nia. }
    assert (hlc.Logical (retain c next) = hlc.Logical next ∧
            hlc.Nanos next
            - Z.of_nat (S (length tables)) * Z.max 0 (RetireOffset c)
            ≤ hlc.Nanos (retain c next)
            ≤ hlc.Nanos next - Z.max 0 (RetireOffset c)) as Hhead.
    { split; [done|]. rewrite Hn. nia. }
    destruct (retire sg tbl (retain c next)) as [e|].
    + destruct (decide (e = ErrCanceled)).
      * simpl. by constructor.
      * destruct (retireRange c sg tables (retain c next)) as [[calls last] r].
        simpl in *. by constructor.
    + destruct (retireRange c sg tables (retain c next)) as [[calls last] r].
      simpl in *. by constructor.
Qed.

Lemma retireRange_retains_witness :
  Forall (λ call : Table * hlc.Time,
            hlc.Logical call.2 = hlc.Logical (hlc.New 100 0) ∧
            hlc.Nanos (hlc.New 100 0)
            - Z.of_nat (length ["a"; "b"; "c"]) * Z.max 0 (RetireOffset keepFive)
            ≤ hlc.Nanos call.2
            ≤ hlc.Nanos (hlc.New 100 0) - Z.max 0 (RetireOffset keepFive))
         (retireRange keepFive flaky ["a"; "b"; "c"] (hlc.New 100 0)).1.1.
Proof.
  apply retireRange_retains.
  - vm_compute. discriminate.
  - reflexivity.
Defined.

(** ** The processor with FlushEveryTimestamp: one flush per time *)

(** The flush predicate outside backfill with [FlushEveryTimestamp]. *)
Lemma needsFlush_every (c : Config) (s : resolvedStamp) (counter : Z)
    (ep : hlc.Time) (mut : Mutation) :
  Backfill s = false → FlushEveryTimestamp c = true →
  needsFlush c s counter ep mut = true
  ↔ ep ≠ hlc.Zero ∧ hlc.lt ep (Time mut).
Proof.
  intros Hb Hf. unfold needsFlush. rewrite Hb, Hf.
  rewrite andb_true_iff, negb_true_iff, bool_decide_eq_false, Z.ltb_lt.
  by rewrite Compare_pos.
Qed.

(** Outside backfill, both flush predicates ask for a later time. *)
Lemma needsFlush_later (c : Config) (s : resolvedStamp) (counter : Z)
    (ep : hlc.Time) (mut : Mutation) :
  Backfill s = false → needsFlush c s counter ep mut = true →
  hlc.lt ep (Time mut).
Proof.
  intros Hb. destruct (FlushEveryTimestamp c) eqn:Hf.
  - by intros [_ ?]%needsFlush_every.
  - by intros [_ ?]%needsFlush_default.
Qed.

(** With [FlushEveryTimestamp], mutations delivered in HLC order and
    none at [hlc.Zero], the buffers hold one time only, and so does
    every flush. *)
Lemma SelectMany_single su feedErr :
  FlushEveryTimestamp (cfg su) = true →
  (∀ s c, Backfill (NewProgress (ext su) s c) = Backfill s) →
  ∀ feed p p' r n,
    Backfill (rs p) = false →
    inOrder (delivered feed) →
    Forall (λ m, Time m ≠ hlc.Zero) (delivered feed) →
    (∀ b, buffered (toApply p) b → Time b = epoch p ∧ epoch p ≠ hlc.Zero) →
    (∀ b m, buffered (toApply p) b → m ∈ delivered feed →
            hlc.le (Time b) (Time m)) →
    SelectMany su feed feedErr p = (p', r) →
    ∃ tr, hist (w p') = hist (w p) ++ tr ∧
          (∀ i m, (i, m) ∈ tagged n tr → (n < i ≤ n + begins tr)%nat) ∧
          (∀ i m m', (i, m) ∈ tagged n tr → (i, m') ∈ tagged n tr →
                     Time m = Time m') ∧
          (r = Ok → ∀ b b', buffered (toApply p') b → buffered (toApply p') b' →
                            Time b = Time b').
Proof.
  intros Hfe Hext.
  induction feed as [|[tbl mut|key tbl time] feed IH];
    intros p p' r n Hb Hord Hnz H1 H2; simpl.
  - intros [= <- <-]. exists []. rewrite app_nil_r. split; [done|].
    split; [by intros i m ?%elem_of_nil|].
    split; [by intros i m m' ?%elem_of_nil|].
    intros _ b b' [-> _]%H1 [-> _]%H1. done.
  - change (delivered (Deliver tbl mut :: feed)) with (mut :: delivered feed)
      in Hord, Hnz, H2.
    apply inOrder_cons in Hord as [Hord Hmut].
    apply Forall_cons in Hnz as [Hmz Hnz].
    unfold callback. destruct (needsFlush _ _ _ _ _) eqn:Hnf.
    + destruct (flush _ _ _ _ _ _) as [[rs1 w1] r1] eqn:Hf.
      apply flush_events in Hf as (evs & Hev & Hh & _).
      pose proof (flushEvents_tagged _ _ _ _ _ _ _ _ n Hev) as [Hbeg Htag].
      assert (∀ i m m', (i, m) ∈ tagged n evs → (i, m') ∈ tagged n evs →
                        Time m = Time m') as Hone.
      { intros i m m' [_ [-> _]%H1]%Htag [_ [-> _]%H1]%Htag. done. }
      destruct r1 as [|e].
      2:{ intros [= <- <-]. exists evs. split; [done|]. split; [|done].
          intros i m [-> _]%Htag. lia. }
      apply flushEvents_interim in Hev as ->.
      intros HS. apply (IH _ _ _ (S n)) in HS as (tr2 & Hh2 & Hi2 & Ho2 & Hok2);
        simpl.
      2:{ by rewrite Hext. }
      2,3: done.
      2:{ intros b [Hb'| ->]%buffered_append; [by apply buffered_reset in Hb'|].
          done. }
      2:{ intros b m [Hb'| ->]%buffered_append Hm;
            [by apply buffered_reset in Hb'|]. by apply Hmut. }
      simpl in Hh2, Hok2.
      exists (evs ++ tr2). rewrite Hh2, Hh, app_assoc. split; [done|].
      rewrite tagged_app, begins_app, Hbeg, Nat.add_1_r. split; [|split; [|done]].
      * intros i m [[-> _]%Htag|?%Hi2]%elem_of_app; lia.
      * intros i m m' [Hi|Hi]%elem_of_app [Hj|Hj]%elem_of_app.
        -- by eapply Hone.
        -- apply Htag in Hi as [-> _]. apply Hi2 in Hj. lia.
        -- apply Htag in Hj as [-> _]. apply Hi2 in Hi. lia.
        -- by eapply Ho2.
    + intros HS. apply (IH _ _ _ n) in HS as (tr2 & Hh2 & Hi2 & Ho2 & Hok2);
        simpl; [by exists tr2|done..| |].
      * intros b [Hbuf| ->]%buffered_append; [|done].
        destruct (H1 b Hbuf) as [Hbe Hez]. split; [|done].
        destruct (H2 b mut Hbuf) as [Hlt|Heq]; [apply elem_of_cons; by left| |done].
        rewrite Hbe in Hlt.
        assert (needsFlush (cfg su) (rs p) (flushCounter p) (epoch p) mut = true)
          as Hyes by (by apply needsFlush_every).
        by rewrite Hyes in Hnf.
      * intros b m [Hbuf| ->]%buffered_append Hm; [|by apply Hmut].
        apply H2; [done|]. apply elem_of_cons. by right.
  - intros HS. by apply (IH _ _ _ n) in HS.
Qed.

(** X14: outside backfill and with [FlushEveryTimestamp], when the
    mutations are delivered in HLC order and none has the time
    [hlc.Zero], two mutations handed to [OnData] are handed over by
    the same flush exactly when they have the same time: every flush
    carries the mutations of one timestamp, and no timestamp is split
    over two flushes. *)
Theorem every_timestamp_flushes (su : setup) (feed : list feedItem)
    (feedErr : option error) (rs0 : resolvedStamp) (w0 : world) :
  Backfill rs0 = false →
  FlushEveryTimestamp (cfg su) = true →
  (∀ s c, Backfill (NewProgress (ext su) s c) = Backfill s) →
  inOrder (delivered feed) →
  Forall (λ m, Time m ≠ hlc.Zero) (delivered feed) →
  ∀ tr i j m m',
    hist (process su feed feedErr rs0 w0).1 = hist w0 ++ tr →
    (i, m) ∈ tagged 0 tr → (j, m') ∈ tagged 0 tr →
    (i = j ↔ Time m = Time m').
Proof.
  intros Hb Hfe Hext Hord Hnz tr i j m m' Hh Hi Hj.
  unfold process in Hh. destruct (length (targets su) =? 0)%nat.
  { simpl in Hh. rewrite <- (app_nil_r (hist w0)) in Hh at 1.
    apply app_inv_head in Hh as <-. by apply elem_of_nil in Hi. }
  destruct (SelectMany su feed feedErr (initial su rs0 w0)) as [p r1] eqn:HS.
  pose proof HS as HS'.
  apply (SelectMany_epochs_when su feedErr) with (n := 0%nat) in HS
    as (tr1 & Hh1 & [Ha1 Ho1] & Hok1); try done.
  2:{ intros s counter ep mut. apply needsFlush_later. }
  2:{ simpl. intros b Hbuf. by apply buffered_empty in Hbuf. }
  2:{ simpl. intros b m0 Hbuf. by apply buffered_empty in Hbuf. }
  apply (SelectMany_single su feedErr Hfe Hext) with (n := 0%nat) in HS'
    as (tr1' & Hh1' & Hi1 & Hs1 & Hsok); try done.
  2:{ simpl. intros b Hbuf. by apply buffered_empty in Hbuf. }
  2:{ simpl. intros b m0 Hbuf. by apply buffered_empty in Hbuf. }
  rewrite Hh1 in Hh1'. apply app_inv_head in Hh1' as <-.
  simpl in Hh1. destruct r1 as [|e].
  2:{ simpl in Hh. rewrite Hh1 in Hh. apply app_inv_head in Hh as <-. split.
      - intros <-. by eapply Hs1.
      - revert Hi Hj. by apply ordered_no_split. }
  destruct (Hok1 eq_refl) as [_ [Hc1 _]].
  destruct (flush su (cursor p) (toApply p) true (rs p) (w p))
    as [[rs' w'] r] eqn:Hf.
  apply flush_events in Hf as (evs & Hev & Hh2 & _).
  pose proof (flushEvents_tagged _ _ _ _ _ _ _ _ (begins tr1) Hev) as [_ Htag].
  simpl in Hh. rewrite Hh2, Hh1, <- app_assoc in Hh.
  apply app_inv_head in Hh as <-. rewrite tagged_app in Hi, Hj. simpl in Hi, Hj.
  split.
  - intros <-. apply elem_of_app in Hi as [Hi|Hi], Hj as [Hj|Hj].
    + by eapply Hs1.
    + apply Htag in Hj as [-> _]. apply Hi1 in Hi. lia.
    + apply Htag in Hi as [-> _]. apply Hi1 in Hj. lia.
    + apply Htag in Hi as [_ Hbi]. apply Htag in Hj as [_ Hbj].
      by apply (Hsok eq_refl).
  - assert (∀ i j m m',
              (i, m) ∈ tagged 0 tr1 ++ tagged (begins tr1) evs →
              (j, m') ∈ tagged 0 tr1 ++ tagged (begins tr1) evs →
              (i < j)%nat → hlc.lt (Time m) (Time m')) as Hlater.
    { clear i j m m' Hi Hj.
      intros i j m m' [Hi|Hi]%elem_of_app [Hj|Hj]%elem_of_app Hij.
      + by eapply Ho1.
      + destruct (Htag _ _ Hj) as [-> Hm']. by eapply Hc1.
      + destruct (Htag _ _ Hi) as [-> _]. destruct (Ha1 _ _ Hj) as [Hr _]. lia.
      + destruct (Htag _ _ Hi) as [-> _]. destruct (Htag _ _ Hj) as [-> _]. lia. }
    revert Hi Hj. by apply ordered_no_split.
Qed.

Lemma every_timestamp_flushes_witness :
  inOrder (delivered demoFeed) ∧
  ∀ tr i j m m',
    hist (process everySetup demoFeed None demoStamp demoWorld).1
    = hist demoWorld ++ tr →
    (i, m) ∈ tagged 0 tr → (j, m') ∈ tagged 0 tr →
    (i = j ↔ Time m = Time m').
Proof.
  split; [exact demoFeed_inOrder|].
  apply every_timestamp_flushes;
    [reflexivity|reflexivity|intros; reflexivity|exact demoFeed_inOrder|].
  repeat first [ apply Forall_nil_2 | apply Forall_cons_2 ];
    intros E; discriminate E.
Defined.

(** ** The processor in backfill mode: bounded flushes *)

Lemma tagged_volume (n : nat) (tr : list event) :
  length (tagged n tr) = volume tr.
Proof.
  unfold volume. generalize 0%nat. revert n.
  induction tr as [|[c r] tr IH]; intros n k; [done|].
  destruct c; simpl; rewrite ?length_app, ?length_fmap; auto.
Qed.

Lemma volume_app (a b : list event) : volume (a ++ b) = (volume a + volume b)%nat.
Proof.
  unfold volume at 1. by rewrite tagged_app, length_app, !tagged_volume.
Qed.

Lemma volume_cons (c : call) (r : reply) (tr : list event) :
  volume ((c, r) :: tr)
  = (match c with CallOnData _ _ muts => length muts | _ => 0 end
     + volume tr)%nat.
Proof.
  unfold volume at 1. destruct c; simpl;
    rewrite ?length_app, ?length_fmap, !tagged_volume; done.
Qed.

Lemma volume_not_data (tr : list event) :
  Forall (λ ev : event, ¬ isOnData ev.1) tr → volume tr = 0%nat.
Proof.
  induction 1 as [|[c r] tr Hc _ IH]; [done|].
  rewrite volume_cons, IH. by destruct c; [|destruct Hc|..].
Qed.

Lemma volume_dueIn src tA (tables : list Table) :
  volume (oks (dueIn src tA tables))
  = sum_list ((λ t, length (GetZero tA t)) <$> tables).
Proof.
  induction tables as [|t tables IH]; [done|].
  rewrite dueIn_cons. simpl. destruct (decide (GetZero tA t ≠ [])) as [_|He].
  - by rewrite oks_cons, volume_cons, IH.
  - apply dec_stable in He. by rewrite IH, He.
Qed.

Lemma bufferedCount_delete (tA : gmap Table (list Mutation)) (t : Table) :
  bufferedCount tA = (length (GetZero tA t) + bufferedCount (delete t tA))%nat.
Proof.
  unfold GetZero. destruct (tA !! t) as [l|] eqn:Hl; simpl.
  - rewrite <- (insert_id tA t l Hl) at 1. rewrite <- insert_delete_eq.
    by rewrite bufferedCount_fresh by apply lookup_delete_eq.
  - by rewrite delete_id.
Qed.

(** What a flush can hand over at most: the buffers of distinct tables
    are distinct buffers. *)
Lemma buffers_total (tables : list Table) :
  NoDup tables →
  ∀ tA, (sum_list ((λ t, length (GetZero tA t)) <$> tables)
         ≤ bufferedCount tA)%nat.
Proof.
  induction 1 as [|t tables Hnin _ IH]; intros tA; [simpl; lia|].
  rewrite fmap_cons, (bufferedCount_delete tA t).
  assert ((λ t0, length (GetZero tA t0)) <$> tables
          = (λ t0, length (GetZero (delete t tA) t0)) <$> tables) as ->.
  { apply list_fmap_ext. intros _ t' Ht'%list_elem_of_lookup_2.
    unfold GetZero. rewrite lookup_delete_ne; [done|]. by intros ->. }
  specialize (IH (delete t tA)).
  change (sum_list (?x :: ?l)) with (x + sum_list l)%nat. lia.
Qed.

Lemma volume_reply (cs : list call) (c : call) (e : error) :
  volume (oks cs ++ [(c, Fail e)]) = volume (oks (cs ++ [c])).
Proof.
  rewrite oks_app, !volume_app. change (oks [c]) with [(c, Ok)].
  by rewrite !volume_cons.
Qed.

(** A flush hands over no more than the buffers hold. *)
Lemma flushEvents_volume su cur tA rs0 final evs rs' r :
  NoDup (concat (targets su)) →
  flushEvents su cur tA rs0 final evs rs' r →
  (volume evs ≤ bufferedCount tA)%nat.
Proof.
  intros Hnd.
  assert (volume (oks (due su tA)) ≤ bufferedCount tA)%nat as Hdue.
  { unfold due. rewrite volume_dueIn. by apply buffers_total. }
  destruct 1 as [final e|final body rs' r rb Hb].
  { unfold volume. simpl. lia. }
  rewrite volume_cons, volume_app, (volume_cons CallOnRollback). simpl.
  change (volume []) with 0%nat.
  destruct Hb as [final pre c post e Hd|final e|final adv rs' r Hadv].
  - rewrite volume_reply. rewrite Hd in Hdue.
    replace (pre ++ c :: post) with ((pre ++ [c]) ++ post) in Hdue
      by (by rewrite <- app_assoc).
    rewrite (oks_app (pre ++ [c])), volume_app in Hdue. lia.
  - rewrite volume_app, volume_cons. simpl. change (volume []) with 0%nat. lia.
  - rewrite volume_app, volume_cons. simpl.
    rewrite (volume_not_data adv); [lia|]. by eapply advanceEvents_not_data.
Qed.

Lemma filter_none {A} (P : A → Prop) `{!∀ x, Decision (P x)} (l : list A) :
  (∀ x, x ∈ l → ¬ P x) → filter P l = [].
Proof.
  induction l as [|x l IH]; intros Hn; [done|].
  rewrite filter_cons_False.
  - apply IH. intros y Hy. apply Hn, elem_of_cons. by right.
  - apply Hn, elem_of_cons. by left.
Qed.

(** In backfill mode the callback flushes as soon as the buffers hold
    [IdealFlushBatchSize] mutations, so that no flush is larger. *)
Lemma SelectMany_backfill su feedErr :
  NoDup (concat (targets su)) →
  (∀ s c, Backfill (NewProgress (ext su) s c) = Backfill s) →
  ∀ feed p p' r n,
    Backfill (rs p) = true →
    flushCounter p = Z.of_nat (bufferedCount (toApply p)) →
    flushCounter p ≤ Z.max (IdealFlushBatchSize (cfg su)) 1 →
    SelectMany su feed feedErr p = (p', r) →
    ∃ tr, hist (w p') = hist (w p) ++ tr ∧
          (∀ i m, (i, m) ∈ tagged n tr → (n < i ≤ n + begins tr)%nat) ∧
          (∀ i, Z.of_nat (length (filter (λ im : nat * Mutation, im.1 = i)
                                         (tagged n tr)))
                ≤ Z.max (IdealFlushBatchSize (cfg su)) 1) ∧
          (r = Ok →
           flushCounter p' = Z.of_nat (bufferedCount (toApply p')) ∧
           flushCounter p' ≤ Z.max (IdealFlushBatchSize (cfg su)) 1).
Proof.
  intros Hnd Hext.
  induction feed as [|[tbl mut|key tbl time] feed IH];
    intros p p' r n Hb Hc Hle; simpl.
  - intros [= <- <-]. exists []. rewrite app_nil_r. split; [done|].
    split; [by intros i m ?%elem_of_nil|]. split; [simpl; lia|done].
  - unfold callback, needsFlush. rewrite Hb.
    destruct (Z.leb_spec (IdealFlushBatchSize (cfg su)) (flushCounter p)).
    + destruct (flush _ _ _ _ _ _) as [[rs1 w1] r1] eqn:Hf.
      apply flush_events in Hf as (evs & Hev & Hh & _).
      pose proof (flushEvents_tagged _ _ _ _ _ _ _ _ n Hev) as [Hbeg Htag].
      pose proof (flushEvents_volume _ _ _ _ _ _ _ _ Hnd Hev) as Hvol.
      assert (∀ i, Z.of_nat (length (filter (λ im : nat * Mutation, im.1 = i)
                                            (tagged n evs)))
                   ≤ Z.max (IdealFlushBatchSize (cfg su)) 1) as Hone.
      { intros i.
        pose proof (length_filter (λ im : nat * Mutation, im.1 = i)
                                  (tagged n evs)) as Hfl.
        rewrite tagged_volume in Hfl. lia. }
      destruct r1 as [|e].
      2:{ intros [= <- <-]. exists evs. split; [done|]. split; [|done].
          intros i m [-> _]%Htag. lia. }
      apply flushEvents_interim in Hev as ->.
      intros HS. apply (IH _ _ _ (S n)) in HS as (tr2 & Hh2 & Hi2 & Ho2 & Hok2);
        simpl.
      2:{ by rewrite Hext. }
      2:{ rewrite bufferedCount_append, bufferedCount_reset. lia. }
      2:{ lia. }
      simpl in Hh2, Hok2.
      exists (evs ++ tr2). rewrite Hh2, Hh, app_assoc. split; [done|].
      rewrite tagged_app, begins_app, Hbeg, Nat.add_1_r.
      split; [|split; [|done]].
      * intros i m [[-> _]%Htag|?%Hi2]%elem_of_app; lia.
      * intros i. rewrite filter_app, length_app.
        destruct (decide (i = S n)) as [->|Hne].
        -- rewrite (filter_none _ (tagged (S n) tr2)).
           ++ specialize (Hone (S n)). simpl. lia.
           ++ intros [j m] Hj%Hi2. simpl. lia.
        -- rewrite (filter_none _ (tagged n evs)).
           ++ specialize (Ho2 i). simpl. lia.
           ++ intros [j m] [-> _]%Htag. simpl. lia.
    + intros HS. apply (IH _ _ _ n) in HS as (tr2 & Hh2 & Hi2 & Ho2 & Hok2);
        simpl; [by exists tr2|done| |lia].
      rewrite bufferedCount_append. lia.
  - intros HS. by apply (IH _ _ _ n) in HS.
Qed.

(** X13: in backfill mode, when no table occurs twice in the table
    order, no flush of a run of [process] hands more than
    [IdealFlushBatchSize] mutations to [OnData] (one, if the size is
    not positive), however many mutations are delivered. *)
Theorem backfill_batches_bounded (su : setup) (feed : list feedItem)
    (feedErr : option error) (rs0 : resolvedStamp) (w0 : world) :
  NoDup (concat (targets su)) →
  (∀ s c, Backfill (NewProgress (ext su) s c) = Backfill s) →
  Backfill rs0 = true →
  ∀ tr i,
    hist (process su feed feedErr rs0 w0).1 = hist w0 ++ tr →
    Z.of_nat (batchSize i tr) ≤ Z.max (IdealFlushBatchSize (cfg su)) 1.
Proof.
  intros Hnd Hext Hb tr i Hh. unfold batchSize.
  unfold process in Hh. destruct (length (targets su) =? 0)%nat.
  { simpl in Hh. rewrite <- (app_nil_r (hist w0)) in Hh at 1.
    apply app_inv_head in Hh as <-. simpl. lia. }
  destruct (SelectMany su feed feedErr (initial su rs0 w0)) as [p r1] eqn:HS.
  apply (SelectMany_backfill su feedErr Hnd Hext) with (n := 0%nat) in HS
    as (tr1 & Hh1 & Hi1 & Ho1 & Hok1); [|done|done|simpl; lia].
  simpl in Hh1. destruct r1 as [|e].
  2:{ simpl in Hh. rewrite Hh1 in Hh. apply app_inv_head in Hh as <-.
      apply Ho1. }
  destruct (Hok1 eq_refl) as [Hc Hle].
  destruct (flush su (cursor p) (toApply p) true (rs p) (w p))
    as [[rs' w'] r] eqn:Hf.
  apply flush_events in Hf as (evs & Hev & Hh2 & _).
  pose proof (flushEvents_tagged _ _ _ _ _ _ _ _ (begins tr1) Hev) as [_ Htag].
  pose proof (flushEvents_volume _ _ _ _ _ _ _ _ Hnd Hev) as Hvol.
  simpl in Hh. rewrite Hh2, Hh1, <- app_assoc in Hh.
  apply app_inv_head in Hh as <-. rewrite tagged_app. simpl.
  rewrite filter_app, length_app.
  destruct (decide (i = S (begins tr1))) as [->|Hne].
  - rewrite (filter_none _ (tagged 0 tr1)).
    + pose proof (length_filter (λ im : nat * Mutation, im.1 = S (begins tr1))
                                (tagged (begins tr1) evs)) as Hfl.
      rewrite tagged_volume in Hfl. simpl. lia.
    + intros [j m] Hj%Hi1. simpl. lia.
  - rewrite (filter_none _ (tagged (begins tr1) evs)).
    + specialize (Ho1 i). simpl. lia.
    + intros [j m] [-> _]%Htag. simpl. lia.
Qed.

Lemma backfill_batches_bounded_witness :
  Z.of_nat (batchSize 1
              (hist (process demoSetup demoFeed None backfillStamp demoWorld).1))
  ≤ Z.max (IdealFlushBatchSize (cfg demoSetup)) 1.
Proof.
  apply (backfill_batches_bounded demoSetup demoFeed None backfillStamp
           demoWorld); [|intros; reflexivity|reflexivity|reflexivity].
  apply (bool_decide_unpack _). vm_compute. exact I.
Defined.

(** ** serialEvents: transactions and the consistent point *)

Section serialEventsProofs.

Import logical serial.

Context {Stamp : Type} (nilStamp : Stamp).

Lemma track_app (open : option Tx) (a b : list (effect (Stamp := Stamp))) :
  track open (a ++ b) = track open a ≫= (λ open', track open' b).
Proof.
  revert open. induction a as [|f a IH]; intros open; [done|].
  destruct f; simpl; try apply IH.
  - destruct open; [done|apply IH].
  - case_decide; [apply IH|done].
  - case_decide; [apply IH|done].
  - case_decide; [apply IH|done].
Qed.

Lemma step_track (o : op) (e e' : serialEvents) effs res :
  step nilStamp o e = (e', effs, res) → track (tx e) effs = Some (tx e').
Proof.
  destruct o as [point began|committed set|target muts got applied|[|]];
    simpl; unfold OnBegin, OnCommit, OnData, OnRollback, drain.
  - destruct (tx e) eqn:Ht; intros [= <- <- <-]; simpl; by rewrite ?Ht.
  - destruct (tx e) as [t|] eqn:Ht; [|by intros [= <- <- <-]; rewrite Ht].
    destruct committed; intros [= <- <- <-]; simpl; by rewrite decide_True.
  - destruct got; intros [= <- <- <-]; simpl; [done|by rewrite decide_True].
  - destruct (tx e) as [t|] eqn:Ht; intros [= <- <- <-]; simpl; [|done].
    by rewrite decide_True.
  - by intros [= <- <- <-].
Qed.

(** X15: whatever methods of [serialEvents] are called in whatever
    order, and whatever the collaborators return, at most one
    transaction is open at a time: [Begin] is only called when none is
    open, only the open transaction is committed or rolled back, data
    is applied to the open transaction (to none, if none is open), and
    the field [tx] holds the open transaction at the end. *)
Theorem serialEvents_transactions (ops : list op) :
  track None (effects (run nilStamp ops (zero nilStamp)).2)
  = Some (tx (run nilStamp ops (zero nilStamp)).1).
Proof.
  change None with (tx (zero nilStamp)) at 1.
  generalize (zero nilStamp). induction ops as [|o ops IH]; intros e; [done|].
  simpl. destruct (step nilStamp o e) as [[e' effs] res] eqn:Hs.
  specialize (IH e'). destruct (run nilStamp ops e') as [e'' log].
  unfold effects in *. simpl in *. rewrite track_app.
  by rewrite (step_track _ _ _ _ _ Hs).
Qed.

Lemma setsOnly_none (cur : option Stamp) (effs : list effect) :
  (∀ s err, SetConsistentPoint s err ∉ effs) → setsOnly cur effs.
Proof.
  intros H pre s err post ->. destruct (H s err).
  apply elem_of_app. right. apply elem_of_cons. by left.
Qed.

Ltac no_set := apply setsOnly_none; intros ? ? Hin;
  repeat (apply elem_of_cons in Hin as [Hin|Hin]; [discriminate Hin|]);
  by apply elem_of_nil in Hin.

(** X16: whatever methods of [serialEvents] are called in whatever
    order, and whatever the collaborators return, the consistent point
    is set only right after a commit that succeeded, and to the stamp
    that the latest accepted [OnBegin] was given; it is not set after
    a rollback until [OnBegin] is called again. *)
Theorem serialEvents_consistent_point (ops : list op) :
  pointed None (run nilStamp ops (zero nilStamp)).2.
Proof.
  assert (∀ t, tx (zero nilStamp) = Some t →
               @None Stamp = Some (stamp (zero nilStamp))) as Hinv by done.
  revert Hinv. generalize (@None Stamp). generalize (zero nilStamp).
  induction ops as [|o ops IH]; intros e cur Hinv; [done|].
  simpl. destruct (step nilStamp o e) as [[e' effs] res] eqn:Hs.
  specialize (IH e'). destruct (run nilStamp ops e') as [e'' log]. simpl in *.
  destruct o as [point began|committed set|target muts got applied|[|]];
    simpl in Hs; unfold OnBegin, OnCommit, OnData, OnRollback, drain in Hs.
  - destruct (tx e) as [t|] eqn:Ht; injection Hs as <- <- <-.
    + split; [no_set|]. apply IH. by rewrite Ht.
    + split; [no_set|]. destruct began as [got [err|]]; simpl; by apply IH.
  - destruct (tx e) as [t|] eqn:Ht.
    2:{ injection Hs as <- <- <-. split; [no_set|]. apply IH. by rewrite Ht. }
    destruct committed as [err|]; injection Hs as <- <- <-.
    + split; [no_set|]. by apply IH.
    + split; [|by apply IH].
      intros pre s err post Heq.
      destruct pre as [|f [|f' pre]]; simplify_eq/=.
      * split; [by eapply Hinv|]. by eexists.
      * by destruct pre.
  - destruct got as [err|]; injection Hs as <- <- <-;
      (split; [no_set|]); by apply IH.
  - injection Hs as <- <- <-. split.
    + destruct (tx e); no_set.
    + by apply IH.
  - injection Hs as <- <- <-. split; [no_set|]. by apply IH.
Qed.

End serialEventsProofs.

(** ** The meta-table: an applied timestamp stays applied *)

Lemma applyOp_keys (tbl : list row) (op : storeOp) :
  NoDup (keys tbl) → NoDup (keys (applyOp tbl op)).
Proof.
  intros Hnd. destruct op as [f s ts|f s ts now]; simpl.
  - by apply (Mark_keys f {| metaTable := tbl; marked := None |}).
  - by apply Record_keys.
Qed.

Lemma foldl_applyOp_keys (ops : list storeOp) (tbl : list row) :
  NoDup (keys tbl) → NoDup (keys (foldl applyOp tbl ops)).
Proof.
  revert tbl. induction ops as [|op ops IH]; intros tbl Hnd; [done|].
  simpl. by apply IH, applyOp_keys.
Qed.

(** Neither the INSERT of [Mark] nor the UPSERT of [Record] takes
    back that a timestamp is applied. *)
Lemma applyOp_applied (tbl : list row) (op : storeOp) (s : Schema)
    (ts : hlc.Time) :
  appliedIn tbl s ts → appliedIn (applyOp tbl op) s ts.
Proof.
  intros (r & Hr & Hs & Ht & Ha).
  destruct op as [[msg|] s' ts'|[msg|] s' ts' now]; simpl;
    try by exists r.
  - destruct (decide (newer tbl s' ts')) as [Hn|Hn].
    + rewrite (Mark_newer {| metaTable := tbl; marked := None |} _ _ Hn).
      simpl. exists r. split; [|done]. apply elem_of_app. by left.
    + rewrite (Mark_older {| metaTable := tbl; marked := None |} _ _ Hn).
      by exists r.
  - unfold recordExec. destruct (existsb (samePK s' ts') tbl).
    + destruct (samePK s' ts' r) eqn:Hpk.
      * exists (mkRow s' ts' (Some now)). rewrite rowTime_mkRow.
        apply samePK_key in Hpk as [= Hs' Ht'].
        split; [|by rewrite <- Hs, <- Ht].
        apply list_elem_of_fmap. exists r.
        split; [|done]. rewrite (proj2 (samePK_key s' ts' r)); [done|].
        by rewrite Hs', Ht'.
      * exists r. split; [|done]. apply list_elem_of_fmap. exists r.
        by rewrite Hpk.
    + exists r. split; [|done]. apply elem_of_app. by left.
Qed.

Lemma foldl_applyOp_applied (ops : list storeOp) (tbl : list row)
    (s : Schema) (ts : hlc.Time) :
  appliedIn tbl s ts → appliedIn (foldl applyOp tbl ops) s ts.
Proof.
  revert tbl. induction ops as [|op ops IH]; intros tbl Ha; [done|].
  simpl. by apply IH, applyOp_applied.
Qed.

Lemma keys_unique_row (tbl : list row) (r r' : row) :
  NoDup (keys tbl) → r ∈ tbl → r' ∈ tbl →
  target_schema r = target_schema r' → rowTime r = rowTime r' → r = r'.
Proof.
  intros Hnd [i Hi]%list_elem_of_lookup [j Hj]%list_elem_of_lookup Hs Ht.
  assert (i = j) as ->; [|congruence].
  eapply NoDup_lookup; [exact Hnd| |].
  - unfold keys. by rewrite list_lookup_fmap, Hi.
  - unfold keys. rewrite list_lookup_fmap, Hj. simpl. by rewrite Hs, Ht.
Qed.

(** X17: once [Record] has marked a timestamp of a schema as applied,
    no later [Mark] or [Record], for whatever schema and timestamp and
    whether the driver fails it or not, brings it back:
    [selectTimestamp] for that schema finds another timestamp or no
    work. *)
Theorem applied_never_selected (before later : list storeOp) (s : Schema)
    (ts : hlc.Time) (now : Z) (after : hlc.Time) :
  match selectTimestamp None
          (runOps (before ++ OpRecord None s ts now :: later)) s after with
  | (t, None) => t ≠ ts
  | (_, Some e) => e = ErrNoWork
  end.
Proof.
  unfold runOps. rewrite foldl_app. simpl.
  set (tbl := foldl applyOp [] before).
  assert (NoDup (keys (foldl applyOp (recordExec tbl s ts now) later))) as Hnd.
  { apply foldl_applyOp_keys, (Record_keys None), foldl_applyOp_keys.
    constructor. }
  assert (appliedIn (foldl applyOp (recordExec tbl s ts now) later) s ts)
    as (r & Hr & Hs & Ht & Ha).
  { apply foldl_applyOp_applied.
    destruct (recordExec_applied tbl s ts now) as (r & Hr & Hs & Ht & Ha).
    exists r. by rewrite Ha. }
  unfold selectTimestamp.
  destruct (least _) as [t|] eqn:Hl; [|done].
  apply least_Some in Hl as [Hin _].
  apply elem_of_unapplied in Hin as (r' & Hr' & Hs' & _ & Ha' & Ht').
  intros ->. destruct Ha.
  rewrite (keys_unique_row _ r r' Hnd Hr Hr'); [done| |]; congruence.
Qed.

(** ** The message loop: proposals are applied in order *)

(** What a flush does to the meta-table: a final flush may record one
    timestamp, nothing else changes it. *)
Lemma flush_resolved su cur tA final rs0 w0 rs' w' r :
  flush su cur tA final rs0 w0 = (rs', w', r) →
  resolved w' = resolved w0 ∨
  final = true ∧
  ∃ ts nw, resolved w' = recordExec (resolved w0) (target su) ts nw.
Proof.
  unfold flush, invoke.
  destruct (respond (env su) (hist w0) CallOnBegin);
    [|intros [= <- <- <-]; by left].
  unfold flushBatch.
  match goal with
  | |- context [flushGroups ?e ?s ?t ?g ?w] =>
    pose proof (flushGroups_events e s t g w) as (_ & Hres & _);
    destruct (flushGroups e s t g w) as [w1 [|e1]]
  end; simpl in Hres; [|intros [= <- <- <-]; by left].
  unfold setConsistentPoint, doRecord, invoke.
  destruct (respond (env su) (hist w1) CallOnCommit);
    [|intros [= <- <- <-]; by left].
  destruct final.
  - destruct (NewCommitted (ext su) rs0) as [e|rs1];
      [intros [= <- <- <-]; by left|]. simpl.
    destruct (respond (env su) _ (CallRecord _));
      [|intros [= <- <- <-]; by left]. simpl.
    destruct (respond (env su) _ (CallSetConsistentPoint _));
      intros [= <- <- <-]; right; (split; [done|]); simpl; rewrite Hres;
      by eexists _, _.
  - simpl. destruct (respond (env su) _ (CallSetConsistentPoint _));
      intros [= <- <- <-]; by left.
Qed.

Lemma SelectMany_resolved su feed feedErr :
  ∀ p p' r, SelectMany su feed feedErr p = (p', r) →
            resolved (w p') = resolved (w p).
Proof.
  induction feed as [|[tbl mut|key tbl time] feed IH]; intros p p' r; simpl.
  - by intros [= <- <-].
  - unfold callback. destruct (needsFlush _ _ _ _ _).
    + destruct (flush _ _ _ _ _ _) as [[rs1 w1] r1] eqn:Hf.
      apply flush_resolved in Hf as [Hf|[[=] _]].
      destruct r1 as [|e]; [|by intros [= <- <-]].
      intros ->%IH. done.
    + by intros ->%IH.
  - by intros ->%IH.
Qed.

(** Whatever [process] returns, what was applied stays applied. *)
Lemma process_applied_stays su feed feedErr rs0 w0 s ts :
  appliedIn (resolved w0) s ts →
  appliedIn (resolved (process su feed feedErr rs0 w0).1) s ts.
Proof.
  intros Ha. unfold process. destruct (length (targets su) =? 0)%nat; [done|].
  destruct (SelectMany su feed feedErr (initial su rs0 w0)) as [p r1] eqn:HS.
  apply SelectMany_resolved in HS. simpl in HS.
  destruct r1 as [|e]; [|simpl; by rewrite HS].
  destruct (flush su (cursor p) (toApply p) true (rs p) (w p))
    as [[rs' w'] r] eqn:Hf.
  apply flush_resolved in Hf as [Hf|(_ & ts' & nw & Hf)]; simpl; rewrite Hf, HS.
  - done.
  - by apply (applyOp_applied _ (OpRecord None (target su) ts' nw)).
Qed.

(** A successful [process] commits and records the proposed time. *)
Lemma process_Ok su feed feedErr rs0 w0 w' :
  (∀ s c, CommittedTime (NewProgress (ext su) s c) = CommittedTime s ∧
          ProposedTime (NewProgress (ext su) s c) = ProposedTime s) →
  (∀ s s', NewCommitted (ext su) s = inr s' →
           CommittedTime s' = ProposedTime s) →
  process su feed feedErr rs0 w0 = (w', Ok) →
  CommittedTime (consistentPoint w') = ProposedTime rs0 ∧
  appliedIn (resolved w') (target su) (ProposedTime rs0).
Proof.
  intros Hprog Hcomm. unfold process.
  destruct (length (targets su) =? 0)%nat; [done|].
  destruct (SelectMany su feed feedErr (initial su rs0 w0)) as [p r1] eqn:HS.
  apply (SelectMany_stamp su
           (λ s, CommittedTime s = CommittedTime rs0 ∧
                 ProposedTime s = ProposedTime rs0) _ _ _ _ _
           (consistentPoint w0)) in HS as [_ Hrs]; simpl; [| |done|by left].
  2:{ intros s c [Hc Hp]. destruct (Hprog s c) as [-> ->]. done. }
  destruct r1 as [|e]; [|done].
  destruct (Hrs eq_refl) as [_ Hp].
  destruct (flush su (cursor p) (toApply p) true (rs p) (w p))
    as [[rs' w1] r] eqn:Hf.
  intros [= -> ->].
  pose proof (flush_point _ _ _ _ _ _ _ _ _ Hf) as Hpt. simpl in Hpt.
  apply flush_final_Ok in Hf as [Hn [nw Hres]].
  apply Hcomm in Hn. rewrite Hpt, Hn, Hp. split; [done|].
  destruct (recordExec_applied (resolved (w p)) (target su)
              (CommittedTime rs') nw) as (r & Hr & Hs & Ht & Ha).
  exists r. rewrite Hres. split; [done|]. split; [done|].
  split; [congruence|]. by rewrite Ha.
Qed.

Lemma proposals_cons_proposal rs feed feedErr (ch : list message) :
  proposals (Proposal rs feed feedErr :: ch) = rs :: proposals ch.
Proof. done. Qed.

Lemma Process_applied_stays su (ch : list message) :
  ∀ w0 s ts, appliedIn (resolved w0) s ts →
             appliedIn (resolved (Process su ch w0).1) s ts.
Proof.
  induction ch as [|[|rs feed feedErr] ch IH]; intros w0 s ts Ha; simpl.
  - done.
  - by apply IH.
  - pose proof (process_applied_stays su feed feedErr rs w0 s ts Ha) as H1.
    destruct (process su feed feedErr rs w0) as [w1 [|e]]; [|done].
    by apply IH.
Qed.

(** X18: for stamp constructors under which [NewProgress] keeps the
    committed and the proposed time and [NewCommitted] makes the
    proposed time the committed one: when [Process] returns without an
    error, the proposed time of every stamp it received is recorded as
    applied and the persisted stamp is committed at the proposed time
    of the last one; rollback messages change nothing.  When it
    returns an error, this holds of the stamps before the one whose
    processing failed, and no later message was processed. *)
Theorem Process_applies (su : setup) (ch : list message) (w0 : world) :
  (∀ s c, CommittedTime (NewProgress (ext su) s c) = CommittedTime s ∧
          ProposedTime (NewProgress (ext su) s c) = ProposedTime s) →
  (∀ s s', NewCommitted (ext su) s = inr s' →
           CommittedTime s' = ProposedTime s) →
  match Process su ch w0 with
  | (w', Ok) =>
    Forall (λ rs, appliedIn (resolved w') (target su) (ProposedTime rs))
           (proposals ch) ∧
    match last (proposals ch) with
    | Some rs => CommittedTime (consistentPoint w') = ProposedTime rs
    | None => w' = w0
    end
  | (w', Fail e) =>
    ∃ pre rs feed feedErr post w1,
      ch = pre ++ Proposal rs feed feedErr :: post ∧
      Process su pre w0 = (w1, Ok) ∧
      process su feed feedErr rs w1 = (w', Fail e) ∧
      Forall (λ rs', appliedIn (resolved w') (target su) (ProposedTime rs'))
             (proposals pre)
  end.
Proof.
  intros Hprog Hcomm. revert w0.
  induction ch as [|[|rs feed feedErr] ch IH]; intros w0; cbn [Process].
  - split; [constructor|done].
  - specialize (IH w0). destruct (Process su ch w0) as [w' [|e]]; [done|].
    destruct IH as (pre & rs & feed & feedErr & post & w1 & -> & HP & Hp & HF).
    by exists (RollbackMessage :: pre), rs, feed, feedErr, post, w1.
  - destruct (process su feed feedErr rs w0) as [w1 [|e]] eqn:Hp.
    2:{ exists [], rs, feed, feedErr, ch, w0. split; [done|]. split; [done|].
        split; [done|constructor]. }
    apply (process_Ok _ _ _ _ _ _ Hprog Hcomm) in Hp as Hok.
    destruct Hok as [Hc Ha].
    pose proof (Process_applied_stays su ch w1 _ _ Ha) as Hstay.
    specialize (IH w1). destruct (Process su ch w1) as [w' [|e]] eqn:HP.
    + destruct IH as [HF Hl]. rewrite proposals_cons_proposal.
      split; [by constructor|].
      destruct (proposals ch) as [|rs1 l] eqn:Hps; [simpl in *; by subst|].
      rewrite last_cons_cons.
      destruct (last (rs1 :: l)) eqn:Hlast; [done|].
      by apply last_None in Hlast.
    + destruct IH as (pre & rs2 & feed2 & fe2 & post & w2 & -> & HP2 & Hp2 & HF).
      exists (Proposal rs feed feedErr :: pre), rs2, feed2, fe2, post, w2.
      split; [done|]. cbn [Process]. rewrite Hp. split; [done|]. split; [done|].
      rewrite proposals_cons_proposal. by constructor.
Qed.

Lemma Process_applies_witness :
  Forall (λ rs, appliedIn (resolved (Process demoSetup demoChannel demoWorld).1)
                          (target demoSetup) (ProposedTime rs))
         (proposals demoChannel) ∧
  CommittedTime (consistentPoint (Process demoSetup demoChannel demoWorld).1)
  = hlc.New 30 0.
Proof.
  pose proof (Process_applies demoSetup demoChannel demoWorld) as H.
  assert ((Process demoSetup demoChannel demoWorld).2 = Ok) as Hok
    by (vm_compute; reflexivity).
  destruct (Process demoSetup demoChannel demoWorld) as [w' r].
  simpl in Hok. subst r. apply H.
  - intros s c. split; reflexivity.
  - intros s s' [= <-]. reflexivity.
Defined.

(** ** The scan for schemas with work *)







(** ** msort.UniqueByKey: applying it twice *)

(** X20: [UniqueByKey] is idempotent: applied to a slice that it
    returned, it returns that slice as it is, and does not panic. *)
Theorem UniqueByKey_idempotent (x : list Mutation) :
  match msort.UniqueByKey x with
  | Ret r => msort.UniqueByKey r = Ret r
  | Panic _ => Exists (λ m, Key m = "") x
  end.
Proof.
  pose proof (UniqueByKey_loop_end x) as HE.
  unfold msort.UniqueByKey at 1.
  destruct (msort.loop _ _) as [st|msg] eqn:Hl; [|done].
  destruct HE as [Hne HI]. set (r := drop (dest st) (xs st)).
  assert (∀ m, m ∈ r → m ∈ x) as Hsub.
  { intros m [i Hi]%list_elem_of_lookup. unfold r in Hi.
    rewrite lookup_drop in Hi.
    destruct (inv_slot _ _ _ HI (dest st + i)%nat m ltac:(lia) Hi)
      as (_ & Hin & _).
    by rewrite drop_0 in Hin. }
  assert (NoDup (Key <$> r)) as Hnd.
  { unfold r. rewrite (UniqueByKey_loop_keys x st Hl). apply NoDup_remove_dups. }
  pose proof (UniqueByKey_loop_end r) as HE'.
  unfold msort.UniqueByKey.
  destruct (msort.loop (length r) _) as [st'|msg] eqn:Hl'.
  - f_equal. apply same_keys_same_list; [done| |].
    + by rewrite (UniqueByKey_loop_keys r st' Hl'), remove_dups_NoDup.
    + destruct HE' as [_ HI']. intros m [i Hi]%list_elem_of_lookup.
      rewrite lookup_drop in Hi.
      destruct (inv_slot _ _ _ HI' (dest st' + i)%nat m ltac:(lia) Hi)
        as (_ & Hin & _).
      by rewrite drop_0 in Hin.
  - apply Exists_exists in HE' as (m & Hm & He).
    rewrite Forall_forall in Hne. by apply Hsub, Hne in Hm.
Qed.

(** ** The processor: a timestamp is recorded after its hand-over *)

Lemma unique_split {A} (x : A) (a b l post : list A) :
  a ++ x :: b = l ++ x :: post → x ∉ a → x ∉ b → l = a ∧ post = b.
Proof.
  revert l. induction a as [|y a IH]; intros l Heq Ha Hb.
  - destruct l as [|z l]; simplify_eq/=; [done|].
    destruct Hb. apply elem_of_app. right. apply elem_of_cons. by left.
  - destruct l as [|z l]; simplify_eq/=.
    + destruct Ha. apply elem_of_cons. by left.
    + destruct (IH l) as [-> ->]; [done| |done|done].
      intros ?. apply Ha, elem_of_cons. by right.
Qed.

Lemma oks_due_not_record su tA (ts : hlc.Time) (r : reply) (pre post : list call) :
  due su tA = pre ++ post → (CallRecord ts, r) ∉ oks pre.
Proof.
  intros Hd Hin.
  pose proof (dueIn_isOnData (SourceName (ext su) (target su)) tA
                (concat (targets su))) as HF.
  fold (due su tA) in HF. rewrite Hd in HF. apply Forall_app in HF as [HF _].
  apply oks_isOnData in HF. rewrite Forall_forall in HF.
  by apply HF in Hin.
Qed.

(** Only a final flush records, after its commit, and once. *)
Lemma flushEvents_recorded su cur tA rs0 final evs rs' r ts :
  flushEvents su cur tA rs0 final evs rs' r →
  (CallRecord ts, Ok) ∈ evs →
  final = true ∧
  ∃ rr rb,
    evs = ((CallOnBegin, Ok) :: oks (due su tA) ++ [(CallOnCommit, Ok)])
          ++ (CallRecord ts, Ok)
          :: [(CallSetConsistentPoint rs', rr); (CallOnRollback, rb)] ∧
    (CallRecord ts, Ok) ∉ (CallOnBegin, Ok) :: oks (due su tA)
                           ++ [(CallOnCommit, Ok)].
Proof.
  assert (∀ pre post, due su tA = pre ++ post →
                      (CallRecord ts, Ok) ∉ oks pre) as Hdue.
  { intros pre post. apply oks_due_not_record. }
  destruct 1 as [final e|final body rs' r rb Hb].
  { by intros [[=]|?%elem_of_nil]%elem_of_cons. }
  destruct Hb as [final pre c post e Hd|final e|final adv rs' r Hadv].
  - intros [[=]|[[Hin|Hin]%elem_of_app|Hin]%elem_of_app]%elem_of_cons.
    + by apply (Hdue pre (c :: post)) in Hin.
    + by apply list_elem_of_singleton in Hin.
    + by apply list_elem_of_singleton in Hin.
  - intros [[=]|[[Hin|Hin]%elem_of_app|Hin]%elem_of_app]%elem_of_cons.
    + apply (Hdue (due su tA) []) in Hin; [done|by rewrite app_nil_r].
    + by apply list_elem_of_singleton in Hin.
    + by apply list_elem_of_singleton in Hin.
  - assert ((CallRecord ts, Ok) ∉ (CallOnBegin, Ok) :: oks (due su tA)
                                   ++ [(CallOnCommit, Ok)]) as Hnot.
    { intros [[=]|[Hin|Hin]%elem_of_app]%elem_of_cons.
      - apply (Hdue (due su tA) []) in Hin; [done|by rewrite app_nil_r].
      - by apply list_elem_of_singleton in Hin. }
    intros [[=]|[[Hin|Hin]%elem_of_app|Hin]%elem_of_app]%elem_of_cons.
    + apply (Hdue (due su tA) []) in Hin; [done|by rewrite app_nil_r].
    + apply elem_of_cons in Hin as [[=]|Hin].
      destruct Hadv as [rr|e He|rs' e He|rs' rr He].
      * by apply list_elem_of_singleton in Hin.
      * by apply elem_of_nil in Hin.
      * by apply list_elem_of_singleton in Hin.
      * apply elem_of_cons in Hin as [[= ->]|Hin].
        2:{ by apply list_elem_of_singleton in Hin. }
        split; [done|]. exists rr, rb. split; [|done].
        simpl. by rewrite <- !app_assoc.
    + by apply list_elem_of_singleton in Hin.
Qed.

Lemma SelectMany_no_record su feed feedErr :
  ∀ p p' r tr ts rr,
    SelectMany su feed feedErr p = (p', r) →
    hist (w p') = hist (w p) ++ tr →
    (CallRecord ts, rr) ∉ tr.
Proof.
  induction feed as [|[tbl mut|key tbl time] feed IH];
    intros p p' r tr ts rr; simpl.
  - intros [= <- <-] Hh. rewrite <- (app_nil_r (hist (w p))) in Hh at 1.
    apply app_inv_head in Hh as <-. apply not_elem_of_nil.
  - unfold callback. destruct (needsFlush _ _ _ _ _).
    + destruct (flush _ _ _ _ _ _) as [[rs1 w1] r1] eqn:Hf.
      apply flush_events in Hf as (evs & Hev & Hh1 & _).
      assert ((CallRecord ts, rr) ∉ evs) as Hno.
      { intros Hin. inversion Hev as [|? body ? ? rb Hb]; subst.
        { by apply list_elem_of_singleton in Hin. }
        apply elem_of_cons in Hin as [[=]|[Hin|Hin]%elem_of_app].
        2:{ by apply list_elem_of_singleton in Hin. }
        inversion Hb as [? pre c post e Hd|? e|? adv ? ? Hadv]; subst.
        - apply elem_of_app in Hin as [Hin|Hin].
          + by apply (oks_due_not_record su (toApply p) ts rr pre (c :: post)) in Hin.
          + apply list_elem_of_singleton in Hin. injection Hin as <- _.
            by apply due_isOnData in Hd.
        - apply elem_of_app in Hin as [Hin|Hin].
          + apply (oks_due_not_record su (toApply p) ts rr _ []) in Hin; [done|].
            by rewrite app_nil_r.
          + by apply list_elem_of_singleton in Hin.
        - apply elem_of_app in Hin as [Hin|Hin].
          + apply (oks_due_not_record su (toApply p) ts rr _ []) in Hin; [done|].
            by rewrite app_nil_r.
          + apply elem_of_cons in Hin as [[=]|Hin].
            inversion Hadv; subst. by apply list_elem_of_singleton in Hin. }
      destruct r1 as [|e].
      2:{ intros [= <- <-] Hh. simpl in Hh. rewrite Hh1 in Hh.
          by apply app_inv_head in Hh as <-. }
      intros HS Hh.
      assert (∃ tr2, hist (w p') = hist w1 ++ tr2) as [tr2 Hh2].
      { apply SelectMany_propagates in HS as (tr2 & Hh2 & _). by exists tr2. }
      pose proof (IH _ _ _ tr2 ts rr HS Hh2) as Hno2.
      simpl in Hh2. rewrite Hh2, Hh1, <- app_assoc in Hh.
      apply app_inv_head in Hh as <-.
      by intros [?|?]%elem_of_app.
    + intros HS Hh. by apply (IH _ _ _ tr ts rr HS).
  - intros HS Hh. by apply (IH _ _ _ tr ts rr HS).
Qed.

(** X21: when no table occurs twice in the table order: at the moment
    at which [process] records a timestamp as applied, every call
    before succeeded, but for dropped results of [OnRollback], the
    last of them being the [OnCommit] of the final flush, [SelectMany]
    has ended without an error, and every mutation it delivered for a
    table of the order has been handed to [OnData]. *)
Theorem recorded_after_hand_over (su : setup) (feed : list feedItem)
    (feedErr : option error) (rs0 : resolvedStamp) (w0 : world) (t : Table) :
  NoDup (concat (targets su)) →
  match process su feed feedErr rs0 w0 with
  | (w', r) =>
    ∃ tr, hist w' = hist w0 ++ tr ∧
          ∀ pre ts post,
            tr = pre ++ (CallRecord ts, Ok) :: post →
            clean pre ∧ last pre = Some (CallOnCommit, Ok) ∧
            feedErr = None ∧
            handed t pre = owed su t feed
  end.
Proof.
  intros Hnd. unfold process. destruct (length (targets su) =? 0)%nat.
  { exists []. rewrite app_nil_r. split; [done|].
    intros pre ts post H. by destruct pre. }
  destruct (SelectMany su feed feedErr (initial su rs0 w0)) as [p r1] eqn:HS.
  pose proof (SelectMany_propagates _ _ _ _ _ _ HS) as (tr1 & Hh1 & Hp1).
  pose proof (SelectMany_handed su feedErr t Hnd _ _ _ _ HS)
    as (tr1' & Hh1' & _ & He1).
  rewrite Hh1 in Hh1'. apply app_inv_head in Hh1' as <-.
  assert (∀ ts rr, (CallRecord ts, rr) ∉ tr1) as Hno.
  { intros ts rr. by eapply SelectMany_no_record. }
  assert (r1 = Ok → feedErr = None) as Hfeed.
  { clear -HS. revert HS. generalize (initial su rs0 w0).
    induction feed as [|[tbl mut|key tbl time] feed IH]; intros p0; simpl.
    - destruct feedErr; [by intros [= _ <-]|done].
    - destruct (callback su tbl mut p0) as [p1 [|e]]; [apply IH|].
      by intros [= _ <-].
    - apply IH. }
  simpl in Hh1, He1.
  assert (flushable su ∅ t = []) as Hemp.
  { unfold flushable. by case_decide. }
  rewrite Hemp in He1. simpl in He1.
  destruct r1 as [|e].
  2:{ exists tr1. split; [done|]. intros pre ts post ->.
      destruct (Hno ts Ok). apply elem_of_app. right. apply elem_of_cons.
      by left. }
  apply propagates_Ok in Hp1 as [Hcl1 _].
  destruct (flush su (cursor p) (toApply p) true (rs p) (w p))
    as [[rs' w'] r] eqn:Hf.
  apply flush_events in Hf as (evs & Hev & Hh & _).
  exists (tr1 ++ evs). rewrite Hh, Hh1, app_assoc. split; [done|].
  intros pre ts post Heq.
  assert ((CallRecord ts, Ok) ∈ evs) as Hin.
  { assert ((CallRecord ts, Ok) ∈ tr1 ++ evs) as [Hin|Hin]%elem_of_app.
    { rewrite Heq. apply elem_of_app. right. apply elem_of_cons. by left. }
    - by apply Hno in Hin.
    - done. }
  destruct (flushEvents_recorded _ _ _ _ _ _ _ _ _ Hev Hin)
    as (_ & rr & rb & Hevs & Hnot).
  rewrite Hevs, app_assoc in Heq.
  apply unique_split in Heq as [-> _].
  - split; [|split; [|split]].
    + apply Forall_app. split; [done|]. unfold clean.
      apply Forall_cons. split; [by right|]. apply Forall_app. split.
      * apply Forall_fmap, Forall_forall. intros c _. by right.
      * apply Forall_singleton. by right.
    + rewrite app_comm_cons, app_assoc. apply last_snoc.
    + by apply Hfeed.
    + rewrite handed_app, handed_cons_other by (simpl; tauto).
      rewrite handed_app, handed_due by done.
      rewrite <- (He1 eq_refl). by rewrite app_nil_r.
  - intros [Hin1|Hin2]%elem_of_app; [by apply Hno in Hin1|done].
  - by intros [[=]|[[=]|?%elem_of_nil]%elem_of_cons]%elem_of_cons.
Qed.

Lemma recorded_after_hand_over_witness :
  ∃ tr, hist (process demoSetup demoFeed None demoStamp demoWorld).1
        = hist demoWorld ++ tr ∧
        ∀ pre ts post,
          tr = pre ++ (CallRecord ts, Ok) :: post →
          clean pre ∧ last pre = Some (CallOnCommit, Ok) ∧
          @None error = None ∧
          handed "p" pre = owed demoSetup "p" demoFeed.
Proof.
  pose proof (recorded_after_hand_over demoSetup demoFeed None demoStamp
                demoWorld "p") as H.
  destruct (process demoSetup demoFeed None demoStamp demoWorld) as [w' r].
  apply H. apply (bool_decide_unpack _). vm_compute. exact I.
Defined.
